(** * Verification of the TMDB enrichment client (modules/tmdb_client.py)

    A shallow embedding of [TMDBClient]: title normalisation, the cache,
    the retrying transport, title resolution, detail extraction, batch
    enrichment and candidate-pool construction, followed by the theorems
    about them.

    Conventions.
    - A Python [str] is a [string]; a character is read as the code point
      of the same number (U+0000 to U+00FF), and the case and whitespace
      tables below are Python's on that range.
    - A Python [int] is a [Z]; a [float] score or rating is an exact
      rational [Q] (every finite float is one, and the code only compares
      and adds them).
    - [None] is [None]; a dictionary key that may be missing or null is a
      [field].
    - JSON bodies are typed as the provider documents them; console
      output ([print], [show_progress]) and the optional
      [progress_callback] are left out. *)

From Stdlib Require Import Ascii String QArith.
From stdpp Require Import base option list strings gmap pretty sorting.

Local Open Scope Z_scope.

(** ** Characters and strings *)

Module Str.

Definition code (c : ascii) : N := N_of_ascii c.

Definition in_range (lo hi : N) (c : ascii) : bool :=
  ((lo <=? code c) && (code c <=? hi))%N.

(** [str.isspace] / the regex class [\s] on code points below 256:
    TAB..CR, FS..US, SPACE, NEL and NBSP. *)
Definition isspace (c : ascii) : bool :=
  in_range 9 13 c || in_range 28 32 c
  || (code c =? 133)%N || (code c =? 160)%N.

(** [a-z] and [0-9] of the regex [[^a-z0-9\s]]. *)
Definition is_az (c : ascii) : bool := in_range 97 122 c.
Definition is_digit (c : ascii) : bool := in_range 48 57 c.

(** [str.lower] on one character: A..Z and the Latin-1 capitals
    U+00C0..U+00DE (U+00D7, the multiplication sign, apart). *)
Definition lower_char (c : ascii) : ascii :=
  if in_range 65 90 c
     || (in_range 192 222 c && negb (code c =? 215)%N)
  then ascii_of_N (code c + 32)
  else c.

Fixpoint map (f : ascii -> ascii) (s : string) : string :=
  match s with
  | EmptyString => EmptyString
  | String c s' => String (f c) (map f s')
  end.

Fixpoint filter (p : ascii -> bool) (s : string) : string :=
  match s with
  | EmptyString => EmptyString
  | String c s' => if p c then String c (filter p s') else filter p s'
  end.

Fixpoint forallb (p : ascii -> bool) (s : string) : bool :=
  match s with
  | EmptyString => true
  | String c s' => p c && forallb p s'
  end.

Definition lower (s : string) : string := map lower_char s.

(** [s.startswith(p)], returning what follows the prefix. *)
Fixpoint strip_prefix (p s : string) : option string :=
  match p, s with
  | EmptyString, _ => Some s
  | String a p', String b s' =>
      if Ascii.eqb a b then strip_prefix p' s' else None
  | String _ _, EmptyString => None
  end.

(** Drop the leading whitespace of [s]. *)
Fixpoint lstrip (s : string) : string :=
  match s with
  | String c s' => if isspace c then lstrip s' else s
  | EmptyString => EmptyString
  end.

(** The regex [\s+] at the head of [s]: at least one whitespace
    character, then greedily all of them. *)
Definition spaces1 (s : string) : option string :=
  match s with
  | String c s' => if isspace c then Some (lstrip s') else None
  | EmptyString => None
  end.

(** [s.split()]: the maximal runs of non-whitespace characters.
    [w] is the word read so far. *)
Fixpoint split_go (w s : string) : list string :=
  match s with
  | EmptyString => match w with EmptyString => [] | _ => [w] end
  | String c s' =>
      if isspace c
      then match w with
           | EmptyString => split_go EmptyString s'
           | _ => w :: split_go EmptyString s'
           end
      else split_go (w +:+ String c EmptyString) s'
  end.

Definition split (s : string) : list string := split_go EmptyString s.

(** [' '.join(ws)] *)
Fixpoint join (ws : list string) : string :=
  match ws with
  | [] => EmptyString
  | [w] => w
  | w :: ws' => w +:+ String " " (join ws')
  end.

(** [s[:n]] for [0 <= n]. *)
Fixpoint take (n : nat) (s : string) : string :=
  match n, s with
  | S n', String c s' => String c (take n' s')
  | _, _ => EmptyString
  end.

End Str.

(** ** Title normalisation *)

(** The alternatives of the regex
    [^(the|a|an|le|la|les|un|une|der|die|das|el|los|las)\s+],
    in the order the regex engine tries them. *)
Definition articles : list string :=
  ["the"; "a"; "an"; "le"; "la"; "les"; "un"; "une";
   "der"; "die"; "das"; "el"; "los"; "las"].

(** A match of [^(alt1|alt2|...)\s+] at the start of [s]: the first
    alternative that is a prefix of [s] and is followed by whitespace.
    The result is what is left after the match. *)
Fixpoint match_article (alts : list string) (s : string) : option string :=
  match alts with
  | [] => None
  | a :: alts' =>
      match Str.strip_prefix a s ≫= Str.spaces1 with
      | Some rest => Some rest
      | None => match_article alts' s
      end
  end.

(** [re.sub(r'^(the|...)\s+', '', s)]: the pattern is anchored, so at
    most one match, at position 0, is removed. *)
Definition sub_leading_article (s : string) : string :=
  default s (match_article articles s).

(** [re.sub(r'[^a-z0-9\s]', '', s)] *)
Definition keep_char (c : ascii) : bool :=
  Str.is_az c || Str.is_digit c || Str.isspace c.

Definition sub_special (s : string) : string := Str.filter keep_char s.

Definition _normalize_title (title : string) : string :=
  let normalized := Str.lower title in
  let normalized := sub_leading_article normalized in
  let normalized := sub_special normalized in
  Str.join (Str.split normalized).

(** ** Values the client handles *)

(** A dictionary key of a JSON object that is read with a default:
    missing, present with [null], or present with a value.  (A key read
    with [d.get(k)] is an [option]: [None] when missing or null.) *)
Inductive field (A : Type) : Type :=
  | Missing
  | Null
  | Val (a : A).
Arguments Missing {A}.
Arguments Null {A}.
Arguments Val {A} a.

(** [d.get(k, dflt)] *)
Definition get_or {A} (dflt : A) (f : field A) : option A :=
  match f with Val a => Some a | Missing => Some dflt | Null => None end.

(** Truth value of an optional string, integer or number. *)
Definition truthy_str (o : option string) : bool :=
  match o with Some (String _ _) => true | _ => false end.

Definition truthy_int (o : option Z) : bool :=
  match o with Some z => negb (z =? 0) | None => false end.

Definition truthy_num (o : option Q) : bool :=
  match o with Some q => negb (Qeq_bool q 0) | None => false end.

(** [str(x)] of an integer. *)
Definition str_int (z : Z) : string := pretty z.

(** [l[:n]] on a list, for any integer [n]: a negative bound counts from
    the end. *)
Definition slice_to {A} (n : Z) (l : list A) : list A :=
  if 0 <=? n then take (Z.to_nat n) l
  else take (Z.to_nat (Z.of_nat (length l) + n)) l.

(** One entry of a [results] array (search, similar, recommendations). *)
Record SearchItem := {
  r_id : Z;
  r_title : string;
  r_release_date : string;            (* the empty string when missing *)
}.

Record CrewMember := { crew_name : string; crew_job : option string }.

Record CastMember := {
  cast_name : string;
  cast_id : option Z;
  cast_profile_path : option string;
}.

Record CountryReleases := {
  iso_3166_1 : option string;
  release_dates : list (option string);  (* the certification of each entry *)
}.

(** The body of [/movie/{id}?append_to_response=credits,keywords,release_dates]. *)
Record Payload := {
  p_id : option Z;
  p_title : option string;
  p_original_title : option string;
  p_release_date : field string;
  p_overview : field string;
  p_genres : list string;                (* the [name] of each genre *)
  p_crew : list CrewMember;              (* credits.crew *)
  p_cast : list CastMember;              (* credits.cast *)
  p_keywords : list string;              (* keywords.keywords[].name *)
  p_release_dates : list CountryReleases;(* release_dates.results *)
  p_poster_path : option string;
  p_backdrop_path : option string;
  p_runtime : option Z;
  p_vote_average : option Q;
  p_vote_count : option Z;
  p_popularity : option Q;
  p_tagline : field string;
  p_status : option string;
  p_budget : option Z;
  p_revenue : option Z;
  p_imdb_id : option string;
}.

Record Actor := {
  actor_name : string;
  actor_id : option Z;
  actor_profile_path : option string;
  actor_profile_url : option string;
}.

(** The dictionary [_extract_movie_info] returns. *)
Record DetailRecord := {
  tmdb_id : option Z;
  title : option string;
  original_title : option string;
  year : option Z;
  release_date : option string;
  overview : option string;
  genres : list string;
  directors : list string;
  cast : list Actor;
  runtime : option Z;
  rating : option Q;
  vote_average : option Q;
  vote_count : option Z;
  popularity : option Q;
  keywords : list string;
  certification : option string;
  poster_url : option string;
  poster_path : option string;
  backdrop_path : option string;
  tagline : option string;
  status : option string;
  budget : option Z;
  revenue : option Z;
  imdb_id : option string;
}.

(** The keys of a [DetailRecord]. *)
Definition detail_keys : list string :=
  ["tmdb_id"; "title"; "original_title"; "year"; "release_date"; "overview";
   "genres"; "directors"; "cast"; "runtime"; "rating"; "vote_average";
   "vote_count"; "popularity"; "keywords"; "certification"; "poster_url";
   "poster_path"; "backdrop_path"; "tagline"; "status"; "budget"; "revenue";
   "imdb_id"].

(** An input item of the scrapers: [title], [year] and whatever other keys
    the scraper added. *)
Record Movie := {
  m_title : option string;
  m_year : option Z;
  m_other : gmap string string;
}.

(** [{**movie, **details}]: the keys of the record win; what is left of
    the item are its keys that the record does not have. *)
Record Enriched := {
  e_other : gmap string string;
  e_details : DetailRecord;
}.

(** An entry of the candidate list of [build_candidate_pool]. *)
Record Candidate := {
  c_tmdb_id : Z;
  c_title : string;
  c_year : option Z;
}.

(** ** The provider, the client state and the error monad *)

(** How an HTTP call fails at the transport level:
    [requests.exceptions.Timeout], or another
    [requests.exceptions.RequestException] (a connection error). *)
Inductive transport_failure :=
  | Timeout
  | ConnectionError.

(** The exceptions that occur in the client.  [MovieNotFoundError] and
    [TMDBAPIError] both derive from [TMDBError] and neither derives from
    the other; [RetryError] is tenacity's. *)
Inductive exn :=
  | RequestException (f : transport_failure)
  | TMDBAPIError
  | MovieNotFoundError
  | RetryError
  | ValueError.

Definition is_RequestException (e : exn) : bool :=
  match e with RequestException _ => true | _ => false end.

Record Request := {
  endpoint : string;
  params : list (string * string);
}.

(** A JSON body: the keys the client reads from it. *)
Record Body := {
  b_results : list SearchItem;           (* [data.get('results', [])] *)
  b_movie : Payload;
}.

(** What [session.get] does: raise a transport exception or hand back a
    response with a status code and a JSON body. *)
Inductive Http :=
  | Fails (f : transport_failure)
  | Response (status_code : Z) (json : Body).

(** The world outside the client.  [net k rq] is the outcome of the
    HTTP call [rq] when [k] calls were made before it; [as_completed]
    is the order in which the futures of a batch are handed back;
    it yields every future once; [int_of_str] is the built-in [int] on a
    string, [None] standing for [ValueError]. *)
Record Env := {
  net : nat -> Request -> Http;
  as_completed : forall A : Type, list A -> list A;
  as_completed_perm : forall (A : Type) (l : list A), as_completed A l ≡ₚ l;
  int_of_str : string -> option Z;
}.

(** [self.cache]: one dictionary; its keys start with [search:] or
    [details:], the values under the former are ids or [None] and the
    values under the latter are records, so the two families of entries
    are kept apart here, under their full key strings. *)
Record Cache := {
  ids : gmap string (option Z);
  recs : gmap string DetailRecord;
}.

(** The mutable state of a [TMDBClient], with the HTTP calls and the
    [sleep]s of the retry wrapper recorded. *)
Record Client := {
  cache : option Cache;                  (* [None] if caching is disabled *)
  calls : list Request;                  (* oldest first *)
  sleeps : list Z;                       (* seconds, oldest first *)
}.

(** [Config.ENABLE_CACHE] *)
Definition ENABLE_CACHE : bool := true.

(** [Config.TMDB_IMAGE_BASE_URL] *)
Definition image_base_url : string := "https://image.tmdb.org/t/p/w500".

(** [TMDBClient.__init__] *)
Definition new_client : Client :=
  {| cache := if ENABLE_CACHE
              then Some {| ids := ∅; recs := ∅ |} else None;
     calls := [];
     sleeps := [] |}.

Inductive result (A : Type) : Type :=
  | Ok (a : A)
  | Raise (e : exn).
Arguments Ok {A} a.
Arguments Raise {A} e.

(** A method of the client: it reads and updates the state and returns
    or raises; the state survives an exception. *)
Definition M (A : Type) : Type := Client -> result A * Client.

Definition ret {A} (a : A) : M A := fun st => (Ok a, st).

Definition raise {A} (e : exn) : M A := fun st => (Raise e, st).

Definition bind {A B} (m : M A) (k : A -> M B) : M B :=
  fun st =>
    match m st with
    | (Ok a, st') => k a st'
    | (Raise e, st') => (Raise e, st')
    end.

(** [try: m except ...]: [handler e] is the body of the first [except]
    clause that matches [e], if one does. *)
Definition try_except {A} (m : M A) (handler : exn -> option (M A)) : M A :=
  fun st =>
    match m st with
    | (Raise e, st') =>
        match handler e with
        | Some h => h st'
        | None => (Raise e, st')
        end
    | r => r
    end.

(** Run [m] and hand its outcome back as a value, as a future does. *)
Definition attempt {A} (m : M A) : M (result A) :=
  fun st => let '(r, st') := m st in (Ok r, st').

Declare Scope client_scope.
Delimit Scope client_scope with client.
Notation "x <- m ;; k" := (bind m (fun x => k))
  (at level 100, m at next level, right associativity) : client_scope.
Notation "m ;;; k" := (bind m (fun _ => k))
  (at level 100, right associativity) : client_scope.
Local Open Scope client_scope.

Fixpoint mapM {A B} (f : A -> M B) (l : list A) : M (list B) :=
  match l with
  | [] => ret []
  | a :: l' => b <- f a ;; bs <- mapM f l' ;; ret (b :: bs)
  end.

(** ** The retrying transport *)

(** [time.sleep] inside the retry wrapper. *)
Definition sleep (seconds : Z) : M unit :=
  fun st => (Ok tt, {| cache := cache st; calls := calls st;
                       sleeps := sleeps st ++ [seconds] |}).

(** [tenacity.wait_exponential(multiplier, min, max)] after attempt
    number [attempt_number]:
    [max(max(0, min), min(multiplier * 2 ** (attempt_number - 1), max))]. *)
Definition wait_exponential (multiplier min max : Z) (attempt_number : Z) : Z :=
  Z.max (Z.max 0 min) (Z.min (multiplier * 2 ^ (attempt_number - 1)) max).

(** The loop of [tenacity.retry(stop=stop_after_attempt(n), wait=w,
    retry=retry_if_exception_type(...))]: an attempt that raises an
    exception of the retried type is repeated after a sleep, unless it
    was attempt number [n], in which case [RetryError] is raised; every
    other exception and every value goes to the caller at once.
    [left] is [n] minus the attempt number. *)
Fixpoint retry_loop {A} (left : nat) (attempt_number : Z)
    (wait : Z -> Z) (retry_if : exn -> bool) (f : M A) : M A :=
  fun st =>
    match f st with
    | (Raise e, st') =>
        if retry_if e then
          match left with
          | O => (Raise RetryError, st')
          | S left' =>
              (sleep (wait attempt_number) ;;;
               retry_loop left' (attempt_number + 1) wait retry_if f) st'
          end
        else (Raise e, st')
    | r => r
    end.

Definition retry {A} (stop_after_attempt : nat) (wait : Z -> Z)
    (retry_if : exn -> bool) (f : M A) : M A :=
  retry_loop (stop_after_attempt - 1) 1 wait retry_if f.

(** The state after one more HTTP call. *)
Definition log_call (rq : Request) (st : Client) : Client :=
  {| cache := cache st; calls := calls st ++ [rq]; sleeps := sleeps st |}.

(** [self.session.get(url, params=params, timeout=...)] *)
Definition session_get (E : Env) (endpoint : string)
    (params : list (string * string)) : M (Z * Body) :=
  fun st =>
    let rq := {| endpoint := endpoint; params := params |} in
    match net E (length (calls st)) rq with
    | Fails f => (Raise (RequestException f), log_call rq st)
    | Response code body => (Ok (code, body), log_call rq st)
    end.

(** [_wait_for_rate_limit] only delays the caller: it sleeps until 0.1 s
    have passed since the previous request.  Wall-clock time is not part
    of the model, so this delay is not recorded: [sleeps] holds the waits
    of the retry policy only. *)
Definition _wait_for_rate_limit : M unit := ret tt.

(** The body of [_make_request], without its decorator. *)
Definition _make_request_body (E : Env) (endpoint : string)
    (params : list (string * string)) : M Body :=
  _wait_for_rate_limit ;;;
  try_except
    (response <- session_get E endpoint params ;;
     let '(status_code, json) := response in
     if status_code =? 401 then raise TMDBAPIError
     else if status_code =? 404 then raise MovieNotFoundError
     else if status_code =? 429 then raise TMDBAPIError
     else if negb (status_code =? 200) then raise TMDBAPIError
     else ret json)
    (fun e =>
       match e with
       | RequestException Timeout => Some (raise TMDBAPIError)
       | RequestException _ => Some (raise TMDBAPIError)
       | _ => None
       end).

(** [_make_request], under
    [@retry(stop=stop_after_attempt(3),
            wait=wait_exponential(multiplier=1, min=2, max=10),
            retry=retry_if_exception_type(RequestException))]. *)
Definition _make_request (E : Env) (endpoint : string)
    (params : list (string * string)) : M Body :=
  retry 3 (wait_exponential 1 2 10) is_RequestException
    (_make_request_body E endpoint params).

(** ** The cache *)

(** An argument of [_get_cache_key], turned into text by [str]. *)
Inductive key_arg :=
  | KStr (s : string)
  | KInt (z : Z).

Definition str (a : key_arg) : string :=
  match a with KStr s => s | KInt z => str_int z end.

(** ['_'.join(...)] *)
Fixpoint join_underscore (l : list string) : string :=
  match l with
  | [] => ""
  | [s] => s
  | s :: l' => s +:+ "_" +:+ join_underscore l'
  end.

(** [f"{prefix}:{'_'.join(str(arg) for arg in args)}"] *)
Definition _get_cache_key (prefix : string) (args : list key_arg) : string :=
  prefix +:+ ":" +:+ join_underscore (str <$> args).

(** [year or 'no_year'] *)
Definition year_or_sentinel (year : option Z) : key_arg :=
  if truthy_int year then KInt (default 0 year) else KStr "no_year".

(** [_get_from_cache] on a [search:] key: [cache.get(key)], which is
    [None] both for a key that is missing and for a key that holds
    [None]. *)
Definition _get_from_cache_id (key : string) : M (option Z) :=
  fun st =>
    match cache st with
    | Some c => (Ok (mjoin (ids c !! key)), st)
    | None => (Ok None, st)
    end.

(** [_get_from_cache] on a [details:] key. *)
Definition _get_from_cache_rec (key : string) : M (option DetailRecord) :=
  fun st =>
    match cache st with
    | Some c => (Ok (recs c !! key), st)
    | None => (Ok None, st)
    end.

(** [_set_in_cache] on a [search:] key. *)
Definition _set_in_cache_id (key : string) (value : option Z) : M unit :=
  fun st =>
    match cache st with
    | Some c =>
        (Ok tt, {| cache := Some {| ids := <[key := value]> (ids c);
                                    recs := recs c |};
                   calls := calls st; sleeps := sleeps st |})
    | None => (Ok tt, st)
    end.

(** [_set_in_cache] on a [details:] key. *)
Definition _set_in_cache_rec (key : string) (value : DetailRecord) : M unit :=
  fun st =>
    match cache st with
    | Some c =>
        (Ok tt, {| cache := Some {| ids := ids c;
                                    recs := <[key := value]> (recs c) |};
                   calls := calls st; sleeps := sleeps st |})
    | None => (Ok tt, st)
    end.

(** ** Title resolution *)

(** Length of a longest common subsequence. *)
Fixpoint lcs (s t : string) : nat :=
  match s with
  | EmptyString => O
  | String a s' =>
      (fix inner (t : string) : nat :=
         match t with
         | EmptyString => O
         | String b t' =>
             if Ascii.eqb a b then S (lcs s' t')
             else Nat.max (lcs s' t) (inner t')
         end) t
  end.

(** [rapidfuzz.fuzz.ratio]: the normalised Indel similarity,
    [100 * 2 * lcs / (len(s) + len(t))], and 100 for two empty strings,
    as an exact rational.  (The library returns a double: two scores that
    are equal here can differ in the last bit there.) *)
Definition fuzz_ratio (s t : string) : Q :=
  match (String.length s + String.length t)%nat with
  | O => 100
  | S n => Qmake (200 * Z.of_nat (lcs s t)) (Pos.of_succ_nat n)
  end.

(** One round of the loop of [_fuzzy_match_title]. *)
Definition fuzzy_step (normalized_search : string) (year : option Z)
    (threshold : Q) (acc : option Z * Q) (result : SearchItem)
    : option Z * Q :=
  let '(best_match, best_score) := acc in
  let normalized_result := _normalize_title (r_title result) in
  let score := fuzz_ratio normalized_search normalized_result in
  let score :=
    if truthy_int year then
      let result_year := Str.take 4 (r_release_date result) in
      if truthy_str (Some result_year)
         && String.eqb (str_int (default 0 year)) result_year
      then (score + 15)%Q else score
    else score in
  if negb (Qle_bool score best_score) && Qle_bool threshold score
  then (Some (r_id result), score)
  else (best_match, best_score).

Definition _fuzzy_match_title (search_title : string)
    (results : list SearchItem) (year : option Z) (threshold : Q)
    : option Z :=
  match results with
  | [] => None
  | _ =>
      let normalized_search := _normalize_title search_title in
      fst (foldl (fuzzy_step normalized_search year threshold)
                 (None, 0%Q) (slice_to 10 results))
  end.

(** [data.get('results', [])] of a search. *)
Definition search_request (E : Env) (title : string) (year : option Z)
    : M (list SearchItem) :=
  data <- _make_request E "/search/movie"
            (("query", title) ::
             if truthy_int year
             then [("year", str_int (default 0 year))] else []) ;;
  ret (b_results data).

Definition search_movie (E : Env) (title : string) (year : option Z)
    : M (option Z) :=
  let cache_key := _get_cache_key "search" [KStr title; year_or_sentinel year] in
  cached_id <- _get_from_cache_id cache_key ;;
  match cached_id with
  | Some id => ret (Some id)
  | None =>
    (* [self._set_in_cache(cache_key, id); return id] *)
    let found (id : option Z) : M (option Z) :=
      _set_in_cache_id cache_key id ;;; ret id in
    try_except
      (results <- search_request E title year ;;
       let after_exact : M (option Z) :=
         (* Strategy 2: try without year and use fuzzy matching *)
         results_no_year <-
           (if truthy_int year
            then l <- search_request E title None ;; ret (Some l)
            else ret None) ;;
         let fuzzy2 :=
           match results_no_year with
           | Some l => _fuzzy_match_title title l year 85
           | None => None
           end in
         if truthy_int fuzzy2 then found fuzzy2
         else
           match results with
           | first :: _ =>
               (* Strategy 3: fuzzy matching on the original results *)
               let fuzzy3 := _fuzzy_match_title title results year 85 in
               if truthy_int fuzzy3 then found fuzzy3
               else (* last resort: the first result *)
                 found (Some (r_id first))
           | [] =>
               (* Strategy 4: lower threshold *)
               let fuzzy4 :=
                 if truthy_int year
                 then _fuzzy_match_title title
                        (default results results_no_year) year 75
                 else None in
               if truthy_int fuzzy4 then found fuzzy4
               else (* no match found *)
                 found None
           end in
       (* Strategy 1: exact match with year *)
       match results with
       | first :: _ =>
           if truthy_int year
              && String.eqb (Str.take 4 (r_release_date first))
                            (str_int (default 0 year))
           then found (Some (r_id first))
           else after_exact
       | [] => after_exact
       end)
      (fun e => match e with TMDBAPIError => Some (ret None) | _ => None end)
  end.

(** ** Detail extraction *)

Definition digit_val (c : ascii) : option Z :=
  if Str.is_digit c then Some (Z.of_N (Str.code c) - 48) else None.

(** The regex alternatives of [datetime.strptime]'s directives, each
    giving the value read and the rest of the text, in the order the
    regex engine tries them. *)

(** [%Y]: [\d\d\d\d] *)
Definition parse_Y (s : string) : list (Z * string) :=
  match s with
  | String a (String b (String c (String d rest))) =>
      match digit_val a, digit_val b, digit_val c, digit_val d with
      | Some a, Some b, Some c, Some d =>
          [(1000 * a + 100 * b + 10 * c + d, rest)]
      | _, _, _, _ => []
      end
  | _ => []
  end.

(** Two characters [a b] with [pa a] and [pb b], read as a number. *)
Definition two_chars (pa pb : ascii -> bool) (s : string) : list (Z * string) :=
  match s with
  | String a (String b rest) =>
      match digit_val a, digit_val b with
      | Some x, Some y =>
          if pa a && pb b then [(10 * x + y, rest)] else []
      | _, _ => []
      end
  | _ => []
  end.

(** One character [a] with [pa a], read as a number. *)
Definition one_char (pa : ascii -> bool) (s : string) : list (Z * string) :=
  match s with
  | String a rest =>
      match digit_val a with
      | Some x => if pa a then [(x, rest)] else []
      | None => []
      end
  | _ => []
  end.

Definition ch (lo hi : N) : ascii -> bool := Str.in_range lo hi.

(** [%m]: [1[0-2]|0[1-9]|[1-9]] *)
Definition parse_m (s : string) : list (Z * string) :=
  two_chars (ch 49 49) (ch 48 50) s
  ++ two_chars (ch 48 48) (ch 49 57) s
  ++ one_char (ch 49 57) s.

(** [%d]: [3[0-1]|[1-2]\d|0[1-9]|[1-9]| [1-9]] *)
Definition parse_d (s : string) : list (Z * string) :=
  two_chars (ch 51 51) (ch 48 49) s
  ++ two_chars (ch 49 50) (ch 48 57) s
  ++ two_chars (ch 48 48) (ch 49 57) s
  ++ one_char (ch 49 57) s
  ++ match s with
     | String " " rest => one_char (ch 49 57) rest
     | _ => []
     end.

(** A literal character of the format. *)
Definition literal (c : ascii) (s : string) : option string :=
  match s with
  | String a rest => if Ascii.eqb a c then Some rest else None
  | EmptyString => None
  end.

(** The first of the candidates [l] from which [k] goes through: the
    regex engine backtracks into the next alternative when the rest of the
    pattern fails. *)
Fixpoint first_of {A B} (l : list A) (k : A -> option B) : option B :=
  match l with
  | [] => None
  | a :: l' => match k a with Some b => Some b | None => first_of l' k end
  end.

(** The match of the regex of ['%Y-%m-%d'] at the start of [s]: year,
    month, day and what is left of [s]. *)
Definition match_ymd (s : string) : option (Z * Z * Z * string) :=
  first_of (parse_Y s) (fun '(y, s1) =>
    s2 ← literal "-" s1;
    first_of (parse_m s2) (fun '(m, s3) =>
      s4 ← literal "-" s3;
      first_of (parse_d s4) (fun '(d, s5) => Some (y, m, d, s5)))).

Definition is_leap (y : Z) : bool :=
  (y mod 4 =? 0) && (negb (y mod 100 =? 0) || (y mod 400 =? 0)).

Definition days_in_month (y m : Z) : Z :=
  if m =? 2 then (if is_leap y then 29 else 28)
  else if (m =? 4) || (m =? 6) || (m =? 9) || (m =? 11) then 30
  else 31.

(** [datetime.date(y, m, d)] exists. *)
Definition valid_date (y m d : Z) : bool :=
  (1 <=? y) && (y <=? 9999) && (1 <=? m) && (m <=? 12)
  && (1 <=? d) && (d <=? days_in_month y m).

(** [datetime.strptime(s, '%Y-%m-%d')]: [None] stands for [ValueError]
    (no match, text left over after the match, or no such date). *)
Definition strptime_ymd (s : string) : option (Z * Z * Z) :=
  match match_ymd s with
  | Some (y, m, d, EmptyString) =>
      if valid_date y m d then Some (y, m, d) else None
  | _ => None
  end.

(** The certification of the first [US] entry: the last non-empty one
    of its release dates. *)
Definition us_certification (results : list CountryReleases) : option string :=
  match List.find (fun country_data =>
           bool_decide (iso_3166_1 country_data = Some "US")) results with
  | Some country_data =>
      mjoin (List.find truthy_str (reverse (release_dates country_data)))
  | None => None
  end.

Definition actor_data (person : CastMember) : Actor :=
  {| actor_name := cast_name person;
     actor_id := cast_id person;
     actor_profile_path := cast_profile_path person;
     actor_profile_url :=
       if truthy_str (cast_profile_path person)
       then Some (image_base_url +:+ default "" (cast_profile_path person))
       else None |}.

Definition _extract_movie_info (movie_data : Payload) : DetailRecord :=
  let genres := p_genres movie_data in
  let directors :=
    crew_name <$>
      List.filter (fun person =>
        bool_decide (crew_job person = Some "Director")) (p_crew movie_data) in
  let main_cast := actor_data <$> slice_to 5 (p_cast movie_data) in
  let keywords := p_keywords movie_data in
  let certification := us_certification (p_release_dates movie_data) in
  let poster_path := p_poster_path movie_data in
  let poster_url :=
    if truthy_str poster_path
    then Some (image_base_url +:+ default "" poster_path) else None in
  let release_date := get_or "" (p_release_date movie_data) in
  let release_year :=
    if truthy_str release_date
    then match strptime_ymd (default "" release_date) with
         | Some (y, _, _) => Some y
         | None => None                    (* [except ValueError: pass] *)
         end
    else None in
  {| tmdb_id := p_id movie_data;
     title := p_title movie_data;
     original_title := p_original_title movie_data;
     year := release_year;
     release_date := release_date;
     overview := get_or "" (p_overview movie_data);
     genres := genres;
     directors := directors;
     cast := main_cast;
     runtime := p_runtime movie_data;
     rating := p_vote_average movie_data;
     vote_average := p_vote_average movie_data;
     vote_count := p_vote_count movie_data;
     popularity := p_popularity movie_data;
     keywords := keywords;
     certification := certification;
     poster_url := poster_url;
     poster_path := poster_path;
     backdrop_path := p_backdrop_path movie_data;
     tagline := get_or "" (p_tagline movie_data);
     status := p_status movie_data;
     budget := p_budget movie_data;
     revenue := p_revenue movie_data;
     imdb_id := p_imdb_id movie_data |}.

(** ** Detail retrieval and enrichment *)

Definition tmdb_errors (A : Type) (dflt : A) (e : exn) : option (M A) :=
  match e with
  | TMDBAPIError | MovieNotFoundError => Some (ret dflt)
  | _ => None
  end.

Definition get_movie_details (E : Env) (movie_id : Z) : M (option DetailRecord) :=
  let cache_key := _get_cache_key "details" [KInt movie_id] in
  cached_details <- _get_from_cache_rec cache_key ;;
  match cached_details with
  | Some details => ret (Some details)
  | None =>
      try_except
        (movie_data <- _make_request E ("/movie/" +:+ str_int movie_id)
                         [("append_to_response",
                           "credits,keywords,release_dates")] ;;
         let details := _extract_movie_info (b_movie movie_data) in
         _set_in_cache_rec cache_key details ;;;
         ret (Some details))
        (tmdb_errors _ None)
  end.

(** [{**movie, **details}] *)
Definition merge (movie : Movie) (details : DetailRecord) : Enriched :=
  {| e_other := filter (fun kv => kv.1 ∉ detail_keys) (m_other movie);
     e_details := details |}.

Definition enrich_movie (E : Env) (movie : Movie) : M (option Enriched) :=
  let title := m_title movie in
  let year := m_year movie in
  if negb (truthy_str title) then ret None
  else
    movie_id <- search_movie E (default "" title) year ;;
    if negb (truthy_int movie_id) then ret None
    else
      details <- get_movie_details E (default 0 movie_id) ;;
      match details with
      | None => ret None
      | Some details => ret (Some (merge movie details))
      end.

(** [range(0, total, step)]: [ValueError] for a zero step. *)
Definition range_step (total : nat) (step : Z) : result (list nat) :=
  if step =? 0 then Raise ValueError
  else if step <? 0 then Ok []
  else
    let step := Z.to_nat step in
    Ok ((fun k => (k * step)%nat)
          <$> seq 0 ((total + step - 1) `div` step)%nat).

(** [l[batch_start:min(batch_start + batch_size, total)]] *)
Definition batch_at {A} (l : list A) (batch_size : Z) (batch_start : nat)
    : list A :=
  take (Z.to_nat batch_size) (drop batch_start l).

(** The futures of a list of items: each task is run (here one after
    the other, in the order of submission; the thread pool may run them
    at the same time, and tasks that share a cache key can then both miss
    it) and its value or exception is kept with the item it was submitted
    for. *)
Definition submit_all {A B} (task : A -> M B) (items : list A)
    : M (list (A * result B)) :=
  mapM (fun item => r <- attempt (task item) ;; ret (item, r)) items.

(** A batch on the thread pool: every item is submitted, and the futures
    come back in the order of [as_completed]. *)
Definition run_batch {A B} (E : Env) (task : A -> M B) (batch : list A)
    : M (list (A * result B)) :=
  futures <- submit_all task batch ;;
  ret (as_completed E _ futures).

(** The batch loop that [_enrich_movies_parallel] and
    [build_candidate_pool] both write out: for each batch, submit it, wait
    for all its futures, and append what [collect] keeps of them. *)
Fixpoint batch_loop {A B C} (E : Env) (task : A -> M B)
    (collect : list (A * result B) -> list C)
    (items : list A) (batch_size : Z) (starts : list nat)
    (out : list C) : M (list C) :=
  match starts with
  | [] => ret out
  | batch_start :: starts' =>
      completed <- run_batch E task (batch_at items batch_size batch_start) ;;
      batch_loop E task collect items batch_size starts'
        (out ++ collect completed)
  end.

(** What the collecting loop of [_enrich_movies_parallel] keeps of one
    future. *)
Definition keep_enriched (future : Movie * result (option Enriched))
    : option Enriched :=
  match future.2 with
  | Ok (Some enriched) => Some enriched
  | Ok None => None
  | Raise _ => None                       (* [except Exception] *)
  end.

Definition collect_enriched
    (completed : list (Movie * result (option Enriched))) : list Enriched :=
  omap keep_enriched completed.

Definition _enrich_movies_parallel (E : Env) (movies : list Movie)
    (batch_size : Z) : M (list Enriched) :=
  match range_step (length movies) batch_size with
  | Raise e => raise e
  | Ok starts =>
      batch_loop E (enrich_movie E) collect_enriched movies batch_size
        starts []
  end.

(** The sequential loop of [enrich_movies]. *)
Fixpoint enrich_sequential (E : Env) (movies : list Movie)
    (enriched_movies : list Enriched) : M (list Enriched) :=
  match movies with
  | [] => ret enriched_movies
  | movie :: movies' =>
      enriched <- enrich_movie E movie ;;
      enrich_sequential E movies'
        (match enriched with
         | Some enriched => enriched_movies ++ [enriched]
         | None => enriched_movies
         end)
  end.

(** [enrich_movies(movies, parallel=..., batch_size=...)] *)
Definition enrich_movies (E : Env) (movies : list Movie)
    (parallel : bool) (batch_size : Z) : M (list Enriched) :=
  let total := length movies in
  if parallel && (1 <? total)%nat
  then _enrich_movies_parallel E movies batch_size
  else enrich_sequential E movies [].

(** ** Neighbours and the candidate pool *)

(** The dictionary built for one neighbour:
    [int(movie['release_date'][:4]) if movie.get('release_date') else None]
    is its year. *)
Definition neighbour (E : Env) (movie : SearchItem) : M Candidate :=
  year <- (if truthy_str (Some (r_release_date movie))
           then match int_of_str E (Str.take 4 (r_release_date movie)) with
                | Some y => ret (Some y)
                | None => raise ValueError
                end
           else ret None) ;;
  ret {| c_tmdb_id := r_id movie; c_title := r_title movie; c_year := year |}.

Definition neighbours (E : Env) (endpoint : string) (max_results : Z)
    : M (list Candidate) :=
  try_except
    (data <- _make_request E endpoint [] ;;
     let results := slice_to max_results (b_results data) in
     mapM (neighbour E) results)
    (tmdb_errors _ []).

Definition get_similar_movies (E : Env) (movie_id max_results : Z)
    : M (list Candidate) :=
  neighbours E ("/movie/" +:+ str_int movie_id +:+ "/similar") max_results.

Definition get_movie_recommendations (E : Env) (movie_id max_results : Z)
    : M (list Candidate) :=
  neighbours E ("/movie/" +:+ str_int movie_id +:+ "/recommendations")
    max_results.

(** [{movie.get('tmdb_id') for movie in watched_movies if movie.get('tmdb_id')}] *)
Definition watched_ids (watched_movies : list Enriched) : gset Z :=
  list_to_set
    (omap (fun movie =>
             let id := tmdb_id (e_details movie) in
             if truthy_int id then id else None) watched_movies).

(** The two accumulators of the seed loop. *)
Definition Pool : Type := gset Z * list Candidate.

(** [for sim in similar: if sim['tmdb_id'] not in watched_ids and
    sim['tmdb_id'] not in candidate_ids: ...] *)
Definition add_candidates (watched : gset Z) (found : list Candidate)
    (acc : Pool) : Pool :=
  foldl (fun (acc : Pool) c =>
           let '(candidate_ids, candidate_movies) := acc in
           if bool_decide (c_tmdb_id c ∉ watched)
              && bool_decide (c_tmdb_id c ∉ candidate_ids)
           then ({[c_tmdb_id c]} ∪ candidate_ids,
                 candidate_movies ++ [c])
           else (candidate_ids, candidate_movies))
        acc found.

(** The loop over the watched movies, with its [continue] and [break]. *)
Fixpoint seed_loop (E : Env) (watched : gset Z)
    (candidates_per_movie max_candidates : Z)
    (watched_movies : list Enriched) (acc : Pool) : M Pool :=
  match watched_movies with
  | [] => ret acc
  | movie :: rest =>
      let movie_id := tmdb_id (e_details movie) in
      if negb (truthy_int movie_id)
      then seed_loop E watched candidates_per_movie max_candidates rest acc
      else
        let movie_id := default 0 movie_id in
        similar <- get_similar_movies E movie_id (candidates_per_movie `div` 2) ;;
        let acc := add_candidates watched similar acc in
        recs <- get_movie_recommendations E movie_id
                  (candidates_per_movie `div` 2) ;;
        let acc := add_candidates watched recs acc in
        if Z.of_nat (length acc.2) >=? max_candidates
        then ret acc
        else seed_loop E watched candidates_per_movie max_candidates rest acc
  end.

(** [if min_rating and min_rating > 0] *)
Definition rating_filter_on (min_rating : option Q) : bool :=
  truthy_num min_rating
  && negb (Qle_bool (default 0%Q min_rating) 0).

(** [if movie_rating and movie_rating >= min_rating] *)
Definition rating_ok (min_rating : option Q) (details : DetailRecord) : bool :=
  let movie_rating := rating details in
  truthy_num movie_rating
  && Qle_bool (default 0%Q min_rating) (default 0%Q movie_rating).

(** What the collecting loop of [build_candidate_pool] keeps of one
    future. *)
Definition keep_candidate (min_rating : option Q)
    (future : Candidate * result (option DetailRecord))
    : option DetailRecord :=
  match future.2 with
  | Ok (Some details) =>
      if rating_filter_on min_rating
      then if rating_ok min_rating details then Some details else None
      else Some details
  | Ok None => None
  | Raise _ => None                       (* [except Exception] *)
  end.

Definition collect_candidates (min_rating : option Q)
    (completed : list (Candidate * result (option DetailRecord)))
    : list DetailRecord :=
  omap (keep_candidate min_rating) completed.

(** The candidates gathered from the seeds, cut to [max_candidates]. *)
Definition gather_candidates (E : Env) (watched_movies : list Enriched)
    (candidates_per_movie max_candidates : Z) : M (list Candidate) :=
  acc <- seed_loop E (watched_ids watched_movies)
           candidates_per_movie max_candidates watched_movies (∅, []) ;;
  ret (slice_to max_candidates acc.2).

(** [build_candidate_pool(watched_movies, candidates_per_movie,
    max_candidates, min_rating)]; its batch size is the constant 10. *)
Definition build_candidate_pool (E : Env) (watched_movies : list Enriched)
    (candidates_per_movie max_candidates : Z) (min_rating : option Q)
    : M (list DetailRecord) :=
  candidate_movies <- gather_candidates E watched_movies
                        candidates_per_movie max_candidates ;;
  match range_step (length candidate_movies) 10 with
  | Raise e => raise e
  | Ok starts =>
      batch_loop E (fun candidate => get_movie_details E (c_tmdb_id candidate))
        (collect_candidates min_rating) candidate_movies 10 starts []
  end.

(** ** The cache, seen from outside *)

(** [len(self.cache)]: the number of keys of the dictionary. *)
Definition cache_len (c : Cache) : nat :=
  size (dom (ids c) ∪ dom (recs c) : gset string).

(** [clear_cache] *)
Definition clear_cache : M unit :=
  fun st =>
    match cache st with
    | Some _ =>
        (Ok tt, {| cache := Some {| ids := ∅; recs := ∅ |};
                   calls := calls st; sleeps := sleeps st |})
    | None => (Ok tt, st)
    end.

(** [get_cache_stats]: the values under ['size'] and ['enabled']. *)
Definition get_cache_stats : M (nat * bool) :=
  fun st =>
    match cache st with
    | Some c => (Ok (cache_len c, true), st)
    | None => (Ok (0%nat, false), st)
    end.

(** ** Discovery *)

(** [','.join(...)] *)
Fixpoint join_comma (l : list string) : string :=
  match l with
  | [] => ""
  | [s] => s
  | s :: l' => s +:+ "," +:+ join_comma l'
  end.

(** Truth value of an optional list. *)
Definition truthy_list {A} (o : option (list A)) : bool :=
  match o with Some (_ :: _) => true | _ => false end.

Section discover.

(** The text of a float in a query string ([str] of the float). *)
Variable str_float : Q -> string.

(** The [params] dictionary of [discover_movies], in insertion order. *)
Definition discover_params (genres keywords : option (list Z))
    (min_year max_year : option Z) (min_rating : option Q)
    : list (string * string) :=
  [("sort_by", "vote_count.desc")]
  ++ (if truthy_list genres
      then [("with_genres", join_comma (str_int <$> default [] genres))]
      else [])
  ++ (if truthy_list keywords
      then [("with_keywords", join_comma (str_int <$> default [] keywords))]
      else [])
  ++ (if truthy_int min_year
      then [("primary_release_date.gte",
             str_int (default 0 min_year) +:+ "-01-01")]
      else [])
  ++ (if truthy_int max_year
      then [("primary_release_date.lte",
             str_int (default 0 max_year) +:+ "-12-31")]
      else [])
  ++ (if truthy_num min_rating
      then [("vote_average.gte", str_float (default 0%Q min_rating))]
      else []).

Definition discover_movies (E : Env) (genres keywords : option (list Z))
    (min_year max_year : option Z) (min_rating : option Q) (max_results : Z)
    : M (list Candidate) :=
  let params :=
    discover_params genres keywords min_year max_year min_rating in
  try_except
    (data <- _make_request E "/discover/movie" params ;;
     let results := slice_to max_results (b_results data) in
     mapM (neighbour E) results)
    (fun e => match e with TMDBAPIError => Some (ret []) | _ => None end).

End discover.

(** ** Fresh recommendations for two profiles ([generate_fresh_recommendations]
    of app.py)

    [profiles] is a list whose first two entries the function indexes:
    they are the arguments [profile1] and [profile2] here, and [others]
    is the rest.  The [comparator] is an object handed to the function;
    its method is the argument [get_seed_movies_for_recommendations]. *)

(** A movie of a profile. *)
Record ProfileMovie := {
  pm_title : string;
  pm_rating : option Q;
  pm_tmdb_id : option Z;
}.

(** A seed, as the comparator returns it (its [average_rating] is not
    read here). *)
Record Seed := { seed_title : string; seed_tmdb_id : Z }.

(** An entry of [similar_movies_map]. *)
Record Similar := {
  s_tmdb_id : Z;
  s_title : string;
  s_year : option Z;
  s_count : Z;
}.

(** An entry of the list that is returned; its [year] is the text
    [release_date[:4]] or the year of the similar-movies entry. *)
Record Fresh := {
  f_title : option string;
  f_year : string + option Z;
  f_poster_path : option string;
  f_genres : list string;
  f_overview : option string;
  f_vote_average : option Q;
  f_similarity_score : Z;
}.

(** [{m['title']: m for m in movies}]: a later movie of the same title
    replaces an earlier one. *)
Definition by_title (movies : list ProfileMovie) : gmap string ProfileMovie :=
  foldl (fun d m => <[pm_title m := m]> d) ∅ movies.

(** [similar_movies_map], a dictionary in insertion order: a new id is
    added at the end with the count 1, a known id gets its count
    raised. *)
Fixpoint count_similar (movie : Candidate) (map : list Similar)
    : list Similar :=
  match map with
  | [] =>
      [ {| s_tmdb_id := c_tmdb_id movie; s_title := c_title movie;
           s_year := c_year movie; s_count := 1 |} ]
  | entry :: map' =>
      if s_tmdb_id entry =? c_tmdb_id movie
      then {| s_tmdb_id := s_tmdb_id entry; s_title := s_title entry;
              s_year := s_year entry; s_count := s_count entry + 1 |} :: map'
      else entry :: count_similar movie map'
  end.

(** [for movie in similar: if title in all_watched_titles: continue ...] *)
Definition add_similar (all_watched_titles : gset string)
    (similar : list Candidate) (map : list Similar) : list Similar :=
  foldl (fun map movie =>
           if bool_decide (c_title movie ∈ all_watched_titles) then map
           else count_similar movie map)
        map similar.

(** The loop over the seeds; [except Exception: continue]. *)
Fixpoint collect_similar (E : Env) (all_watched_titles : gset string)
    (seed_movies : list Seed) (map : list Similar) : M (list Similar) :=
  match seed_movies with
  | [] => ret map
  | seed :: seed_movies' =>
      map <- try_except
               (similar <- get_similar_movies E (seed_tmdb_id seed) 10 ;;
                ret (add_similar all_watched_titles similar map))
               (fun _ => Some (ret map)) ;;
      collect_similar E all_watched_titles seed_movies' map
  end.

(** [recommendations.sort(key=lambda x: x['count'], reverse=True)]: a
    stable sort, entries of equal count keep their order. *)
Fixpoint insert_by_count (x : Similar) (l : list Similar) : list Similar :=
  match l with
  | [] => [x]
  | y :: l' =>
      if s_count y <? s_count x then x :: y :: l'
      else y :: insert_by_count x l'
  end.

Definition sort_by_count (l : list Similar) : list Similar :=
  foldl (fun sorted x => insert_by_count x sorted) [] l.

(** The entry for a recommendation without its details. *)
Definition basic_info (rec : Similar) : Fresh :=
  {| f_title := Some (s_title rec); f_year := inr (s_year rec);
     f_poster_path := None; f_genres := []; f_overview := Some "";
     f_vote_average := Some 0%Q; f_similarity_score := s_count rec |}.

(** The entry for a recommendation with its details. *)
Definition detailed_info (rec : Similar) (details : DetailRecord) : Fresh :=
  {| f_title := title details;
     f_year :=
       if truthy_str (release_date details)
       then inl (Str.take 4 (default "" (release_date details)))
       else inr (s_year rec);
     f_poster_path := poster_path details;
     f_genres := genres details;
     f_overview := overview details;
     f_vote_average := vote_average details;
     f_similarity_score := s_count rec |}.

(** One round of the loop over [top_recs].  When [get_movie_details]
    returns [None], [details.get] raises [AttributeError], which the
    [except Exception] clause turns into the basic entry, as it does
    every exception of the call. *)
Definition enrich_recommendation (E : Env) (rec : Similar) : M Fresh :=
  try_except
    (details <- get_movie_details E (s_tmdb_id rec) ;;
     match details with
     | Some details => ret (detailed_info rec details)
     | None => ret (basic_info rec)
     end)
    (fun _ => Some (ret (basic_info rec))).

Definition generate_fresh_recommendations
    (get_seed_movies_for_recommendations :
       gmap string ProfileMovie -> gmap string ProfileMovie ->
       gset string -> list Seed)
    (E : Env) (profile1 profile2 : list ProfileMovie)
    (others : list (list ProfileMovie)) (max_recommendations : Z)
    : M (list Fresh) :=
  let all_watched_titles : gset string :=
    list_to_set (pm_title <$> concat (profile1 :: profile2 :: others)) in
  let movies1 := by_title profile1 in
  let movies2 := by_title profile2 in
  let shared_titles : gset string := dom movies1 ∩ dom movies2 in
  let seed_movies :=
    get_seed_movies_for_recommendations movies1 movies2 shared_titles in
  match seed_movies with
  | [] => ret []
  | _ =>
      similar_movies_map <-
        collect_similar E all_watched_titles seed_movies [] ;;
      let recommendations := sort_by_count similar_movies_map in
      let top_recs := slice_to max_recommendations recommendations in
      mapM (enrich_recommendation E) top_recs
  end.

(** ** Vocabulary of the statements *)

(** *** Normalised titles *)

Definition alnum (c : ascii) : bool := Str.is_az c || Str.is_digit c.

(** A word of a normalised title: not empty, letters [a-z] and digits only. *)
Definition word (w : string) : Prop :=
  w <> "" /\ Str.forallb alnum w = true.

Definition clean_char (c : ascii) : bool := alnum c || Ascii.eqb c " ".

(** *** Requests and what the transport makes of their outcome *)

Definition request_of (endpoint : string) (params : list (string * string))
    : Request :=
  {| endpoint := endpoint; params := params |}.

(** The outcome of [_make_request] for an HTTP outcome [h]. *)
Definition classify (h : Http) : result Body :=
  match h with
  | Fails _ => Raise TMDBAPIError
  | Response status_code json =>
      if status_code =? 401 then Raise TMDBAPIError
      else if status_code =? 404 then Raise MovieNotFoundError
      else if status_code =? 429 then Raise TMDBAPIError
      else if negb (status_code =? 200) then Raise TMDBAPIError
      else Ok json
  end.

(** [wp m Q st]: running [m] in [st] ends in an outcome and a state that
    satisfy [Q]. *)
Definition wp {A} (m : M A) (Q : result A -> Client -> Prop) (st : Client)
    : Prop :=
  Q (m st).1 (m st).2.

(** [st'] comes after [st]: the calls of [st] followed by [more], and the
    same sleeps. *)
Definition extends (st : Client) (more : list Request) (st' : Client) : Prop :=
  calls st' = calls st ++ more /\ sleeps st' = sleeps st.

(** *** The search entries of the cache *)

Definition search_key (title : string) (year : option Z) : string :=
  _get_cache_key "search" [KStr title; year_or_sentinel year].

(** The first request of a resolution. *)
Definition search_rq (title : string) (year : option Z) : Request :=
  request_of "/search/movie"
    (("query", title) ::
     if truthy_int year then [("year", str_int (default 0 year))] else []).

(** What a lookup of [key] finds: nothing for a key that is missing and
    nothing for a key that holds [None]. *)
Definition cached_id (key : string) (st : Client) : option Z :=
  match cache st with
  | Some c => mjoin (ids c !! key)
  | None => None
  end.

Definition cache_set_id (key : string) (v : option Z) (c : option Cache)
    : option Cache :=
  match c with
  | Some c => Some {| ids := <[key := v]> (ids c); recs := recs c |}
  | None => None
  end.

(** How a resolution that misses the cache ends. *)
Definition search_miss_post (title : string) (year : option Z) (st : Client)
    (r : result (option Z)) (st' : Client) : Prop :=
  (exists more, extends st (search_rq title year :: more) st')
  /\ ((exists v, r = Ok v
         /\ cache st' = cache_set_id (search_key title year) v (cache st))
      \/ ((r = Ok None \/ r = Raise MovieNotFoundError)
          /\ cache st' = cache st)).

(** *** The detail entries of the cache *)

Definition details_key (movie_id : Z) : string :=
  _get_cache_key "details" [KInt movie_id].

Definition details_rq (movie_id : Z) : Request :=
  request_of ("/movie/" +:+ str_int movie_id)
    [("append_to_response", "credits,keywords,release_dates")].

Definition cached_rec (key : string) (st : Client) : option DetailRecord :=
  match cache st with
  | Some c => recs c !! key
  | None => None
  end.

Definition cache_set_rec (key : string) (d : DetailRecord) (c : option Cache)
    : option Cache :=
  match c with
  | Some c => Some {| ids := ids c; recs := <[key := d]> (recs c) |}
  | None => None
  end.

(** Every record cached for an id is one that [P] accepts for that id. *)
Definition cache_good (P : Z -> DetailRecord -> Prop) (st : Client) : Prop :=
  forall i d, cached_rec (details_key i) st = Some d -> P i d.

(** The cache holds only records that [_extract_movie_info] made, as it
    does in every state the client reaches from [new_client]. *)
Definition cache_from_extraction (st : Client) : Prop :=
  forall key d,
    cached_rec key st = Some d -> exists p, d = _extract_movie_info p.

(** The record cached for an id carries that id. *)
Definition cache_keyed_by_id (st : Client) : Prop :=
  forall i d, cached_rec (details_key i) st = Some d -> tmdb_id d = Some i.

(** The provider answers a details request for an id with the record of
    that id. *)
Definition echoes_id (E : Env) : Prop :=
  forall k i body,
    net E k (details_rq i) = Response 200 body ->
    p_id (b_movie body) = Some i.

(** *** Futures *)

(** The futures of [items], in the order of submission, and the state
    after the last task. *)
Fixpoint futures_of {A B} (task : A -> M B) (items : list A) (st : Client)
    : list (A * result B) * Client :=
  match items with
  | [] => ([], st)
  | item :: items' =>
      let '(r, st1) := task item st in
      let '(futures, st2) := futures_of task items' st1 in
      ((item, r) :: futures, st2)
  end.

(** The number of batches of [range(0, total, step)]. *)
Definition batch_count (total step : nat) : nat :=
  ((total + step - 1) `div` step)%nat.

Definition is_ok {A} (r : result A) : bool :=
  match r with Ok _ => true | Raise _ => false end.

(** What the enrichment of each item yields, the items taken in order. *)
Definition outcomes (E : Env) (movies : list Movie) (st : Client)
    : list (Movie * result (option Enriched)) :=
  (futures_of (enrich_movie E) movies st).1.

(** The details futures of the candidates. *)
Definition details_futures (E : Env) (candidates : list Candidate)
    (st : Client) : list (Candidate * result (option DetailRecord)) * Client :=
  futures_of (fun candidate => get_movie_details E (c_tmdb_id candidate))
    candidates st.

(** The record of a future, if its task returned one. *)
Definition fetched_record (future : Candidate * result (option DetailRecord))
    : option DetailRecord :=
  match future.2 with
  | Ok (Some details) => Some details
  | _ => None
  end.

Definition fetched (futures : list (Candidate * result (option DetailRecord)))
    : list DetailRecord :=
  omap fetched_record futures.

(** *** The seed loop *)

(** The accumulators agree, hold no id twice and no watched id. *)
Definition pool_inv (watched : gset Z) (acc : Pool) : Prop :=
  NoDup (c_tmdb_id <$> acc.2)
  /\ (forall i, i ∈ acc.1 <-> i ∈ c_tmdb_id <$> acc.2)
  /\ (forall i, i ∈ acc.1 -> i ∉ watched).

(** *** Release dates *)

(** The payload [p] with another [release_date]. *)
Definition with_release_date (rd : field string) (p : Payload) : Payload :=
  {| p_id := p_id p; p_title := p_title p;
     p_original_title := p_original_title p;
     p_release_date := rd;
     p_overview := p_overview p; p_genres := p_genres p; p_crew := p_crew p;
     p_cast := p_cast p; p_keywords := p_keywords p;
     p_release_dates := p_release_dates p; p_poster_path := p_poster_path p;
     p_backdrop_path := p_backdrop_path p; p_runtime := p_runtime p;
     p_vote_average := p_vote_average p; p_vote_count := p_vote_count p;
     p_popularity := p_popularity p; p_tagline := p_tagline p;
     p_status := p_status p; p_budget := p_budget p;
     p_revenue := p_revenue p; p_imdb_id := p_imdb_id p |}.

(** The record [d] with another [year] and [release_date]. *)
Definition with_year (y : option Z) (rd : option string) (d : DetailRecord)
    : DetailRecord :=
  {| tmdb_id := tmdb_id d; title := title d;
     original_title := original_title d;
     year := y; release_date := rd;
     overview := overview d; genres := genres d; directors := directors d;
     cast := cast d; runtime := runtime d; rating := rating d;
     vote_average := vote_average d; vote_count := vote_count d;
     popularity := popularity d; keywords := keywords d;
     certification := certification d; poster_url := poster_url d;
     poster_path := poster_path d; backdrop_path := backdrop_path d;
     tagline := tagline d; status := status d; budget := budget d;
     revenue := revenue d; imdb_id := imdb_id d |}.

(** An ISO 8601 calendar date [YYYY-MM-DD]: ten characters, digits
    around two hyphens, naming a date that exists. *)
Definition is_iso_date (s : string) : bool :=
  match s with
  | String y1 (String y2 (String y3 (String y4 (String "-"
      (String m1 (String m2 (String "-"
        (String d1 (String d2 EmptyString))))))))) =>
      match digit_val y1, digit_val y2, digit_val y3, digit_val y4,
            digit_val m1, digit_val m2, digit_val d1, digit_val d2 with
      | Some y1, Some y2, Some y3, Some y4,
        Some m1, Some m2, Some d1, Some d2 =>
          valid_date (1000 * y1 + 100 * y2 + 10 * y3 + y4)
                     (10 * m1 + m2) (10 * d1 + d2)
      | _, _, _, _, _, _, _, _ => false
      end
  | _ => false
  end.

(** [release_date] is missing, null, empty, or not accepted by
    [strptime]. *)
Definition no_parsable_date (rd : field string) : Prop :=
  match get_or "" rd with
  | Some s => s = "" \/ strptime_ymd s = None
  | None => True
  end.

(** ** A small catalogue to run the client on *)

Definition no_payload : Payload :=
  {| p_id := None; p_title := None; p_original_title := None;
     p_release_date := Missing; p_overview := Missing; p_genres := [];
     p_crew := []; p_cast := []; p_keywords := []; p_release_dates := [];
     p_poster_path := None; p_backdrop_path := None; p_runtime := None;
     p_vote_average := None; p_vote_count := None; p_popularity := None;
     p_tagline := Missing; p_status := None; p_budget := None;
     p_revenue := None; p_imdb_id := None |}.

Definition demo_payload (id : Z) (average : option Q) : Payload :=
  {| p_id := Some id; p_title := Some ("Film " +:+ str_int id);
     p_original_title := None;
     p_release_date := Val "1972-03-14"; p_overview := Missing;
     p_genres := ["Drama"];
     p_crew :=
       [ {| crew_name := "F. Coppola"; crew_job := Some "Director" |};
         {| crew_name := "G. Willis";
            crew_job := Some "Director of Photography" |} ];
     p_cast :=
       [ {| cast_name := "M. Brando"; cast_id := Some 3084;
            cast_profile_path := Some "/brando.jpg" |} ];
     p_keywords := [];
     p_release_dates :=
       [ {| iso_3166_1 := Some "US";
            release_dates := [Some "R"; Some ""] |} ];
     p_poster_path := None; p_backdrop_path := None; p_runtime := Some 175;
     p_vote_average := average; p_vote_count := None; p_popularity := None;
     p_tagline := Null; p_status := None; p_budget := None;
     p_revenue := None; p_imdb_id := None |}.

Definition results_body (l : list SearchItem) : Body :=
  {| b_results := l; b_movie := no_payload |}.

Definition movie_body (p : Payload) : Body :=
  {| b_results := []; b_movie := p |}.

Definition item (id : Z) (t date : string) : SearchItem :=
  {| r_id := id; r_title := t; r_release_date := date |}.

(** The films of the catalogue, with their vote averages. *)
Definition catalog : list (Z * option Q) :=
  [(238, Some (87 # 10)%Q); (2, Some (15 # 2)%Q); (3, None);
   (4, Some 0%Q); (6, Some 8%Q)].

(** The provider: it knows "The Godfather" (238) under every spelling
    that normalises alike and "Ghost" (251), whose details it does not
    have; 238 has the neighbours 2, 3 and 4, and 5 has the neighbour 6. *)
Definition demo_net (k : nat) (rq : Request) : Http :=
  let ep := endpoint rq in
  if String.eqb ep "/search/movie" then
    match params rq with
    | (_, query) :: _ =>
        if String.eqb (_normalize_title query) "godfather"
        then Response 200
               (results_body [item 238 "The Godfather" "1972-03-14"])
        else if String.eqb query "Ghost"
        then Response 200 (results_body [item 251 "Ghost" "1990-07-13"])
        else Response 200 (results_body [])
    | [] => Response 200 (results_body [])
    end
  else
    match params rq with
    | [] =>
        if String.eqb ep "/movie/238/similar"
        then Response 200
               (results_body
                  [item 2 "B" ""; item 238 "The Godfather" ""; item 3 "C" ""])
        else if String.eqb ep "/movie/238/recommendations"
        then Response 200 (results_body [item 2 "B" ""; item 4 "D" ""])
        else if String.eqb ep "/movie/5/similar"
        then Response 200 (results_body [item 6 "E" ""])
        else Response 404 (results_body [])
    | _ :: _ =>
        match List.find
                (fun entry =>
                   String.eqb ep ("/movie/" +:+ str_int entry.1)) catalog with
        | Some (id, average) =>
            Response 200 (movie_body (demo_payload id average))
        | None => Response 404 (results_body [])
        end
    end.

(** A world around [net] in which the futures of a batch complete in
    the reverse order of submission. *)
Definition world (net : nat -> Request -> Http) : Env :=
  {| net := net;
     as_completed := fun A l => reverse l;
     as_completed_perm := fun A l => reverse_Permutation l;
     int_of_str := fun _ => None |}.

Definition demo : Env := world demo_net.

(** Every call times out. *)
Definition timeouts : Env := world (fun _ _ => Fails Timeout).

(** The first call times out, the calls after it succeed. *)
Definition flaky : Env :=
  world (fun k _ => if (k =? 0)%nat then Fails Timeout
                    else Response 200 (results_body [])).

(** The provider of the catalogue, except that it answers the search
    for "Ghost" with the status 404. *)
Definition lost_net (k : nat) (rq : Request) : Http :=
  match params rq with
  | (_, query) :: _ =>
      if String.eqb (endpoint rq) "/search/movie" && String.eqb query "Ghost"
      then Response 404 (results_body [])
      else demo_net k rq
  | [] => demo_net k rq
  end.

Definition lost : Env := world lost_net.

Definition watched_film (id : Z) : Enriched :=
  {| e_other := ∅; e_details := _extract_movie_info (demo_payload id None) |}.

Definition demo_watched : list Enriched := [watched_film 238; watched_film 5].

Definition film (t : string) (y : option Z) : Movie :=
  {| m_title := Some t; m_year := y; m_other := ∅ |}.

Definition demo_movies : list Movie :=
  [film "The Godfather" (Some 1972); film "Zzyzx Road" None;
   film "Ghost" (Some 1990)].

(** ** Vocabulary of the further properties *)

(** *** Fuzzy matching *)

(** The score [_fuzzy_match_title] gives a result: the similarity of the
    normalised titles, plus 15 when the release year is the wanted one. *)
Definition fuzzy_score (search_title : string) (year : option Z)
    (result : SearchItem) : Q :=
  let score :=
    fuzz_ratio (_normalize_title search_title)
               (_normalize_title (r_title result)) in
  if truthy_int year
     && (truthy_str (Some (Str.take 4 (r_release_date result)))
         && String.eqb (str_int (default 0 year))
                       (Str.take 4 (r_release_date result)))
  then (score + 15)%Q else score.

(** [result] can be chosen at [threshold]: its score reaches the
    threshold and is above the initial [best_score = 0]. *)
Definition passes (search_title : string) (year : option Z) (threshold : Q)
    (result : SearchItem) : Prop :=
  (threshold <= fuzzy_score search_title year result)%Q
  /\ (0 < fuzzy_score search_title year result)%Q.

(** The state of the loop of [_fuzzy_match_title] after the results [l]:
    nothing chosen and no result of [l] passes, or the first result of
    the highest score is chosen. *)
Definition fuzzy_inv (t : string) (y : option Z) (thr : Q)
    (l : list SearchItem) (acc : option Z * Q) : Prop :=
  match acc.1 with
  | None =>
      acc.2 = 0%Q /\ Forall (fun r => ~ passes t y thr r) l
  | Some id =>
      exists i r,
        l !! i = Some r /\ r_id r = id /\ acc.2 = fuzzy_score t y r
        /\ passes t y thr r
        /\ (forall j r', l !! j = Some r' ->
              (fuzzy_score t y r' <= fuzzy_score t y r)%Q)
        /\ (forall j r', (j < i)%nat -> l !! j = Some r' ->
              (fuzzy_score t y r' < fuzzy_score t y r)%Q)
  end.

(** *** Cache keys *)

(** A character of [str(year)]: a digit or the sign. *)
Definition year_char (c : ascii) : bool := Str.is_digit c || Ascii.eqb c "-".

Definition not_underscore (c : ascii) : bool := negb (Ascii.eqb c "_").

(** *** Certifications *)

(** No entry of [l] is for the United States. *)
Definition no_us_entry (l : list CountryReleases) : Prop :=
  Forall (fun country_data => iso_3166_1 country_data <> Some "US") l.

(** *** What an operation does to the client *)

(** The keys of the cache. *)
Definition cache_dom (st : Client) : gset string :=
  match cache st with
  | Some c => dom (ids c) ∪ dom (recs c)
  | None => ∅
  end.

(** [get_cache_stats()['size']] *)
Definition cache_size (st : Client) : nat := size (cache_dom st).

(** [st'] is reached from [st] by at most [n] HTTP calls and at most [k]
    new cache keys: the log of the waits between retries is unchanged, no
    key is removed, and every identity and every record that a lookup
    finds in [st] is found in [st']. *)
Record grows (n k : nat) (st st' : Client) : Prop := {
  grows_calls :
    exists more, calls st' = calls st ++ more /\ (length more <= n)%nat;
  grows_sleeps : sleeps st' = sleeps st;
  grows_enabled : is_Some (cache st') <-> is_Some (cache st);
  grows_ids : forall key id,
    cached_id key st = Some id -> cached_id key st' = Some id;
  grows_recs : forall key d,
    cached_rec key st = Some d -> cached_rec key st' = Some d;
  grows_dom : cache_dom st ⊆ cache_dom st';
  grows_size : (cache_size st' <= cache_size st + k)%nat;
}.

(** As [grows], but silent about waiting (the delays of the rate limiter
    are wall-clock time, which the client state does not record): [st']
    is reached from [st] by at most [n] HTTP calls and at most [k] new
    cache keys, no key is removed, and every identity and every record
    that a lookup finds in [st] is found in [st']. *)
Record reaches (n k : nat) (st st' : Client) : Prop := {
  reaches_calls :
    exists more, calls st' = calls st ++ more /\ (length more <= n)%nat;
  reaches_enabled : is_Some (cache st') <-> is_Some (cache st);
  reaches_ids : forall key id,
    cached_id key st = Some id -> cached_id key st' = Some id;
  reaches_recs : forall key d,
    cached_rec key st = Some d -> cached_rec key st' = Some d;
  reaches_dom : cache_dom st ⊆ cache_dom st';
  reaches_size : (cache_size st' <= cache_size st + k)%nat;
}.

(** *** Resolution *)

(** The provider listed [id] in a 200 answer to one of the two searches
    of a resolution of [title] and [year]. *)
Definition listed (E : Env) (title : string) (year : option Z) (id : Z)
    : Prop :=
  exists k rq body result,
    (rq = search_rq title year \/ rq = search_rq title None)
    /\ net E k rq = Response 200 body
    /\ result ∈ b_results body
    /\ r_id result = id.

(** How a resolution that misses the cache ends, in full. *)
Definition search_post (E : Env) (title : string) (year : option Z)
    (st : Client) (r : result (option Z)) (st' : Client) : Prop :=
  sleeps st' = sleeps st
  /\ (calls st' = calls st ++ [search_rq title year]
      \/ (truthy_int year = true
          /\ calls st' = calls st ++ [search_rq title year;
                                      search_rq title None]))
  /\ match r with
     | Ok (Some id) =>
         cache st' = cache_set_id (search_key title year) (Some id) (cache st)
         /\ listed E title year id
     | Ok None =>
         cache st' = cache st
         \/ cache st' = cache_set_id (search_key title year) None (cache st)
     | Raise e => e = MovieNotFoundError /\ cache st' = cache st
     end.

(** *** Neighbours *)

(** What a call for neighbours does, for either endpoint. *)
Definition neighbours_spec (E : Env) (ep : string) (max_results : Z)
    (st : Client) (run : result (list Candidate) * Client) : Prop :=
  let answer := net E (length (calls st)) (request_of ep []) in
  run.2 = log_call (request_of ep []) st
  /\ match run.1 with
     | Ok l =>
         (forall body, answer = Response 200 body ->
            c_tmdb_id <$> l = r_id <$> slice_to max_results (b_results body)
            /\ c_tmdb_id <$> l `prefix_of` r_id <$> b_results body)
         /\ ((forall body, answer <> Response 200 body) -> l = [])
         /\ (0 <= max_results -> Z.of_nat (length l) <= max_results)
     | Raise e =>
         e = ValueError
         /\ exists body result,
              answer = Response 200 body
              /\ result ∈ slice_to max_results (b_results body)
              /\ r_release_date result <> ""
              /\ int_of_str E (Str.take 4 (r_release_date result)) = None
     end.

(** *** Where candidates come from *)

(** The provider listed [id] in a 200 answer to the similar-movies or to
    the recommendations request of a watched movie with a non-zero id. *)
Definition neighbour_of (E : Env) (watched : list Enriched) (id : Z) : Prop :=
  exists seed seed_id ep k body result,
    seed ∈ watched
    /\ tmdb_id (e_details seed) = Some seed_id /\ seed_id <> 0
    /\ (ep = "/movie/" +:+ str_int seed_id +:+ "/similar"
        \/ ep = "/movie/" +:+ str_int seed_id +:+ "/recommendations")
    /\ net E k (request_of ep []) = Response 200 body
    /\ result ∈ b_results body
    /\ r_id result = id.

(** *** Fresh recommendations *)

(** Entries of a higher count come first. *)
Definition by_count_desc (a b : Similar) : Prop := s_count b <= s_count a.

(** The entries of [similar_movies_map]: one per id, each counted at
    least once, none with a title that a profile has. *)
Definition similar_inv (all_watched_titles : gset string)
    (map : list Similar) : Prop :=
  NoDup (s_tmdb_id <$> map)
  /\ Forall (fun rec => 1 <= s_count rec
                        /\ s_title rec ∉ all_watched_titles) map.

(** The request for the similar movies of a seed. *)
Definition similar_rq (seed : Seed) : Request :=
  request_of ("/movie/" +:+ str_int (seed_tmdb_id seed) +:+ "/similar") [].

(** What the provider lists for the seeds: the entries that
    [get_similar_movies] returns for them, ten at most for each, the seeds
    being asked one after the other from the state [st]; a seed whose
    call raises gives none. *)
Fixpoint similar_of_seeds (E : Env) (seed_movies : list Seed) (st : Client)
    : list Candidate :=
  match seed_movies with
  | [] => []
  | seed :: seed_movies' =>
      let run := get_similar_movies E (seed_tmdb_id seed) 10 st in
      match run.1 with Ok similar => similar | Raise _ => [] end
      ++ similar_of_seeds E seed_movies' run.2
  end.

(** The listings of the film [id]. *)
Definition listings_of (id : Z) (listings : list Candidate) : list Candidate :=
  filter (fun movie => c_tmdb_id movie = id) listings.

(** The ids of a list, each one kept where it comes first. *)
Definition first_listed (ids : list Z) : list Z :=
  foldl (fun seen id => if bool_decide (id ∈ seen) then seen else seen ++ [id])
        [] ids.

(** [map] is the tally of [listings]: one entry for each film listed, in
    the order in which the films are listed first, with the title and
    the year of the first listing of the film and the number of its
    listings as count. *)
Definition tally_of (listings : list Candidate) (map : list Similar) : Prop :=
  s_tmdb_id <$> map = first_listed (c_tmdb_id <$> listings)
  /\ Forall (fun rec =>
               s_count rec
               = Z.of_nat (length (listings_of (s_tmdb_id rec) listings))
               /\ exists first,
                    head (listings_of (s_tmdb_id rec) listings) = Some first
                    /\ s_title rec = c_title first
                    /\ s_year rec = c_year first)
            map.

(** [ranked] is [map] sorted by count, the higher counts first, entries
    of the same count staying in the order they have in [map]. *)
Definition ranking_of (map ranked : list Similar) : Prop :=
  ranked ≡ₚ map
  /\ StronglySorted by_count_desc ranked
  /\ forall n, filter (fun rec => s_count rec = n) ranked
               = filter (fun rec => s_count rec = n) map.

(** [out] holds the entries for [recs], made one after the other from
    the state [st] and leaving the state [st']: the entry of a film is
    built from the details that [get_movie_details] returns for its id,
    and is the basic entry when it returns none. *)
Inductive enriched_from (E : Env)
    : Client -> list Similar -> list Fresh -> Client -> Prop :=
  | enriched_nil st : enriched_from E st [] [] st
  | enriched_cons st rec recs fresh out st' :
      fresh = match (get_movie_details E (s_tmdb_id rec) st).1 with
              | Ok (Some details) => detailed_info rec details
              | _ => basic_info rec
              end ->
      enriched_from E (get_movie_details E (s_tmdb_id rec) st).2 recs out st' ->
      enriched_from E st (rec :: recs) (fresh :: out) st'.

(** *** Providers that break the pool's contract *)

(** The provider of the catalogue, except that it answers every details
    request with the record of the film 238, whatever the id asked
    for. *)
Definition mislabelling_net (k : nat) (rq : Request) : Http :=
  match params rq with
  | [] => demo_net k rq
  | _ :: _ =>
      if String.eqb (endpoint rq) "/search/movie" then demo_net k rq
      else Response 200 (movie_body (demo_payload 238 (Some (87 # 10)%Q)))
  end.

Definition mislabelling : Env := world mislabelling_net.

(** A provider that lists the films 7 and 0 as similar to the film 238
    and answers the details requests of 7 and of 0 with their own
    records. *)
Definition zero_id_net (k : nat) (rq : Request) : Http :=
  let ep := endpoint rq in
  match params rq with
  | [] =>
      if String.eqb ep "/movie/238/similar"
      then Response 200 (results_body [item 7 "G" ""; item 0 "Z" ""])
      else Response 404 (results_body [])
  | _ :: _ =>
      if String.eqb ep "/movie/7"
      then Response 200 (movie_body (demo_payload 7 None))
      else if String.eqb ep "/movie/0"
      then Response 200 (movie_body (demo_payload 0 None))
      else Response 404 (results_body [])
  end.

Definition zero_id : Env := world zero_id_net.

(** * Theorems *)

(** ** Examples *)

Example normalize_godfather : _normalize_title "The Godfather" = "godfather".
Proof. reflexivity. Qed.

Example normalize_wall_e : _normalize_title "  WALL-E  (2008)" = "walle 2008".
Proof. reflexivity. Qed.

Example strptime_examples :
  strptime_ymd "1972-03-14" = Some (1972, 3, 14)
  /\ strptime_ymd "2020-02-29" = Some (2020, 2, 29)
  /\ strptime_ymd "2021-02-29" = None
  /\ strptime_ymd "2020-13-01" = None
  /\ strptime_ymd "2020-01-01T00:00" = None
  /\ strptime_ymd "soon" = None.
Proof. repeat split; reflexivity. Qed.

Example extract_demo :
  let d := _extract_movie_info (demo_payload 238 None) in
  year d = Some 1972 /\ certification d = Some "R"
  /\ directors d = ["F. Coppola"] /\ tagline d = None
  /\ overview d = Some "".
Proof. repeat split; reflexivity. Qed.

(** ** Strings *)

Lemma app_cons c (s t : string) : String c s +:+ t = String c (s +:+ t).
Proof. reflexivity. Qed.

Lemma app_empty_r (s : string) : s +:+ "" = s.
Proof. induction s; rewrite ?app_cons; [done|congruence]. Qed.

Lemma app_assoc_str (s t u : string) : (s +:+ t) +:+ u = s +:+ (t +:+ u).
Proof. induction s; rewrite ?app_cons; [done|congruence]. Qed.

Lemma forallb_app p s t :
  Str.forallb p (s +:+ t) = Str.forallb p s && Str.forallb p t.
Proof.
  induction s as [|c s IH]; [done|].
  rewrite app_cons. simpl. by rewrite IH, andb_assoc.
Qed.

Lemma forallb_filter p s : Str.forallb p (Str.filter p s) = true.
Proof.
  induction s as [|c s IH]; simpl; [done|].
  destruct (p c) eqn:Hc; simpl; [by rewrite Hc|done].
Qed.

Lemma filter_id p s : Str.forallb p s = true -> Str.filter p s = s.
Proof.
  induction s as [|c s IH]; simpl; [done|].
  intros [Hc Hs]%andb_true_iff. rewrite Hc. by rewrite IH.
Qed.

Lemma map_id f s :
  Str.forallb (fun c => Ascii.eqb (f c) c) s = true -> Str.map f s = s.
Proof.
  induction s as [|c s IH]; simpl; [done|].
  intros [Hc Hs]%andb_true_iff. apply Ascii.eqb_eq in Hc. by rewrite Hc, IH.
Qed.

Lemma forallb_impl (p q : ascii -> bool) s :
  (forall c, p c = true -> q c = true) ->
  Str.forallb p s = true -> Str.forallb q s = true.
Proof.
  intros Hpq. induction s as [|c s IH]; simpl; [done|].
  intros [Hc Hs]%andb_true_iff. by rewrite (Hpq _ Hc), IH.
Qed.

(** ** Title normalisation *)

Lemma alnum_not_space c : alnum c = true -> Str.isspace c = false.
Proof. destruct c as [[] [] [] [] [] [] [] []]; vm_compute; congruence. Qed.

Lemma clean_char_lower c :
  clean_char c = true -> Ascii.eqb (Str.lower_char c) c = true.
Proof. destruct c as [[] [] [] [] [] [] [] []]; vm_compute; congruence. Qed.

Lemma clean_char_keep c : clean_char c = true -> keep_char c = true.
Proof. destruct c as [[] [] [] [] [] [] [] []]; vm_compute; congruence. Qed.

Lemma keep_not_space_alnum c :
  keep_char c = true -> Str.isspace c = false -> alnum c = true.
Proof.
  unfold keep_char, alnum. intros H1 H2. rewrite H2 in H1.
  by rewrite orb_false_r in H1.
Qed.

(** [split] yields words. *)
Lemma split_go_words s : forall w,
  Str.forallb keep_char s = true ->
  Str.forallb alnum w = true ->
  Forall word (Str.split_go w s).
Proof.
  induction s as [|c s IH]; intros w Hs Hw; simpl.
  - destruct w; [constructor|]. repeat constructor; done.
  - simpl in Hs. apply andb_true_iff in Hs as [Hc Hs].
    destruct (Str.isspace c) eqn:Hsp.
    + destruct w.
      * by apply IH.
      * constructor; [split; done|]. by apply IH.
    + apply IH; [done|]. rewrite forallb_app, Hw. simpl.
      by rewrite (keep_not_space_alnum _ Hc Hsp).
Qed.

Lemma split_go_word w' : forall w s,
  Str.forallb alnum w' = true ->
  Str.split_go w (w' +:+ s) = Str.split_go (w +:+ w') s.
Proof.
  induction w' as [|c w' IH]; intros w s Hw'.
  - by rewrite app_empty_r.
  - simpl in Hw'. apply andb_true_iff in Hw' as [Hc Hw'].
    rewrite app_cons. simpl.
    rewrite (alnum_not_space _ Hc), IH by done.
    by rewrite app_assoc_str.
Qed.

(** [split] undoes [join] on words. *)
Lemma split_join ws : Forall word ws -> Str.split (Str.join ws) = ws.
Proof.
  unfold Str.split. induction 1 as [|w ws [Hne Hw] Hws IH]; [done|].
  destruct ws as [|w2 ws].
  - simpl. rewrite <-(app_empty_r w) at 1. rewrite split_go_word by done.
    change ("" +:+ w) with w. simpl. by destruct w.
  - change (Str.join (w :: w2 :: ws))
      with (w +:+ String " " (Str.join (w2 :: ws))).
    rewrite split_go_word by done. change ("" +:+ w) with w.
    destruct w as [|c w]; [done|].
    change (Str.split_go (String c w) (String " " (Str.join (w2 :: ws))))
      with (String c w :: Str.split_go "" (Str.join (w2 :: ws))).
    by rewrite IH.
Qed.

Lemma join_clean ws :
  Forall word ws -> Str.forallb clean_char (Str.join ws) = true.
Proof.
  induction 1 as [|w ws [Hne Hw] Hws IH]; [done|].
  assert (Str.forallb clean_char w = true) as Hcw.
  { eapply forallb_impl; [|done]. intros c Hc. unfold clean_char.
    by rewrite Hc. }
  destruct ws as [|w2 ws]; [done|].
  change (Str.join (w :: w2 :: ws))
    with (w +:+ String " " (Str.join (w2 :: ws))).
  rewrite forallb_app, Hcw.
  change (Str.forallb clean_char (String " " (Str.join (w2 :: ws))))
    with (Str.forallb clean_char (Str.join (w2 :: ws))).
  by rewrite IH.
Qed.

Lemma lower_join ws : Forall word ws -> Str.lower (Str.join ws) = Str.join ws.
Proof.
  intros H. apply map_id. eapply forallb_impl; [|by apply join_clean].
  apply clean_char_lower.
Qed.

Lemma sub_special_join ws :
  Forall word ws -> sub_special (Str.join ws) = Str.join ws.
Proof.
  intros H. apply filter_id. eapply forallb_impl; [|by apply join_clean].
  apply clean_char_keep.
Qed.

(** An alternative of the regex that matches at the head of a word
    followed by a space is that word. *)
Lemma strip_prefix_word a : forall w u t,
  Str.forallb alnum a = true ->
  Str.forallb alnum w = true ->
  (u = "" \/ exists u', u = String " " u') ->
  Str.strip_prefix a (w +:+ u) = Some t ->
  is_Some (Str.spaces1 t) ->
  a = w /\ t = u.
Proof.
  induction a as [|c a IH]; intros w u t Ha Hw Hu Hp Ht.
  - injection Hp as <-. destruct w as [|d w]; [done|].
    rewrite app_cons in Ht. simpl in *. apply andb_true_iff in Hw as [Hd _].
    rewrite (alnum_not_space _ Hd) in Ht. by destruct Ht.
  - simpl in Ha. apply andb_true_iff in Ha as [Hc Ha].
    destruct w as [|d w].
    + change ("" +:+ u) with u in Hp.
      destruct Hu as [->|[u' ->]]; [done|]. simpl in Hp.
      destruct (Ascii.eqb c " ") eqn:Heq; [|done].
      apply Ascii.eqb_eq in Heq as ->. done.
    + rewrite app_cons in Hp. simpl in Hp, Hw.
      apply andb_true_iff in Hw as [Hd Hw].
      destruct (Ascii.eqb c d) eqn:Heq; [|done].
      apply Ascii.eqb_eq in Heq as ->.
      destruct (IH w u t) as [-> ->]; done.
Qed.

Lemma lstrip_join ws :
  Forall word ws -> Str.lstrip (Str.join ws) = Str.join ws.
Proof.
  intros [|w ws' [Hne Hw] _]; [done|].
  destruct w as [|c w]; [done|]. simpl in Hw.
  apply andb_true_iff in Hw as [Hc _].
  destruct ws'; simpl; by rewrite (alnum_not_space _ Hc).
Qed.

(** On a normalised title the regex removes the first word, and only
    when more words follow. *)
Lemma match_article_join alts ws r :
  Forall (fun a => Str.forallb alnum a = true) alts ->
  Forall word ws ->
  match_article alts (Str.join ws) = Some r ->
  exists w ws', ws = w :: ws' /\ r = Str.join ws'.
Proof.
  intros Halts Hws. induction Halts as [|a alts Ha _ IH]; simpl; [done|].
  destruct (Str.strip_prefix a (Str.join ws) ≫= Str.spaces1) as [r'|] eqn:Hm;
    [|done].
  intros [= ->]. apply bind_Some in Hm as (t & Hp & Ht).
  destruct Hws as [|w ws' [Hne Hw] Hws'].
  { destruct a; simpl in Hp; [|done]. by injection Hp as <-. }
  exists w, ws'. split; [done|].
  destruct ws' as [|w2 ws'].
  - simpl in Hp. rewrite <-(app_empty_r w) in Hp.
    destruct (strip_prefix_word a w "" t) as [_ ->]; eauto. done.
  - change (Str.join (w :: w2 :: ws'))
      with (w +:+ String " " (Str.join (w2 :: ws'))) in Hp.
    destruct (strip_prefix_word a w (String " " (Str.join (w2 :: ws'))) t)
      as [_ ->]; eauto.
    simpl in Ht. injection Ht as <-. by apply (lstrip_join (w2 :: ws')).
Qed.

Lemma articles_alnum :
  Forall (fun a => Str.forallb alnum a = true) articles.
Proof. repeat constructor. Qed.

Lemma sub_leading_article_join ws :
  Forall word ws ->
  exists ws',
    Forall word ws' /\ sub_leading_article (Str.join ws) = Str.join ws'.
Proof.
  intros Hws. unfold sub_leading_article.
  destruct (match_article articles (Str.join ws)) as [r|] eqn:Hm; simpl.
  - apply match_article_join in Hm as (w & ws' & -> & ->);
      [|apply articles_alnum|done].
    exists ws'. split; [|done]. by apply Forall_inv_tail in Hws.
  - by exists ws.
Qed.

(** A normalised title is a list of words joined by single spaces. *)
Lemma normalize_words x :
  exists ws, Forall word ws /\ _normalize_title x = Str.join ws.
Proof.
  unfold _normalize_title. eexists. split; [|reflexivity].
  apply split_go_words; [apply forallb_filter|done].
Qed.

Lemma normalize_join ws :
  Forall word ws ->
  _normalize_title (Str.join ws) = sub_leading_article (Str.join ws).
Proof.
  intros Hws. unfold _normalize_title. rewrite lower_join by done.
  destruct (sub_leading_article_join ws Hws) as (ws' & Hws' & ->).
  by rewrite sub_special_join, split_join.
Qed.

(** Normalising a second time removes one more leading article and does
    nothing else. *)
Lemma normalize_twice x :
  _normalize_title (_normalize_title x) =
  sub_leading_article (_normalize_title x).
Proof.
  destruct (normalize_words x) as (ws & Hws & ->). by apply normalize_join.
Qed.

(** C4, counterexample: the title "La La Land" normalises to "la land",
    which normalises to "land", so normalising twice is not normalising
    once. *)
Lemma normalize_title_not_idempotent :
  _normalize_title "La La Land" = "la land"
  /\ _normalize_title (_normalize_title "La La Land") = "land"
  /\ _normalize_title (_normalize_title "La La Land")
     <> _normalize_title "La La Land".
Proof. repeat split; [reflexivity..|vm_compute; discriminate]. Qed.

(** C4, amended: for every title whose normalised form does not begin
    with one of the articles of the regex followed by a space,
    normalising twice equals normalising once. *)
Theorem normalize_title_idempotent_without_article (x : string) :
  match_article articles (_normalize_title x) = None ->
  _normalize_title (_normalize_title x) = _normalize_title x.
Proof.
  intros Hm. rewrite normalize_twice. unfold sub_leading_article.
  by rewrite Hm.
Qed.

Lemma normalize_title_idempotent_without_article_witness :
  match_article articles (_normalize_title "The Godfather") = None
  /\ _normalize_title (_normalize_title "The Godfather")
     = _normalize_title "The Godfather".
Proof.
  split; [reflexivity|].
  apply (normalize_title_idempotent_without_article "The Godfather").
  reflexivity.
Defined.

(** ** Reasoning about client methods *)

Lemma wp_ret {A} (a : A) Q st : Q (Ok a) st -> wp (ret a) Q st.
Proof. done. Qed.

Lemma wp_raise {A} e (Q : result A -> Client -> Prop) st :
  Q (Raise e) st -> wp (raise e) Q st.
Proof. done. Qed.

Lemma wp_bind {A B} (m : M A) (k : A -> M B) Q st :
  wp m (fun r st' =>
          match r with
          | Ok a => wp (k a) Q st'
          | Raise e => Q (Raise e) st'
          end) st ->
  wp (bind m k) Q st.
Proof. unfold wp, bind. by destruct (m st) as [[a|e] st']. Qed.

Lemma wp_try {A} (m : M A) handler Q st :
  wp m (fun r st' =>
          match r with
          | Ok a => Q (Ok a) st'
          | Raise e =>
              match handler e with
              | Some h => wp h Q st'
              | None => Q (Raise e) st'
              end
          end) st ->
  wp (try_except m handler) Q st.
Proof.
  unfold wp, try_except. destruct (m st) as [[a|e] st']; simpl; [done|].
  by destruct (handler e).
Qed.

Lemma wp_elim {A} (m : M A) Q st r st' :
  wp m Q st -> m st = (r, st') -> Q r st'.
Proof. unfold wp. intros H Heq. by rewrite Heq in H. Qed.

(** ** The transport *)

Lemma classify_cases h :
  (exists data, classify h = Ok data)
  \/ classify h = Raise TMDBAPIError
  \/ classify h = Raise MovieNotFoundError.
Proof.
  destruct h as [|code body]; simpl; [auto|].
  destruct (code =? 401); [auto|]. destruct (code =? 404); [auto|].
  destruct (code =? 429); [auto|]. destruct (code =? 200); simpl; eauto.
Qed.

Lemma classify_ok h data : classify h = Ok data -> h = Response 200 data.
Proof.
  destruct h as [|code body]; simpl; [done|].
  destruct (code =? 401); [done|]. destruct (code =? 404); [done|].
  destruct (code =? 429); [done|]. destruct (code =? 200) eqn:H200; [|done].
  simpl. intros [= <-]. f_equal. lia.
Qed.

Lemma classify_not_transport h :
  match classify h with
  | Raise e => is_RequestException e = false
  | Ok _ => True
  end.
Proof.
  destruct (classify_cases h) as [[data ->]|[-> | ->]]; done.
Qed.

(** The body of [_make_request] makes one HTTP call and turns every
    transport failure into [TMDBAPIError]. *)
Lemma make_request_body_eq E ep ps st :
  _make_request_body E ep ps st =
  (classify (net E (length (calls st)) (request_of ep ps)),
   log_call (request_of ep ps) st).
Proof.
  unfold _make_request_body, _wait_for_rate_limit, try_except, bind, ret,
    session_get, classify, request_of.
  destruct (net E _ _) as [[]|code body]; simpl; [done..|].
  repeat case_match; done.
Qed.

(** An attempt that raises nothing of the retried type is the only
    attempt. *)
Lemma retry_loop_once {A} left n wait (f : M A) st :
  match (f st).1 with
  | Raise e => is_RequestException e = false
  | Ok _ => True
  end ->
  retry_loop left n wait is_RequestException f st = f st.
Proof.
  destruct left; simpl; destruct (f st) as [[a|e] st']; simpl; try done;
    by intros ->.
Qed.

(** The retry wrapper never sees an exception it retries: whatever the
    provider does, [_make_request] is its body, run once. *)
Lemma make_request_eq E ep ps st :
  _make_request E ep ps st =
  (classify (net E (length (calls st)) (request_of ep ps)),
   log_call (request_of ep ps) st).
Proof.
  unfold _make_request, retry. rewrite retry_loop_once.
  - apply make_request_body_eq.
  - rewrite make_request_body_eq. apply classify_not_transport.
Qed.

(** The wrapper itself does what its arguments say: around a call that
    lets the timeouts through, it makes three attempts, sleeps 2 s after
    each of the first two, and gives up with [RetryError]. *)
Example retry_on_raw_timeouts :
  let '(r, st) :=
    retry 3 (wait_exponential 1 2 10) is_RequestException
      (session_get timeouts "/search/movie" []) new_client in
  r = Raise RetryError /\ length (calls st) = 3%nat /\ sleeps st = [2; 2].
Proof. repeat split; reflexivity. Qed.

Example wait_exponential_values :
  wait_exponential 1 2 10 <$> [1; 2; 3; 4; 5; 6] = [2; 2; 4; 8; 10; 10].
Proof. reflexivity. Qed.

(** C1: evaluation of [_make_request] where the claim expects retries.
    When every call times out, the error is raised after one attempt (the
    claim: after exactly three) and nothing is slept; when only the first
    call times out, the error is raised after that one attempt as well
    (the claim: the success of a second attempt is returned).  Status
    errors are raised after one attempt, as the claim says. *)
Theorem make_request_gives_up_after_one_attempt (ep : string)
    (ps : list (string * string)) :
  let rq := request_of ep ps in
  _make_request timeouts ep ps new_client
    = (Raise TMDBAPIError,
       {| cache := cache new_client; calls := [rq]; sleeps := [] |})
  /\ _make_request flaky ep ps new_client
    = (Raise TMDBAPIError,
       {| cache := cache new_client; calls := [rq]; sleeps := [] |})
  /\ (forall E st,
        exists r, _make_request E ep ps st = (r, log_call rq st)
          /\ (forall f, net E (length (calls st)) rq = Fails f ->
                r = Raise TMDBAPIError)
          /\ (forall code body,
                net E (length (calls st)) rq = Response code body ->
                code <> 200 ->
                r = Raise TMDBAPIError \/ r = Raise MovieNotFoundError)).
Proof.
  split; [by rewrite make_request_eq|]. split; [by rewrite make_request_eq|].
  intros E st. eexists. split; [apply make_request_eq|]. split.
  - by intros f ->.
  - intros code body -> Hcode. simpl.
    destruct (code =? 401); [auto|]. destruct (code =? 404); [auto|].
    destruct (code =? 429); [auto|]. destruct (code =? 200) eqn:H; [lia|].
    auto.
Qed.

(** ** Title resolution and its cache entries *)

Lemma search_request_eq E t y st :
  search_request E t y st =
  (match classify (net E (length (calls st)) (search_rq t y)) with
   | Ok data => Ok (b_results data)
   | Raise e => Raise e
   end, log_call (search_rq t y) st).
Proof.
  unfold search_request, bind. rewrite make_request_eq.
  fold (search_rq t y). by destruct (classify _).
Qed.

Lemma wp_search_request E t y
    (Q : result (list SearchItem) -> Client -> Prop) st :
  (forall l, Q (Ok l) (log_call (search_rq t y) st)) ->
  Q (Raise TMDBAPIError) (log_call (search_rq t y) st) ->
  Q (Raise MovieNotFoundError) (log_call (search_rq t y) st) ->
  wp (search_request E t y) Q st.
Proof.
  intros H1 H2 H3. unfold wp. rewrite search_request_eq.
  destruct (classify_cases (net E (length (calls st)) (search_rq t y)))
    as [[data ->]|[-> | ->]]; simpl; auto.
Qed.

Lemma set_in_cache_id_eq key v st :
  _set_in_cache_id key v st =
  (Ok tt, {| cache := cache_set_id key v (cache st);
             calls := calls st; sleeps := sleeps st |}).
Proof.
  unfold _set_in_cache_id, cache_set_id. destruct st as [[c|] ? ?]; done.
Qed.

Lemma wp_set_id key v (Q : result unit -> Client -> Prop) st :
  Q (Ok tt) {| cache := cache_set_id key v (cache st);
               calls := calls st; sleeps := sleeps st |} ->
  wp (_set_in_cache_id key v) Q st.
Proof. unfold wp. by rewrite set_in_cache_id_eq. Qed.

Ltac wp_step :=
  lazymatch goal with
  | |- wp (bind _ _) _ _ => apply wp_bind
  | |- wp (ret _) _ _ => apply wp_ret
  | |- wp (raise _) _ _ => apply wp_raise
  | |- wp (try_except _ _) _ _ => apply wp_try
  | |- wp (search_request _ _ _) _ _ =>
      apply wp_search_request; [intros ?| |]
  | |- wp (_set_in_cache_id _ _) _ _ => apply wp_set_id
  | |- wp (if ?b then _ else _) _ _ => destruct b eqn:?
  | |- wp (match ?x with _ => _ end) _ _ => destruct x eqn:?
  end.

(** A resolution that finds its key in the cache returns what it finds
    and leaves the state as it is. *)
Lemma search_movie_hit E t y st id :
  cached_id (search_key t y) st = Some id ->
  search_movie E t y st = (Ok (Some id), st).
Proof.
  unfold cached_id, search_movie, bind, _get_from_cache_id.
  fold (search_key t y). intros H.
  destruct (cache st) as [c|]; [|done]. by rewrite H.
Qed.

(** A resolution that does not find its key goes to the network; it
    ends by writing its outcome under the key, or, after an API error,
    with the cache as it was. *)
Lemma search_movie_miss E t y st :
  cached_id (search_key t y) st = None ->
  wp (search_movie E t y) (search_miss_post t y st) st.
Proof.
  intros Hmiss. unfold search_movie. fold (search_key t y).
  apply wp_bind. unfold wp at 1, _get_from_cache_id.
  unfold cached_id in Hmiss.
  assert ((match cache st with
           | Some c => (Ok (mjoin (ids c !! search_key t y)), st)
           | None => (Ok None, st)
           end) = (Ok None, st)) as ->.
  { destruct (cache st); [by rewrite Hmiss|done]. }
  simpl.
  repeat wp_step.
  all: (split;
        [eexists; split; simpl; rewrite <-?app_assoc; reflexivity|]).
  all: simpl; eauto.
Qed.

(** An identity that [search_movie] returns is in the cache afterwards,
    under the key of the query. *)
Lemma search_movie_caches E t y st id st' :
  is_Some (cache st) ->
  search_movie E t y st = (Ok (Some id), st') ->
  cached_id (search_key t y) st' = Some id.
Proof.
  intros Hc Hrun.
  destruct (cached_id (search_key t y) st) as [id'|] eqn:Hlook.
  - rewrite (search_movie_hit _ _ _ _ _ Hlook) in Hrun. by simplify_eq.
  - pose proof (search_movie_miss E t y st Hlook) as Hwp.
    eapply wp_elim in Hwp; [|done].
    destruct Hwp as [_ [(v & [= <-] & Hcache)|[[?|?] _]]]; [|done..].
    destruct Hc as [c Hc]. unfold cached_id. rewrite Hcache, Hc. simpl.
    by rewrite lookup_insert_eq.
Qed.

(** An absent outcome leaves nothing that a later lookup finds: the
    [None] written under the key reads like a missing key. *)
Lemma search_movie_absent E t y st st' :
  search_movie E t y st = (Ok None, st') ->
  cached_id (search_key t y) st' = None.
Proof.
  intros Hrun.
  destruct (cached_id (search_key t y) st) as [id'|] eqn:Hlook.
  - rewrite (search_movie_hit _ _ _ _ _ Hlook) in Hrun. by simplify_eq.
  - pose proof (search_movie_miss E t y st Hlook) as Hwp.
    eapply wp_elim in Hwp; [|done].
    destruct Hwp as [_ [(v & [= <-] & Hcache)|[_ Hcache]]].
    + unfold cached_id. rewrite Hcache.
      destruct (cache st) as [c|]; simpl; [|done].
      by rewrite lookup_insert_eq.
    + unfold cached_id in *. by rewrite Hcache.
Qed.

(** ... so after an absent outcome the same query goes to the network
    again, whatever the provider and the state. *)
Lemma search_movie_absent_again E t y st st1 r2 st2 :
  search_movie E t y st = (Ok None, st1) ->
  search_movie E t y st1 = (r2, st2) ->
  exists more, calls st2 = calls st1 ++ search_rq t y :: more.
Proof.
  intros H1 H2. apply search_movie_absent in H1.
  pose proof (search_movie_miss E t y st1 H1) as Hwp.
  eapply wp_elim in Hwp; [|done].
  destruct Hwp as [[more [Hcalls _]] _]. eauto.
Qed.

(** A query that was answered with an identity is answered from the
    cache from then on: the same identity, no request. *)
Lemma search_movie_again E t y st id st1 :
  is_Some (cache st) ->
  search_movie E t y st = (Ok (Some id), st1) ->
  search_movie E t y st1 = (Ok (Some id), st1).
Proof.
  intros Hc Hrun. apply search_movie_hit. by eapply search_movie_caches.
Qed.

(** C2: evaluation of [search_movie] on a query the provider has no
    result for.  The first resolution returns the absent outcome after one
    request and writes [None] under the key; the second resolution of the
    same query returns the same outcome but makes one more request (the
    claim: zero additional requests).  For an outcome that is an identity
    the claim holds, see [search_movie_again]. *)
Theorem absent_outcome_is_resolved_again :
  let run1 := search_movie demo "Zzyzx Road" None new_client in
  let run2 := search_movie demo "Zzyzx Road" None run1.2 in
  run1.1 = Ok None /\ run2.1 = Ok None
  /\ (cache run1.2 ≫= fun c => ids c !! "search:Zzyzx Road_no_year")
     = Some None
  /\ calls run1.2 = [search_rq "Zzyzx Road" None]
  /\ calls run2.2
     = [search_rq "Zzyzx Road" None; search_rq "Zzyzx Road" None].
Proof. intros run1 run2. repeat split; vm_compute; reflexivity. Qed.

(** C3, counterexample: "The Godfather" and "Godfather" have the same
    normalisation and are asked with the same year, yet their keys differ,
    and after the first is resolved the second finds no entry and goes to
    the network. *)
Lemma equal_normalizations_use_two_entries :
  let run1 := search_movie demo "The Godfather" (Some 1972) new_client in
  let run2 := search_movie demo "Godfather" (Some 1972) run1.2 in
  _normalize_title "The Godfather" = _normalize_title "Godfather"
  /\ search_key "The Godfather" (Some 1972) = "search:The Godfather_1972"
  /\ search_key "Godfather" (Some 1972) = "search:Godfather_1972"
  /\ run1.1 = Ok (Some 238) /\ run2.1 = Ok (Some 238)
  /\ cached_id (search_key "Godfather" (Some 1972)) run1.2 = None
  /\ length (calls run1.2) = 1%nat /\ length (calls run2.2) = 2%nat.
Proof. intros run1 run2. repeat split; vm_compute; reflexivity. Qed.

(** C3, amended: an identity that resolution returns is cached under the
    key made of the title as it was given (not normalised) and of the
    year, or of [no_year] for a missing or zero year; a later query with
    the same title and the same year, or with another year that gives the
    same key, finds that entry: it returns the same identity and makes no
    request. *)
Theorem same_title_same_year_hits_cache E (title : string)
    (year1 year2 : option Z) st id st1 :
  is_Some (cache st) ->
  year_or_sentinel year1 = year_or_sentinel year2 ->
  search_movie E title year1 st = (Ok (Some id), st1) ->
  search_key title year1
    = "search:" +:+ title +:+ "_" +:+ str (year_or_sentinel year1)
  /\ cached_id (search_key title year1) st1 = Some id
  /\ search_movie E title year2 st1 = (Ok (Some id), st1).
Proof.
  intros Hc Hy Hrun. split; [done|].
  pose proof (search_movie_caches _ _ _ _ _ _ Hc Hrun) as Hcached.
  split; [done|]. apply search_movie_hit.
  unfold search_key in *. by rewrite <-Hy.
Qed.

Lemma same_title_same_year_hits_cache_witness :
  let st1 := (search_movie demo "The Godfather" (Some 1972) new_client).2 in
  search_key "The Godfather" (Some 1972) = "search:The Godfather_1972"
  /\ cached_id (search_key "The Godfather" (Some 1972)) st1 = Some 238
  /\ search_movie demo "The Godfather" (Some 1972) st1 = (Ok (Some 238), st1).
Proof.
  apply (same_title_same_year_hits_cache demo "The Godfather"
           (Some 1972) (Some 1972) new_client 238).
  - by eexists.
  - reflexivity.
  - vm_compute. reflexivity.
Defined.

(** ** Detail extraction *)

(** The release date of a payload decides the [year] and the
    [release_date] of the record and nothing else. *)
Lemma extract_release_date_only (rd : field string) (p : Payload) :
  _extract_movie_info (with_release_date rd p) =
  with_year (year (_extract_movie_info (with_release_date rd p)))
            (get_or "" rd) (_extract_movie_info p).
Proof. done. Qed.

(** What [strptime] accepts names a date that exists. *)
Lemma strptime_valid s y m d :
  strptime_ymd s = Some (y, m, d) -> valid_date y m d = true.
Proof.
  unfold strptime_ymd.
  destruct (match_ymd s) as [[[[y' m'] d'] [|c rest]]|]; [|done..].
  destruct (valid_date y' m' d') eqn:Hv; [|done]. by intros [= <- <- <-].
Qed.

(** A decimal digit and its value. *)
Lemma digit_cases c v :
  digit_val c = Some v ->
  (c = "0"%char /\ v = 0) \/ (c = "1"%char /\ v = 1)
  \/ (c = "2"%char /\ v = 2) \/ (c = "3"%char /\ v = 3)
  \/ (c = "4"%char /\ v = 4) \/ (c = "5"%char /\ v = 5)
  \/ (c = "6"%char /\ v = 6) \/ (c = "7"%char /\ v = 7)
  \/ (c = "8"%char /\ v = 8) \/ (c = "9"%char /\ v = 9).
Proof.
  destruct c as [[] [] [] [] [] [] [] []]; vm_compute; intros H;
    try discriminate H; injection H as <-;
    repeat (first [left; split; reflexivity | right]); split; reflexivity.
Qed.

Lemma valid_date_bounds y m d :
  valid_date y m d = true -> 1 <= m <= 12 /\ 1 <= d <= 31.
Proof.
  unfold valid_date, days_in_month. intros H.
  repeat (apply andb_true_iff in H as [H ?]).
  repeat case_match; lia.
Qed.

Ltac digit_split H :=
  destruct (digit_cases _ _ H)
    as [[-> ->]|[[-> ->]|[[-> ->]|[[-> ->]|[[-> ->]|[[-> ->]|[[-> ->]|
        [[-> ->]|[[-> ->]|[-> ->]]]]]]]]]].

(** Every ISO date is accepted by [strptime], with the year of its first
    four digits: the parse is wider than ISO, not narrower. *)
Lemma iso_date_parsed s :
  is_iso_date s = true ->
  exists y m d,
    strptime_ymd s = Some (y, m, d) /\ fst <$> head (parse_Y s) = Some y.
Proof.
  unfold is_iso_date.
  destruct s
    as [|y1 [|y2 [|y3 [|y4 [|h1 [|m1 [|m2 [|h2 [|d1 [|d2 [|? ?]]]]]]]]]]];
    try done;
    try (by destruct h1 as [[] [] [] [] [] [] [] []]);
    try (by destruct h1 as [[] [] [] [] [] [] [] []];
            try done; destruct h2 as [[] [] [] [] [] [] [] []]).
  destruct (Ascii.eqb_spec h1 "-"%char) as [->|Hh1];
    [|by destruct h1 as [[] [] [] [] [] [] [] []]].
  destruct (Ascii.eqb_spec h2 "-"%char) as [->|Hh2];
    [|by destruct h2 as [[] [] [] [] [] [] [] []]].
  destruct (digit_val y1) as [a|] eqn:H1; [|done].
  destruct (digit_val y2) as [b|] eqn:H2; [|done].
  destruct (digit_val y3) as [c|] eqn:H3; [|done].
  destruct (digit_val y4) as [d|] eqn:H4; [|done].
  destruct (digit_val m1) as [e|] eqn:H5; [|done].
  destruct (digit_val m2) as [f|] eqn:H6; [|done].
  destruct (digit_val d1) as [g|] eqn:H7; [|done].
  destruct (digit_val d2) as [h|] eqn:H8; [|done].
  intros Hvalid. pose proof (valid_date_bounds _ _ _ Hvalid) as [Hm Hd].
  exists (1000 * a + 100 * b + 10 * c + d), (10 * e + f), (10 * g + h).
  unfold strptime_ymd, match_ymd, parse_Y. rewrite H1, H2, H3, H4.
  split; [|done].
  clear H1 H2 H3 H4. revert Hvalid.
  generalize (1000 * a + 100 * b + 10 * c + d). intros Y Hvalid.
  digit_split H5; try lia; digit_split H6; try lia;
    digit_split H7; try lia; digit_split H8; try lia;
    clear H5 H6 H7 H8 Hm Hd;
    lazy -[valid_date] in Hvalid |- *; by rewrite Hvalid.
Qed.

(** The record of a payload with an ISO release date has the year of that
    date. *)
Lemma iso_date_yields_year s (p : Payload) :
  is_iso_date s = true ->
  exists y,
    year (_extract_movie_info (with_release_date (Val s) p)) = Some y
    /\ fst <$> head (parse_Y s) = Some y.
Proof.
  intros Hiso. destruct (iso_date_parsed s Hiso) as (y & m & d & Hs & Hy).
  exists y. split; [|done].
  unfold _extract_movie_info. simpl.
  destruct s as [|c s]; [done|]. simpl. by rewrite Hs.
Qed.

(** C9, counterexample: "2020-1-5" is not an ISO date (month and day are
    not two digits), yet [strptime] accepts it and the record gets the
    year 2020. *)
Lemma lenient_date_yields_year :
  is_iso_date "2020-1-5" = false
  /\ strptime_ymd "2020-1-5" = Some (2020, 1, 5)
  /\ year (_extract_movie_info
             (with_release_date (Val "2020-1-5") (demo_payload 238 None)))
     = Some 2020.
Proof. repeat split; reflexivity. Qed.

(** C9, amended: extraction is total (nothing is raised), and when the
    release date of the payload is missing, null, empty, or not accepted
    by [strptime] with the format [%Y-%m-%d], the record has no year and
    all its other fields are those extracted from the same payload with
    any other release date. *)
Theorem unparsable_release_date_no_year (rd : field string) (p : Payload) :
  no_parsable_date rd ->
  year (_extract_movie_info (with_release_date rd p)) = None
  /\ _extract_movie_info (with_release_date rd p)
     = with_year None (get_or "" rd) (_extract_movie_info p).
Proof.
  unfold no_parsable_date, _extract_movie_info, with_year. simpl.
  destruct (get_or "" rd) as [[|c s]|]; simpl; [done| |done].
  intros [?| ->]; done.
Qed.

Lemma unparsable_release_date_no_year_witness :
  no_parsable_date (Val "14 March 1972")
  /\ year (_extract_movie_info
             (with_release_date (Val "14 March 1972")
                (demo_payload 238 None))) = None
  /\ _extract_movie_info
       (with_release_date (Val "14 March 1972") (demo_payload 238 None))
     = with_year None (Some "14 March 1972")
         (_extract_movie_info (demo_payload 238 None)).
Proof.
  split; [right; reflexivity|].
  apply (unparsable_release_date_no_year (Val "14 March 1972")
           (demo_payload 238 None)).
  right. reflexivity.
Defined.

(** ** Futures and batches *)

Section futures.
Context {A B : Type} (task : A -> M B).

Lemma submit_all_eq items st :
  submit_all task items st =
  (Ok (futures_of task items st).1, (futures_of task items st).2).
Proof.
  revert st. induction items as [|item items IH]; intros st; [done|].
  unfold submit_all in *. simpl. unfold bind at 1. unfold bind at 1.
  unfold attempt. destruct (task item st) as [r st1]. simpl.
  unfold bind at 1. rewrite IH.
  by destruct (futures_of task items st1).
Qed.

Lemma futures_of_app l1 l2 st :
  futures_of task (l1 ++ l2) st =
  let '(f1, st1) := futures_of task l1 st in
  let '(f2, st2) := futures_of task l2 st1 in
  (f1 ++ f2, st2).
Proof.
  revert st. induction l1 as [|a l1 IH]; intros st; simpl.
  - by destruct (futures_of task l2 st).
  - destruct (task a st) as [r st1]. rewrite IH.
    destruct (futures_of task l1 st1) as [f1 st2].
    by destruct (futures_of task l2 st2).
Qed.

(** Every item has its future, in the order of submission. *)
Lemma futures_of_items items st : (futures_of task items st).1.*1 = items.
Proof.
  revert st. induction items as [|a l IH]; intros st; simpl; [done|].
  destruct (task a st) as [r st1]. specialize (IH st1).
  destruct (futures_of task l st1). simpl in *. by f_equal.
Qed.

Lemma run_batch_eq E batch st :
  run_batch E task batch st =
  (Ok (as_completed E _ (futures_of task batch st).1),
   (futures_of task batch st).2).
Proof. unfold run_batch, bind. by rewrite submit_all_eq. Qed.

End futures.

Lemma batch_count_nil step : (0 < step)%nat -> batch_count 0 step = 0%nat.
Proof. intros. unfold batch_count. apply Nat.div_small. lia. Qed.

Lemma batch_count_step total step :
  (0 < step)%nat -> (0 < total)%nat ->
  batch_count total step = S (batch_count (total - step) step).
Proof.
  intros Hs Ht. unfold batch_count.
  destruct (decide (step <= total)%nat) as [Hle|Hgt].
  - replace (total + step - 1)%nat
      with ((total - step + step - 1) + 1 * step)%nat by lia.
    rewrite Nat.div_add by lia. lia.
  - replace (total - step)%nat with 0%nat by lia.
    rewrite (Nat.div_small (0 + step - 1)) by lia.
    replace (total + step - 1)%nat with ((total - 1) + 1 * step)%nat by lia.
    rewrite Nat.div_add by lia. rewrite Nat.div_small by lia. done.
Qed.

Lemma range_step_pos total (step : Z) :
  0 < step ->
  range_step total step =
  Ok ((fun k => (k * Z.to_nat step)%nat)
        <$> seq 0 (batch_count total (Z.to_nat step))).
Proof.
  intros H. unfold range_step.
  destruct (step =? 0) eqn:H0; [lia|]. destruct (step <? 0) eqn:H1; [lia|].
  done.
Qed.

(** The batch loop from batch [k] on: it returns, it has run the tasks
    of the items that were left, each once and in order, and it has added
    what is kept of their futures, in some order. *)
Lemma batch_loop_eq {A B C} E (task : A -> M B)
    (keep : A * result B -> option C) items (step : nat) n :
  forall k out st,
  (0 < step)%nat ->
  n = batch_count (length (drop (k * step) items)) step ->
  exists out',
    batch_loop E task (omap keep) items (Z.of_nat step)
      ((fun j => (j * step)%nat) <$> seq k n) out st =
    (Ok out', (futures_of task (drop (k * step) items) st).2)
    /\ out' ≡ₚ out
               ++ omap keep (futures_of task (drop (k * step) items) st).1.
Proof.
  induction n as [|n IH]; intros k out st Hstep Hn.
  - simpl. exists out.
    assert (drop (k * step) items = []) as ->.
    { destruct (drop (k * step) items) as [|a l] eqn:Hd; [done|].
      rewrite batch_count_step in Hn by (simpl; lia). done. }
    simpl. by rewrite app_nil_r.
  - simpl. unfold bind at 1. rewrite run_batch_eq.
    unfold batch_at. rewrite Nat2Z.id.
    set (rest := drop (k * step) items) in *.
    assert (0 < length rest)%nat as Hpos.
    { destruct rest; [|simpl; lia]. simpl in Hn.
      rewrite batch_count_nil in Hn; done. }
    rewrite batch_count_step in Hn by done.
    assert (drop (S k * step) items = drop step rest) as Hdrop.
    { unfold rest. rewrite drop_drop. f_equal. lia. }
    destruct (IH (S k)
                (out ++ omap keep
                          (as_completed E _
                             (futures_of task (take step rest) st).1))
                (futures_of task (take step rest) st).2 Hstep)
      as (out' & Hrun & Hperm).
    { rewrite Hdrop, length_drop. lia. }
    exists out'. revert Hrun Hperm. rewrite Hdrop.
    assert (futures_of task rest st =
            let '(f1, st1) := futures_of task (take step rest) st in
            let '(f2, st2) := futures_of task (drop step rest) st1 in
            (f1 ++ f2, st2)) as ->.
    { by rewrite <-futures_of_app, take_drop. }
    destruct (futures_of task (take step rest) st) as [f1 st1]. simpl.
    destruct (futures_of task (drop step rest) st1) as [f2 st2] eqn:Hf2.
    simpl. intros Hrun Hperm. split; [exact Hrun|].
    rewrite Hperm. rewrite omap_app, <-app_assoc.
    by rewrite (as_completed_perm E _ f1).
Qed.

(** The batches of a positive size cover the whole list. *)
Lemma batches_eq {A B C} E (task : A -> M B)
    (keep : A * result B -> option C) items (batch_size : Z) st :
  0 < batch_size ->
  exists starts out,
    range_step (length items) batch_size = Ok starts
    /\ batch_loop E task (omap keep) items batch_size starts [] st =
       (Ok out, (futures_of task items st).2)
    /\ out ≡ₚ omap keep (futures_of task items st).1.
Proof.
  intros Hpos. rewrite range_step_pos by done.
  destruct (batch_loop_eq E task keep items (Z.to_nat batch_size)
              (batch_count (length items) (Z.to_nat batch_size))
              0%nat [] st)
    as (out & Hrun & Hperm); [lia|done|].
  rewrite Z2Nat.id in Hrun by lia. simpl in Hrun, Hperm.
  eauto.
Qed.

Lemma omap_length_le {A B} (f : A -> option B) l :
  (length (omap f l) <= length l)%nat.
Proof.
  induction l as [|a l IH]; [done|].
  change (omap f (a :: l))
    with (match f a with Some y => y :: omap f l | None => omap f l end).
  destruct (f a); simpl; lia.
Qed.

(** ** Batch enrichment *)

(** An item is enriched exactly when its title resolves to an identity
    and the details of that identity are fetched. *)
Lemma enrich_movie_some E movie st enriched st1 :
  enrich_movie E movie st = (Ok (Some enriched), st1) <->
  exists title id st' details,
    m_title movie = Some title /\ title <> ""
    /\ search_movie E title (m_year movie) st = (Ok (Some id), st')
    /\ id <> 0
    /\ get_movie_details E id st' = (Ok (Some details), st1)
    /\ enriched = merge movie details.
Proof.
  unfold enrich_movie. split.
  - destruct (m_title movie) as [[|c t]|] eqn:Ht; simpl; [done| |done].
    unfold bind at 1.
    destruct (search_movie _ _ _ _) as [[[id|]|e] st'] eqn:Hs; simpl;
      [|done|done].
    destruct (id =? 0) eqn:Hid; simpl; [done|].
    unfold bind.
    destruct (get_movie_details _ _ _) as [[[d|]|e] st2] eqn:Hd; simpl;
      [|done|done].
    intros [= <- <-]. exists (String c t), id, st', d.
    repeat split; try done. lia.
  - intros (t & id & st' & d & -> & Hne & Hs & Hid & Hd & ->).
    destruct t as [|c t]; [done|]. simpl. unfold bind at 1. rewrite Hs.
    simpl. destruct (id =? 0) eqn:H0; [lia|]. simpl. unfold bind.
    by rewrite Hd.
Qed.

(** The sequential loop, when no item raises. *)
Lemma enrich_sequential_eq E movies : forall acc st,
  Forall (fun f => is_ok f.2) (outcomes E movies st) ->
  enrich_sequential E movies acc st =
  (Ok (acc ++ omap keep_enriched (outcomes E movies st)),
   (futures_of (enrich_movie E) movies st).2).
Proof.
  unfold outcomes.
  induction movies as [|movie movies IH]; intros acc st; simpl.
  - by rewrite app_nil_r.
  - unfold bind at 1. destruct (enrich_movie E movie st) as [r st1].
    specialize (IH (match r with Ok (Some e) => acc ++ [e] | _ => acc end)
                  st1).
    destruct (futures_of (enrich_movie E) movies st1) as [fs st2].
    simpl in *.
    intros Hall. apply Forall_cons in Hall as [Hr Hall]. simpl in Hr.
    destruct r as [[e|]|e]; [| |done].
    + rewrite IH by done.
      change (omap keep_enriched ((movie, Ok (Some e)) :: fs))
        with (e :: omap keep_enriched fs).
      by rewrite <-app_assoc.
    + by rewrite IH.
Qed.

(** The parallel path returns, whatever the items do. *)
Lemma enrich_movies_parallel_eq E movies batch_size st :
  0 < batch_size ->
  exists enriched_movies,
    _enrich_movies_parallel E movies batch_size st =
    (Ok enriched_movies, (futures_of (enrich_movie E) movies st).2)
    /\ enriched_movies ≡ₚ omap keep_enriched (outcomes E movies st).
Proof.
  intros Hsize. unfold _enrich_movies_parallel.
  destruct (batches_eq E (enrich_movie E) keep_enriched movies batch_size
              st Hsize) as (starts & out & -> & Hrun & Hperm).
  unfold collect_enriched.
  change (λ completed, omap keep_enriched completed)
    with (omap (M:=list) keep_enriched).
  rewrite Hrun. eauto.
Qed.

(** Batch enrichment of a list of items with a positive batch size
    returns, in some order, exactly the enriched records of the items
    whose enrichment yields one, that is (see [enrich_movie_some]) whose
    resolution and detail fetch both succeed; an item without a record
    takes nothing else away.  On the parallel path this holds whatever the
    items do, an item's exception included; on the sequential path (one
    item, or [parallel] off) it holds when no item raises. *)
Lemma enrich_movies_subset E movies (parallel : bool) (batch_size : Z) st :
  0 < batch_size ->
  (parallel && (1 <? length movies)%nat = false ->
   Forall (fun f => is_ok f.2) (outcomes E movies st)) ->
  exists enriched_movies st',
    enrich_movies E movies parallel batch_size st = (Ok enriched_movies, st')
    /\ enriched_movies ≡ₚ omap keep_enriched (outcomes E movies st).
Proof.
  intros Hsize Hseq. unfold enrich_movies.
  destruct (parallel && (1 <? length movies)%nat) eqn:Hpar.
  - destruct (enrich_movies_parallel_eq E movies batch_size st Hsize)
      as (out & -> & Hperm). eauto.
  - rewrite enrich_sequential_eq by auto. eauto.
Qed.

(** In the catalogue: of the three items, the second does not resolve and
    the details of the third are not found; the first is returned, on the
    parallel path and on the sequential one. *)
Example enrich_demo :
  let ids_of (x : result (list Enriched) * Client) :=
    match x.1 with
    | Ok l => (fun e => tmdb_id (e_details e)) <$> l
    | Raise _ => []
    end in
  ids_of (enrich_movies demo demo_movies true 2 new_client) = [Some 238]
  /\ ids_of (enrich_movies demo demo_movies false 2 new_client) = [Some 238]
  /\ (fun e => tmdb_id (e_details e)) <$>
       omap keep_enriched (outcomes demo demo_movies new_client)
     = [Some 238].
Proof. repeat split; vm_compute; reflexivity. Qed.

(** C5: evaluation of [enrich_movies] where one item fails with a 404 on
    its search.  [_make_request] raises [MovieNotFoundError] for the
    status 404 and [search_movie] catches [TMDBAPIError] only, so the
    exception leaves [enrich_movie]; the sequential loop has no handler
    and the call raises: for a list of one item (which takes the
    sequential path also with [parallel] on) instead of returning the
    empty list, and for the three items with [parallel] off instead of
    returning the record of the first, which is lost (the claim: the
    failure removes only that item and never aborts the batch).  The
    parallel path, on the same three items, returns the record of the
    first. *)
Theorem sequential_enrichment_aborts_on_search_404 :
  let one := enrich_movies lost [film "Ghost" (Some 1990)] true 10 new_client in
  let sequential := enrich_movies lost demo_movies false 10 new_client in
  let parallel := enrich_movies lost demo_movies true 10 new_client in
  one.1 = Raise MovieNotFoundError
  /\ sequential.1 = Raise MovieNotFoundError
  /\ (exists enriched,
        parallel.1 = Ok [enriched]
        /\ tmdb_id (e_details enriched) = Some 238).
Proof.
  intros one sequential parallel. split; [vm_compute; reflexivity|].
  split; [vm_compute; reflexivity|].
  eexists. split; [vm_compute; reflexivity|]. reflexivity.
Qed.

(** ** Detail retrieval *)

Lemma details_key_inj i j : details_key i = details_key j -> i = j.
Proof.
  unfold details_key, _get_cache_key. simpl. intros H.
  apply (inj (String.app "details")) in H.
  apply (inj (String.app ":")) in H.
  by apply (inj pretty) in H.
Qed.

(** [get_movie_details], by cases: a cached record is returned as it is;
    otherwise one request is made, and its answer is extracted and cached,
    or, after an error, nothing is returned.  Nothing is raised. *)
Lemma get_movie_details_eq E i st :
  get_movie_details E i st =
  match cached_rec (details_key i) st with
  | Some d => (Ok (Some d), st)
  | None =>
      let st1 := log_call (details_rq i) st in
      match classify (net E (length (calls st)) (details_rq i)) with
      | Ok data =>
          let d := _extract_movie_info (b_movie data) in
          (Ok (Some d),
           {| cache := cache_set_rec (details_key i) d (cache st1);
              calls := calls st1; sleeps := sleeps st1 |})
      | Raise _ => (Ok None, st1)
      end
  end.
Proof.
  unfold get_movie_details. fold (details_key i).
  unfold bind at 1, _get_from_cache_rec, cached_rec.
  assert (forall o : option DetailRecord,
    (match cache st with
     | Some c => recs c !! details_key i
     | None => None
     end) = o ->
    (match cache st with
     | Some c => (Ok (recs c !! details_key i), st)
     | None => (Ok None, st)
     end) = (Ok o, st)) as Hget.
  { intros o <-. by destruct (cache st). }
  rewrite (Hget _ eq_refl). clear Hget.
  destruct (match cache st with
            | Some c => recs c !! details_key i
            | None => None
            end) as [d|]; [done|].
  unfold try_except, bind. rewrite make_request_eq. fold (details_rq i).
  destruct (classify_cases (net E (length (calls st)) (details_rq i)))
    as [[data ->]|[-> | ->]]; simpl; [|done|done].
  unfold _set_in_cache_rec, cache_set_rec. by destruct st as [[c|] ? ?].
Qed.

Section details.
Context (E : Env) (P : Z -> DetailRecord -> Prop).
Hypothesis P_net : forall k i data,
  classify (net E k (details_rq i)) = Ok data ->
  P i (_extract_movie_info (b_movie data)).

(** If what the provider sends for an id and what the cache holds for an
    id are good records for it, so is what [get_movie_details] returns,
    and the cache stays good. *)
Lemma get_movie_details_good i st :
  cache_good P st ->
  exists v,
    (get_movie_details E i st).1 = Ok v
    /\ (forall d, v = Some d -> P i d)
    /\ cache_good P (get_movie_details E i st).2.
Proof.
  intros Hgood. rewrite get_movie_details_eq.
  destruct (cached_rec (details_key i) st) as [d|] eqn:Hlook; simpl.
  { exists (Some d). split; [done|]. split; [|done]. intros ? [= <-].
    eauto. }
  destruct (classify (net E (length (calls st)) (details_rq i)))
    as [data|e] eqn:Hcl; simpl.
  - exists (Some (_extract_movie_info (b_movie data))). split; [done|].
    split; [intros ? [= <-]; eauto|].
    intros j d. unfold cached_rec. simpl.
    destruct (cache st) as [c|] eqn:Hc; simpl; [|done].
    destruct (decide (i = j)) as [->|Hne].
    + rewrite lookup_insert_eq. intros [= <-]. eauto.
    + rewrite lookup_insert_ne by (intros ?%details_key_inj; done).
      intros Hj. apply Hgood. unfold cached_rec. by rewrite Hc.
  - exists None. split; [done|]. split; [done|].
    intros j d. unfold cached_rec. simpl. apply Hgood.
Qed.

(** The futures of a list of candidates hold good records. *)
Lemma futures_good (candidates : list Candidate) : forall st,
  cache_good P st ->
  Forall (fun f : Candidate * result (option DetailRecord) =>
            exists v, f.2 = Ok v
              /\ forall d, v = Some d -> P (c_tmdb_id f.1) d)
         (details_futures E candidates st).1
  /\ cache_good P (details_futures E candidates st).2.
Proof.
  unfold details_futures.
  induction candidates as [|c l IH]; intros st Hgood; simpl; [by split|].
  destruct (get_movie_details_good (c_tmdb_id c) st Hgood)
    as (v & Hr & Hv & Hgood').
  destruct (get_movie_details E (c_tmdb_id c) st) as [r st1]. simpl in *.
  destruct (IH st1 Hgood') as [Hall Hend].
  destruct (futures_of _ l st1) as [fs st2]. simpl in *.
  split; [|done]. constructor; [|done]. simpl. eauto.
Qed.

End details.

Lemma details_futures_length E candidates st :
  length (details_futures E candidates st).1 = length candidates.
Proof.
  unfold details_futures. rewrite <-(length_fmap fst).
  by rewrite futures_of_items.
Qed.

Lemma new_client_from_extraction : cache_from_extraction new_client.
Proof. intros key d. unfold cached_rec. simpl. by rewrite lookup_empty. Qed.

Lemma new_client_keyed_by_id : cache_keyed_by_id new_client.
Proof. intros key d. unfold cached_rec. simpl. by rewrite lookup_empty. Qed.

(** In a record that [_extract_movie_info] made, and so in every record
    fetched from a cache of such records, [rating] is [vote_average]. *)
Lemma fetched_rating E candidates st d :
  cache_from_extraction st ->
  d ∈ fetched (details_futures E candidates st).1 ->
  rating d = vote_average d.
Proof.
  intros Hst Hd.
  destruct (futures_good E (fun _ d => rating d = vote_average d)
              ltac:(done) candidates st) as [Hall _].
  { intros i d' (p & ->)%Hst. done. }
  unfold fetched in Hd.
  apply list_elem_of_omap in Hd as ([c r] & Hin & Hrec).
  rewrite Forall_forall in Hall. destruct (Hall _ Hin) as (v & Hv & Hgood).
  unfold fetched_record in Hrec. simpl in *. subst r.
  destruct v as [d'|]; [|done]. injection Hrec as ->. by apply Hgood.
Qed.

(** ** The rating filter *)

Lemma omap_keep_candidate minr futures :
  omap (keep_candidate minr) futures =
  if rating_filter_on minr
  then filter (fun d => rating_ok minr d) (fetched futures)
  else fetched futures.
Proof.
  unfold fetched.
  induction futures as [|[c r] fs IH];
    [by destruct (rating_filter_on minr)|].
  change (omap (keep_candidate minr) ((c, r) :: fs))
    with (match keep_candidate minr (c, r) with
          | Some y => y :: omap (keep_candidate minr) fs
          | None => omap (keep_candidate minr) fs
          end).
  change (omap fetched_record ((c, r) :: fs))
    with (match fetched_record (c, r) with
          | Some y => y :: omap fetched_record fs
          | None => omap fetched_record fs
          end).
  rewrite IH. unfold keep_candidate, fetched_record. simpl.
  destruct r as [[d|]|e]; [|done|done].
  destruct (rating_filter_on minr); [|done].
  destruct (rating_ok minr d) eqn:Hok.
  - by rewrite filter_cons_True by (by apply Is_true_true).
  - by rewrite filter_cons_False by (intros ?%Is_true_true; congruence).
Qed.

(** The filter is on exactly for a positive [min_rating]. *)
Lemma rating_filter_on_pos m : (0 < m)%Q -> rating_filter_on (Some m) = true.
Proof.
  intros Hm. unfold rating_filter_on, truthy_num. simpl.
  assert (Qle_bool m 0 = false) as ->.
  { apply not_true_is_false. rewrite Qle_bool_iff. by apply Qlt_not_le. }
  assert (Qeq_bool m 0 = false) as ->; [|done].
  apply not_true_is_false. rewrite Qeq_bool_iff. intros Heq.
  rewrite Heq in Hm. by apply Qlt_irrefl in Hm.
Qed.

Lemma rating_filter_on_zero minr :
  minr = None \/ (exists m, minr = Some m /\ (m == 0)%Q) ->
  rating_filter_on minr = false.
Proof.
  intros [->|(m & -> & Hm)]; [done|].
  unfold rating_filter_on, truthy_num. simpl.
  apply Qeq_bool_iff in Hm. by rewrite Hm.
Qed.

(** The filter keeps a record when its rating is there, is not zero and
    is at least [m]. *)
Lemma rating_ok_spec m d :
  rating_ok (Some m) d = true <->
  exists r, rating d = Some r /\ ~ (r == 0)%Q /\ (m <= r)%Q.
Proof.
  unfold rating_ok, truthy_num. destruct (rating d) as [r|]; simpl.
  - rewrite andb_true_iff, negb_true_iff, Qle_bool_iff.
    split.
    + intros [Hne Hle]. exists r. split; [done|]. split; [|done].
      intros Heq%Qeq_bool_iff. congruence.
    + intros (r' & [= <-] & Hne & Hle). split; [|done].
      apply not_true_is_false. by rewrite Qeq_bool_iff.
  - split; [done|]. by intros (r & ? & _).
Qed.

Lemma keep_candidate_fetched minr f d :
  keep_candidate minr f = Some d -> f.2 = Ok (Some d).
Proof.
  unfold keep_candidate. destruct f.2 as [[d'|]|e]; [|done|done].
  destruct (rating_filter_on minr); [|congruence].
  destruct (rating_ok minr d'); [congruence|done].
Qed.

(** ** The seed loop *)

Lemma pool_inv_empty watched : pool_inv watched (∅, []).
Proof. repeat split; simpl; try set_solver. constructor. Qed.

Lemma add_candidates_inv watched found : forall acc,
  pool_inv watched acc -> pool_inv watched (add_candidates watched found acc).
Proof.
  unfold add_candidates.
  induction found as [|c found IH]; intros [ids l] Hinv; simpl; [done|].
  apply IH.
  destruct (bool_decide (c_tmdb_id c ∉ watched)) eqn:Hcw; simpl; [|done].
  destruct (bool_decide (c_tmdb_id c ∉ ids)) eqn:Hci; simpl; [|done].
  apply bool_decide_eq_true in Hcw, Hci.
  destruct Hinv as (Hnd & Hids & Hw). simpl in *.
  repeat split; simpl.
  - rewrite fmap_app. simpl. apply NoDup_app. split; [done|]. split.
    + intros i Hi [->|[]%elem_of_nil]%elem_of_cons. by apply Hids in Hi.
    + apply NoDup_singleton.
  - rewrite fmap_app, elem_of_app, elem_of_union, elem_of_singleton. simpl.
    rewrite list_elem_of_singleton, Hids. tauto.
  - rewrite fmap_app, elem_of_app, elem_of_union, elem_of_singleton. simpl.
    rewrite list_elem_of_singleton, Hids. tauto.
  - intros i [->%elem_of_singleton|Hi]%elem_of_union; auto.
Qed.

Lemma seed_loop_inv E watched cpm maxc seeds : forall acc st acc' st',
  pool_inv watched acc ->
  seed_loop E watched cpm maxc seeds acc st = (Ok acc', st') ->
  pool_inv watched acc'.
Proof.
  induction seeds as [|seed seeds IH]; intros acc st acc' st' Hinv; simpl.
  - by intros [= <- _].
  - destruct (truthy_int (tmdb_id (e_details seed))); simpl; [|by apply IH].
    unfold bind at 1.
    destruct (get_similar_movies _ _ _ _) as [[similar|e] st1]; [|done].
    unfold bind at 1.
    destruct (get_movie_recommendations _ _ _ _) as [[recs|e] st2]; [|done].
    destruct (_ >=? _).
    + intros [= <- _]. by do 2 apply add_candidates_inv.
    + apply IH. by do 2 apply add_candidates_inv.
Qed.

(** Once the count has reached the bound after a seed, the seeds that
    follow are not looked at: the loop ends as it would without them, in
    the same state, so with the same calls. *)
Lemma seed_loop_stops E watched cpm maxc pre :
  forall seed rest acc st acc' st',
  truthy_int (tmdb_id (e_details seed)) = true ->
  seed_loop E watched cpm maxc (pre ++ [seed]) acc st = (Ok acc', st') ->
  maxc <= Z.of_nat (length acc'.2) ->
  seed_loop E watched cpm maxc (pre ++ seed :: rest) acc st = (Ok acc', st').
Proof.
  induction pre as [|s pre IH]; intros seed rest acc st acc' st' Hid; simpl.
  - rewrite Hid. simpl. unfold bind at 1 3.
    destruct (get_similar_movies _ _ _ _) as [[similar|e] st1]; [|done].
    unfold bind at 1 2.
    destruct (get_movie_recommendations _ _ _ _) as [[recs|e] st2]; [|done].
    destruct (_ >=? _) eqn:Hge; [done|].
    intros [= <- <-]. lia.
  - destruct (truthy_int (tmdb_id (e_details s))); simpl; [|by apply IH].
    unfold bind at 1 3.
    destruct (get_similar_movies _ _ _ _) as [[similar|e] st1]; [|done].
    unfold bind at 1 2.
    destruct (get_movie_recommendations _ _ _ _) as [[recs|e] st2]; [|done].
    destruct (_ >=? _); [done|]. by apply IH.
Qed.

(** Gathering candidates leaves the cache alone. *)
Lemma neighbour_state E item st : (neighbour E item st).2 = st.
Proof.
  unfold neighbour, bind.
  destruct (truthy_str _); [|done]. by destruct (int_of_str E _).
Qed.

Lemma mapM_neighbour_state E items st : (mapM (neighbour E) items st).2 = st.
Proof.
  induction items as [|item items IH]; [done|]. simpl. unfold bind at 1.
  pose proof (neighbour_state E item st) as H1.
  destruct (neighbour E item st) as [[c|e] st1]; simpl in *; subst; [|done].
  unfold bind. destruct (mapM (neighbour E) items st) as [[cs|e] st2]; done.
Qed.

Lemma neighbours_state E ep n st :
  (neighbours E ep n st).2 = log_call (request_of ep []) st.
Proof.
  unfold neighbours, try_except, bind. rewrite make_request_eq.
  destruct (classify_cases (net E (length (calls st)) (request_of ep [])))
    as [[data ->]|[-> | ->]]; simpl; [|done|done].
  pose proof (mapM_neighbour_state E (slice_to n (b_results data))
                (log_call (request_of ep []) st)) as H.
  destruct (mapM _ _ _) as [[cs|e] st1]; simpl in *; subst; [done|].
  by destruct e.
Qed.

Lemma seed_loop_cache E watched cpm maxc seeds : forall acc st,
  cache (seed_loop E watched cpm maxc seeds acc st).2 = cache st.
Proof.
  induction seeds as [|seed seeds IH]; intros acc st; simpl; [done|].
  destruct (truthy_int (tmdb_id (e_details seed))); simpl; [|by apply IH].
  unfold bind at 1. unfold get_similar_movies.
  match goal with |- context [neighbours E ?ep ?n ?s] =>
    pose proof (neighbours_state E ep n s) as H1;
    destruct (neighbours E ep n s) as [[similar|e] st1] end;
    simpl in *; subst; [|done].
  unfold bind at 1. unfold get_movie_recommendations.
  match goal with |- context [neighbours E ?ep ?n ?s] =>
    pose proof (neighbours_state E ep n s) as H2;
    destruct (neighbours E ep n s) as [[recs|e] st2] end;
    simpl in *; subst; [|done].
  destruct (_ >=? _); [done|]. by rewrite IH.
Qed.

Lemma slice_to_take {A} (n : Z) (l : list A) :
  exists k, slice_to n l = take k l.
Proof. unfold slice_to. destruct (0 <=? n); eauto. Qed.

Lemma slice_to_length {A} (n : Z) (l : list A) :
  0 <= n -> Z.of_nat (length (slice_to n l)) <= n.
Proof.
  intros H. unfold slice_to. destruct (0 <=? n) eqn:Hn; [|lia].
  rewrite length_take. lia.
Qed.

(** ** The candidate pool *)

(** [build_candidate_pool] in stages: the seeds are gathered, the
    accumulated list is cut, details are fetched for what is left of it,
    each candidate once, and the collecting loop keeps some of the
    records, in some order. *)
Lemma build_candidate_pool_stages E watched cpm maxc minr st pool st' :
  build_candidate_pool E watched cpm maxc minr st = (Ok pool, st') ->
  exists acc st1,
    seed_loop E (watched_ids watched) cpm maxc watched (∅, []) st
      = (Ok acc, st1)
    /\ st' = (details_futures E (slice_to maxc acc.2) st1).2
    /\ pool ≡ₚ omap (keep_candidate minr)
                 (details_futures E (slice_to maxc acc.2) st1).1.
Proof.
  unfold build_candidate_pool, gather_candidates, bind.
  destruct (seed_loop _ _ _ _ _ _ _) as [[acc|e] st1] eqn:Hloop; [|done].
  destruct (batches_eq E
              (fun candidate => get_movie_details E (c_tmdb_id candidate))
              (keep_candidate minr) (slice_to maxc acc.2) 10 st1)
    as (starts & out & Hstarts & Hrun & Hperm); [lia|].
  unfold ret at 1. cbv beta iota. rewrite Hstarts.
  unfold collect_candidates.
  change (λ completed, omap (keep_candidate minr) completed)
    with (omap (M:=list) (keep_candidate minr)).
  rewrite Hrun. intros [= <- <-]. by exists acc, st1.
Qed.

(** The ids of the records kept from the futures of candidates are ids
    of candidates, in the order of the candidates. *)
Lemma kept_ids
    (keep : Candidate * result (option DetailRecord) -> option DetailRecord)
    futures :
  (forall f d, keep f = Some d -> f.2 = Ok (Some d)) ->
  Forall (fun f : Candidate * result (option DetailRecord) =>
            exists v, f.2 = Ok v
              /\ forall d, v = Some d -> tmdb_id d = Some (c_tmdb_id f.1))
         futures ->
  exists sub, sub `sublist_of` futures.*1
    /\ tmdb_id <$> omap keep futures = (fun c => Some (c_tmdb_id c)) <$> sub.
Proof.
  intros Hkeep.
  induction 1 as [|[c r] fs (v & Hv & Hid) _ (sub & Hsub & IH)].
  { exists []. split; [constructor|done]. }
  change (omap keep ((c, r) :: fs))
    with (match keep (c, r) with
          | Some y => y :: omap keep fs
          | None => omap keep fs
          end).
  destruct (keep (c, r)) as [d|] eqn:Hk.
  - exists (c :: sub). split; [by constructor|]. rewrite !fmap_cons, IH.
    apply Hkeep in Hk. simpl in Hk, Hv, Hid. f_equal. apply Hid. congruence.
  - exists sub. split; [by constructor|done].
Qed.

(** The candidates that go to the detail fetch: no id twice, and no
    watched id. *)
Lemma cut_candidates_inv E watched cpm maxc st acc st1 :
  seed_loop E (watched_ids watched) cpm maxc watched (∅, []) st
    = (Ok acc, st1) ->
  NoDup (c_tmdb_id <$> slice_to maxc acc.2)
  /\ (forall c, c ∈ slice_to maxc acc.2 ->
        c_tmdb_id c ∉ watched_ids watched).
Proof.
  intros Hloop.
  apply seed_loop_inv in Hloop as (Hnd & Hids & Hw); [|apply pool_inv_empty].
  destruct (slice_to_take maxc acc.2) as [k Hk]. rewrite Hk. split.
  - rewrite fmap_take. eapply sublist_NoDup; [|apply sublist_take]. done.
  - intros c Hc. apply Hw, Hids.
    apply list_elem_of_fmap. exists c. split; [done|].
    by apply (sublist_subseteq (take k acc.2) acc.2 (sublist_take _ _)).
Qed.

Lemma elem_of_watched_ids i watched :
  i ∈ watched_ids watched <->
  i <> 0 /\ exists w, w ∈ watched /\ tmdb_id (e_details w) = Some i.
Proof.
  unfold watched_ids. rewrite elem_of_list_to_set, list_elem_of_omap.
  split.
  - intros (w & Hw & Hid). unfold truthy_int in Hid.
    destruct (tmdb_id (e_details w)) as [z|] eqn:Hz; [|done].
    destruct (z =? 0) eqn:H0; simpl in Hid; [done|].
    injection Hid as ->. split; [lia|]. eauto.
  - intros (Hne & w & Hw & Hid). exists w. split; [done|].
    rewrite Hid. simpl. destruct (i =? 0) eqn:H0; [lia|]. done.
Qed.

Lemma seed_loop_cache_from_extraction E watched cpm maxc seeds acc st acc' st1 :
  cache_from_extraction st ->
  seed_loop E watched cpm maxc seeds acc st = (Ok acc', st1) ->
  cache_from_extraction st1.
Proof.
  intros Hst Hloop.
  pose proof (seed_loop_cache E watched cpm maxc seeds acc st) as Hc.
  rewrite Hloop in Hc. simpl in Hc.
  intros key d. unfold cached_rec. rewrite Hc. apply Hst.
Qed.

(** C7: for every watched list, when the provider answers a details
    request with the record of the id asked for and the cache holds
    records under their own ids (as it does from [new_client] on), the
    ids of the returned records are pairwise distinct and none of them is
    in the watched-id set, that is, none is the non-zero id of a watched
    item. *)
Theorem pool_disjoint_from_watched E watched cpm maxc minr st pool st' :
  echoes_id E ->
  cache_keyed_by_id st ->
  build_candidate_pool E watched cpm maxc minr st = (Ok pool, st') ->
  NoDup (tmdb_id <$> pool)
  /\ (forall d, d ∈ pool ->
        exists i, tmdb_id d = Some i /\ i ∉ watched_ids watched)
  /\ (forall d w i, d ∈ pool -> w ∈ watched ->
        tmdb_id (e_details w) = Some i -> i <> 0 -> tmdb_id d <> Some i).
Proof.
  intros Hnet Hst (acc & st1 & Hloop & -> & Hperm)%build_candidate_pool_stages.
  assert (cache_keyed_by_id st1) as Hst1.
  { pose proof (seed_loop_cache E (watched_ids watched) cpm maxc watched
                  (∅, []) st) as Hc.
    rewrite Hloop in Hc. simpl in Hc. intros i d. unfold cached_rec.
    rewrite Hc. apply Hst. }
  apply cut_candidates_inv in Hloop as (Hnd & Hw).
  destruct (futures_good E (fun i d => tmdb_id d = Some i)
              ltac:(intros k i data ?%classify_ok; by eapply Hnet)
              (slice_to maxc acc.2) st1 Hst1) as [Hall _].
  destruct (kept_ids (keep_candidate minr) _ (keep_candidate_fetched minr)
              Hall) as (sub & Hsub & Hids).
  unfold details_futures in Hsub. rewrite futures_of_items in Hsub.
  assert (forall d, d ∈ pool ->
            exists i, tmdb_id d = Some i /\ i ∉ watched_ids watched) as Hout.
  { intros d Hd. rewrite Hperm in Hd.
    assert (tmdb_id d ∈ tmdb_id <$> omap (keep_candidate minr)
              (details_futures E (slice_to maxc acc.2) st1).1) as Hin.
    { apply list_elem_of_fmap. eauto. }
    rewrite Hids in Hin. apply list_elem_of_fmap in Hin as (c & -> & Hc).
    exists (c_tmdb_id c). split; [done|]. apply Hw.
    by apply (sublist_subseteq _ _ Hsub). }
  split; [|split; [done|]].
  - rewrite Hperm, Hids.
    change ((fun c => Some (c_tmdb_id c)) <$> sub)
      with ((Some ∘ c_tmdb_id) <$> sub).
    rewrite list_fmap_compose. apply (NoDup_fmap_2 Some).
    eapply sublist_NoDup; [done|]. by apply fmap_sublist.
  - intros d w i Hd Hwin Hid Hne Heq.
    destruct (Hout d Hd) as (j & Hj & Hnotin).
    assert (j = i) as -> by congruence.
    apply Hnotin, elem_of_watched_ids. eauto.
Qed.

(** C8, counterexample: with the bound -1 the slice drops the last of
    the three candidates and two records are returned, more than the
    bound. *)
Lemma negative_bound_exceeded :
  let run := build_candidate_pool demo demo_watched 10 (-1) None new_client in
  (match run.1 with Ok pool => tmdb_id <$> pool | Raise _ => [] end)
    = [Some 3; Some 2]
  /\ ~ (match run.1 with
        | Ok pool => Z.of_nat (length pool) <= -1
        | Raise _ => True
        end).
Proof.
  intros run. split; [vm_compute; reflexivity|].
  vm_compute. intros H. apply H. reflexivity.
Qed.

(** C8, amended: for every bound that is not negative, the returned
    list is no longer than the bound: the accumulated candidates are cut
    to the bound before the details are fetched, the details are fetched
    for the candidates that are left and for no other, and the returned
    records are some of those.  And once the count has reached the bound
    after a seed, the seeds after it are not queried: gathering ends in
    the state, and so with the calls, of the loop over the seeds up to
    that one. *)
Theorem pool_size_bounded E watched cpm maxc minr st :
  0 <= maxc ->
  (forall pool st',
     build_candidate_pool E watched cpm maxc minr st = (Ok pool, st') ->
     Z.of_nat (length pool) <= maxc
     /\ exists acc st1,
          seed_loop E (watched_ids watched) cpm maxc watched (∅, []) st
            = (Ok acc, st1)
          /\ Z.of_nat (length (slice_to maxc acc.2)) <= maxc
          /\ st' = (details_futures E (slice_to maxc acc.2) st1).2
          /\ pool ≡ₚ omap (keep_candidate minr)
                       (details_futures E (slice_to maxc acc.2) st1).1)
  /\ (forall pre seed rest acc st1,
        watched = pre ++ seed :: rest ->
        truthy_int (tmdb_id (e_details seed)) = true ->
        seed_loop E (watched_ids watched) cpm maxc (pre ++ [seed]) (∅, []) st
          = (Ok acc, st1) ->
        maxc <= Z.of_nat (length acc.2) ->
        gather_candidates E watched cpm maxc st
          = (Ok (slice_to maxc acc.2), st1)).
Proof.
  intros Hmax. split.
  - intros pool st'
      (acc & st1 & Hloop & -> & Hperm)%build_candidate_pool_stages.
    pose proof (slice_to_length maxc acc.2 Hmax) as Hlen.
    split; [|by exists acc, st1].
    rewrite Hperm.
    pose proof (omap_length_le (keep_candidate minr)
                  (details_futures E (slice_to maxc acc.2) st1).1) as Hle.
    rewrite details_futures_length in Hle. lia.
  - intros pre seed rest acc st1 -> Hid Hloop Hge.
    unfold gather_candidates, bind.
    by rewrite (seed_loop_stops _ _ _ _ _ _ rest _ _ _ _ Hid Hloop Hge).
Qed.

(** C6, counterexample: with [min_rating] set to 0 the records of all
    three candidates come back, the one without a vote average and the
    one with the average 0 among them. *)
Lemma zero_min_rating_keeps_unrated :
  let run :=
    build_candidate_pool demo demo_watched 10 3 (Some 0%Q) new_client in
  (match run.1 with
   | Ok pool => (fun d => (tmdb_id d, vote_average d)) <$> pool
   | Raise _ => []
   end)
  = [(Some 4, Some 0%Q); (Some 3, None); (Some 2, Some (15 # 2)%Q)].
Proof. vm_compute. reflexivity. Qed.

(** C6, amended: if [min_rating] is set to a value greater than 0, every
    returned record has a vote average, and it is at least [min_rating];
    the returned records are, in some order, those fetched for the
    candidates left after the cut to [max_candidates] that pass the
    filter: nothing is fetched for further seeds to make up for a record
    that is dropped. *)
Theorem pool_rating_at_least E watched cpm maxc (m : Q) st pool st' :
  cache_from_extraction st ->
  (0 < m)%Q ->
  build_candidate_pool E watched cpm maxc (Some m) st = (Ok pool, st') ->
  (forall d, d ∈ pool -> exists r, vote_average d = Some r /\ (m <= r)%Q)
  /\ exists acc st1,
       seed_loop E (watched_ids watched) cpm maxc watched (∅, []) st
         = (Ok acc, st1)
       /\ st' = (details_futures E (slice_to maxc acc.2) st1).2
       /\ pool ≡ₚ filter (fun d => rating_ok (Some m) d)
                    (fetched (details_futures E (slice_to maxc acc.2) st1).1).
Proof.
  intros Hst Hm (acc & st1 & Hloop & -> & Hperm)%build_candidate_pool_stages.
  rewrite omap_keep_candidate, rating_filter_on_pos in Hperm by done.
  split; [|by exists acc, st1].
  intros d Hd. rewrite Hperm in Hd. apply list_elem_of_filter in Hd as [Hok Hd].
  apply Is_true_true, rating_ok_spec in Hok as (r & Hr & _ & Hle).
  exists r. split; [|done]. rewrite <-Hr. symmetry.
  eapply (fetched_rating E (slice_to maxc acc.2) st1); [|done].
  by eapply seed_loop_cache_from_extraction.
Qed.

(** C10: when [min_rating] is greater than 0, the returned records are
    those fetched that pass the filter, and each of them has a vote
    average that is not zero, however small [min_rating] is: a record
    whose vote average is missing or zero is dropped.  When [min_rating]
    is [None] or zero, the filter is off: all the fetched records are
    returned, those without a vote average or with the average zero
    among them. *)
Theorem rating_filter_gate E watched cpm maxc minr st pool st' :
  cache_from_extraction st ->
  build_candidate_pool E watched cpm maxc minr st = (Ok pool, st') ->
  exists acc st1,
    seed_loop E (watched_ids watched) cpm maxc watched (∅, []) st
      = (Ok acc, st1)
    /\ (forall m, minr = Some m -> (0 < m)%Q ->
          pool ≡ₚ filter (fun d => rating_ok minr d)
                    (fetched (details_futures E (slice_to maxc acc.2) st1).1)
          /\ forall d, d ∈ pool ->
               exists r, vote_average d = Some r /\ ~ (r == 0)%Q)
    /\ (minr = None \/ (exists m, minr = Some m /\ (m == 0)%Q) ->
          pool ≡ₚ fetched (details_futures E (slice_to maxc acc.2) st1).1).
Proof.
  intros Hst (acc & st1 & Hloop & -> & Hperm)%build_candidate_pool_stages.
  exists acc, st1. split; [done|].
  rewrite omap_keep_candidate in Hperm. split.
  - intros m -> Hm. rewrite rating_filter_on_pos in Hperm by done.
    split; [done|]. intros d Hd. rewrite Hperm in Hd.
    apply list_elem_of_filter in Hd as [Hok Hd].
    apply Is_true_true, rating_ok_spec in Hok as (r & Hr & Hne & _).
    exists r. split; [|done]. rewrite <-Hr. symmetry.
    eapply (fetched_rating E (slice_to maxc acc.2) st1); [|done].
    by eapply seed_loop_cache_from_extraction.
  - intros Hoff. by rewrite (rating_filter_on_zero _ Hoff) in Hperm.
Qed.

(** C7, counterexample: the id of a record is read from the payload and
    is never compared with the id that was asked for.  With a provider
    that answers the details request of every candidate with the record
    of the film 238, the pool built for the watched film 238 holds that
    record for each of the three candidates: a watched id is in the pool,
    and the ids of the pool are not distinct. *)
Lemma mislabelled_record_enters_pool :
  let watched := [watched_film 238] in
  let run := build_candidate_pool mislabelling watched 10 3 None new_client in
  (match run.1 with Ok pool => tmdb_id <$> pool | Raise _ => [] end)
    = [Some 238; Some 238; Some 238]
  /\ 238 ∈ watched_ids watched
  /\ ~ (match run.1 with
        | Ok pool =>
            NoDup (tmdb_id <$> pool)
            \/ forall d, d ∈ pool -> tmdb_id d <> Some 238
        | Raise _ => True
        end).
Proof.
  intros watched run.
  assert (run.1 = Ok (replicate 3
            (_extract_movie_info (demo_payload 238 (Some (87 # 10)%Q)))))
    as Hrun by (vm_compute; reflexivity).
  rewrite Hrun. split; [reflexivity|]. split.
  - apply elem_of_watched_ids. split; [lia|].
    exists (watched_film 238). split; [left|reflexivity].
  - intros [Hnd|Hout].
    + simpl in Hnd. apply NoDup_cons in Hnd as [Hnotin _].
      apply Hnotin. left.
    + apply (Hout (_extract_movie_info (demo_payload 238 (Some (87 # 10)%Q))));
        [left|reflexivity].
Qed.

(** The watched-id set holds the non-zero ids only: a watched item with
    the id 0 is not excluded.  With a provider that answers every
    details request with the record of the id asked for and lists the
    film 0 as similar to the film 238, the pool built for the watched
    films 238 and 0 holds the record of the film 0. *)
Lemma watched_zero_id_enters_pool :
  let watched := [watched_film 238; watched_film 0] in
  let run := build_candidate_pool zero_id watched 10 3 None new_client in
  echoes_id zero_id
  /\ (exists w, w ∈ watched /\ tmdb_id (e_details w) = Some 0)
  /\ (match run.1 with Ok pool => tmdb_id <$> pool | Raise _ => [] end)
     = [Some 0; Some 7].
Proof.
  intros watched run. split_and!.
  - intros k i body.
    change (net zero_id k (details_rq i)) with (zero_id_net k (details_rq i)).
    unfold zero_id_net. cbn [endpoint params details_rq request_of].
    destruct (String.eqb ("/movie/" +:+ str_int i) "/movie/7") eqn:H7.
    { apply String.eqb_eq in H7. change "/movie/7" with ("/movie/" +:+ str_int 7) in H7.
      apply (inj (String.app "/movie/")) in H7. apply (inj pretty) in H7.
      subst i. by intros [= <-]. }
    destruct (String.eqb ("/movie/" +:+ str_int i) "/movie/0") eqn:H0; [|done].
    apply String.eqb_eq in H0. change "/movie/0" with ("/movie/" +:+ str_int 0) in H0.
    apply (inj (String.app "/movie/")) in H0. apply (inj pretty) in H0.
    subst i. by intros [= <-].
  - exists (watched_film 0). split; [right; left|reflexivity].
  - vm_compute. reflexivity.
Qed.

(** ** The catalogue as a witness *)

Lemma movie_endpoint_not_search i :
  String.eqb ("/movie/" +:+ str_int i) "/search/movie" = false.
Proof. reflexivity. Qed.

(** The provider of the catalogue answers a details request with the
    record of the id asked for. *)
Lemma demo_echoes_id : echoes_id demo.
Proof.
  intros k i body.
  change (net demo k (details_rq i)) with (demo_net k (details_rq i)).
  unfold demo_net. cbn [endpoint params details_rq request_of].
  rewrite movie_endpoint_not_search.
  destruct (List.find _ catalog) as [[j average]|] eqn:Hfind; [|done].
  apply find_some in Hfind as [_ Heq]. simpl in Heq.
  apply String.eqb_eq in Heq.
  change (str_int i = str_int j) in Heq.
  apply (inj pretty) in Heq. subst j.
  by intros [= <-].
Qed.

Lemma pool_disjoint_from_watched_witness :
  exists pool st',
    build_candidate_pool demo demo_watched 10 3 None new_client
      = (Ok pool, st')
    /\ NoDup (tmdb_id <$> pool)
    /\ (forall d, d ∈ pool ->
          exists i, tmdb_id d = Some i /\ i ∉ watched_ids demo_watched)
    /\ (forall d w i, d ∈ pool -> w ∈ demo_watched ->
          tmdb_id (e_details w) = Some i -> i <> 0 -> tmdb_id d <> Some i).
Proof.
  destruct (build_candidate_pool demo demo_watched 10 3 None new_client)
    as [[pool|e] st'] eqn:Hrun; [|vm_compute in Hrun; discriminate Hrun].
  exists pool, st'. split; [reflexivity|].
  apply (pool_disjoint_from_watched demo demo_watched 10 3 None new_client
           pool st').
  - apply demo_echoes_id.
  - apply new_client_keyed_by_id.
  - exact Hrun.
Defined.

Lemma pool_size_bounded_witness :
  0 <= 3
  /\ (exists pool st',
        build_candidate_pool demo demo_watched 10 3 None new_client
          = (Ok pool, st')
        /\ Z.of_nat (length pool) <= 3)
  /\ (exists acc st1,
        seed_loop demo (watched_ids demo_watched) 10 3 [watched_film 238]
          (∅, []) new_client = (Ok acc, st1)
        /\ 3 <= Z.of_nat (length acc.2)
        /\ gather_candidates demo demo_watched 10 3 new_client
           = (Ok (slice_to 3 acc.2), st1)).
Proof.
  pose proof (pool_size_bounded demo demo_watched 10 3 None new_client
                ltac:(lia)) as [Hsize Hstop].
  split; [lia|]. split.
  - destruct (build_candidate_pool demo demo_watched 10 3 None new_client)
      as [[pool|e] st'] eqn:Hrun; [|vm_compute in Hrun; discriminate Hrun].
    exists pool, st'. split; [reflexivity|].
    by destruct (Hsize pool st' eq_refl) as [Hlen _].
  - destruct (seed_loop demo (watched_ids demo_watched) 10 3
                [watched_film 238] (∅, []) new_client)
      as [[acc|e] st1] eqn:Hloop; [|vm_compute in Hloop; discriminate Hloop].
    exists acc, st1. split; [reflexivity|].
    assert (3 <= Z.of_nat (length acc.2)) as Hge.
    { assert (length acc.2 = 3%nat) as ->; [|lia].
      change acc with (match (Ok acc, st1).1 with
                       | Ok a => a
                       | Raise _ => (∅, [])
                       end).
      rewrite <-Hloop. vm_compute. reflexivity. }
    split; [exact Hge|].
    apply (Hstop [] (watched_film 238) [watched_film 5] acc st1);
      [reflexivity|reflexivity|exact Hloop|exact Hge].
Defined.

Lemma pool_rating_at_least_witness :
  exists pool st',
    build_candidate_pool demo demo_watched 10 3 (Some 7%Q) new_client
      = (Ok pool, st')
    /\ forall d, d ∈ pool ->
         exists r, vote_average d = Some r /\ (7 <= r)%Q.
Proof.
  destruct (build_candidate_pool demo demo_watched 10 3 (Some 7%Q)
              new_client)
    as [[pool|e] st'] eqn:Hrun; [|vm_compute in Hrun; discriminate Hrun].
  exists pool, st'. split; [reflexivity|].
  apply (pool_rating_at_least demo demo_watched 10 3 7%Q new_client pool st').
  - apply new_client_from_extraction.
  - reflexivity.
  - exact Hrun.
Defined.

Lemma rating_filter_gate_witness :
  exists pool st',
    build_candidate_pool demo demo_watched 10 3 None new_client
      = (Ok pool, st')
    /\ exists acc st1,
         seed_loop demo (watched_ids demo_watched) 10 3 demo_watched
           (∅, []) new_client = (Ok acc, st1)
         /\ pool ≡ₚ fetched (details_futures demo (slice_to 3 acc.2) st1).1.
Proof.
  destruct (build_candidate_pool demo demo_watched 10 3 None new_client)
    as [[pool|e] st'] eqn:Hrun; [|vm_compute in Hrun; discriminate Hrun].
  exists pool, st'. split; [reflexivity|].
  destruct (rating_filter_gate demo demo_watched 10 3 None new_client
              pool st' new_client_from_extraction Hrun)
    as (acc & st1 & Hloop & _ & Hoff).
  exists acc, st1. split; [exact Hloop|]. apply Hoff. by left.
Defined.

(** In the catalogue: 238 has the neighbours 2, 3 and 4 (and itself,
    which is watched); with the bound 3 the second seed is not queried;
    a minimum of 7 leaves the one film rated 7.5; without a minimum the
    three are returned, the last completed first. *)
Example pool_demo :
  let run minr :=
    build_candidate_pool demo demo_watched 10 3 minr new_client in
  let ids_of (x : result (list DetailRecord) * Client) :=
    match x.1 with Ok pool => tmdb_id <$> pool | Raise _ => [] end in
  ids_of (run None) = [Some 4; Some 3; Some 2]
  /\ ids_of (run (Some 7%Q)) = [Some 2]
  /\ endpoint <$> calls (run None).2
     = ["/movie/238/similar"; "/movie/238/recommendations";
        "/movie/2"; "/movie/3"; "/movie/4"].
Proof. repeat split; vm_compute; reflexivity. Qed.

(** * Further properties of the client *)

(** ** Fuzzy matching *)

Lemma fuzzy_step_eq t y thr bm bs r :
  fuzzy_step (_normalize_title t) y thr (bm, bs) r =
  if negb (Qle_bool (fuzzy_score t y r) bs) && Qle_bool thr (fuzzy_score t y r)
  then (Some (r_id r), fuzzy_score t y r) else (bm, bs).
Proof.
  unfold fuzzy_step, fuzzy_score.
  destruct (truthy_int y); cbn [andb]; [|done].
  by destruct (truthy_str _ && String.eqb _ _).
Qed.

Lemma fuzzy_loop t y thr l2 : forall l1 acc,
  fuzzy_inv t y thr l1 acc ->
  fuzzy_inv t y thr (l1 ++ l2)
    (foldl (fuzzy_step (_normalize_title t) y thr) acc l2).
Proof.
  induction l2 as [|r l2 IH]; intros l1 acc Hinv; simpl.
  { by rewrite app_nil_r. }
  replace (l1 ++ r :: l2) with ((l1 ++ [r]) ++ l2) by by rewrite <-app_assoc.
  apply IH. destruct acc as [bm bs]. rewrite fuzzy_step_eq.
  unfold fuzzy_inv in *. simpl in *.
  destruct (Qle_bool (fuzzy_score t y r) bs) eqn:Hle; simpl.
  - (* not better than the best so far *)
    apply Qle_bool_iff in Hle.
    destruct bm as [id|]; simpl.
    + destruct Hinv as (i & r0 & Hi & Hid & -> & Hp & Hmax & Hfirst).
      exists i, r0. split_and!; try done.
      * by apply lookup_app_l_Some.
      * intros j r' [Hj|[_ Hj]]%lookup_app_Some; [by eapply Hmax|].
        destruct (j - length l1)%nat; simplify_eq/=. done.
      * intros j r' Hlt [Hj|[Hge Hj]]%lookup_app_Some; [by eapply Hfirst|].
        apply lookup_lt_Some in Hi. lia.
    + destruct Hinv as [-> Hall]. split; [done|].
      apply Forall_app. split; [done|]. apply Forall_singleton.
      intros [_ Hpos]. apply Qlt_not_le in Hpos. done.
  - assert (bs < fuzzy_score t y r)%Q as Hlt.
    { apply Qnot_le_lt. intros ?%Qle_bool_iff. congruence. }
    destruct (Qle_bool thr (fuzzy_score t y r)) eqn:Hthr; simpl.
    + (* a new best *)
      apply Qle_bool_iff in Hthr.
      assert (0 <= bs)%Q as Hbs.
      { destruct bm; simpl in *.
        - destruct Hinv as (i & r0 & _ & _ & -> & [_ ?] & _).
          by apply Qlt_le_weak.
        - destruct Hinv as [-> _]. apply Qle_refl. }
      exists (length l1), r. split_and!; try done.
      * by rewrite lookup_app_r, Nat.sub_diag by lia.
      * split; [done|]. eapply Qle_lt_trans; done.
      * intros j r' [Hj|[_ Hj]]%lookup_app_Some.
        -- destruct bm as [id|]; simpl in *.
           ++ destruct Hinv as (i & r0 & _ & _ & -> & _ & Hmax & _).
              apply Qlt_le_weak. eapply Qle_lt_trans; [by eapply Hmax|done].
           ++ destruct Hinv as [-> Hall].
              rewrite Forall_forall in Hall.
              apply list_elem_of_lookup_2 in Hj. specialize (Hall _ Hj).
              destruct (Qlt_le_dec (fuzzy_score t y r) (fuzzy_score t y r'))
                as [Hc|]; [|done].
              exfalso. apply Hall. split.
              ** apply Qlt_le_weak. eapply Qle_lt_trans; done.
              ** eapply Qlt_trans; done.
        -- destruct (j - length l1)%nat; simplify_eq/=. apply Qle_refl.
      * intros j r' Hj Hl. rewrite lookup_app_l in Hl by done.
        destruct bm as [id|]; simpl in *.
        -- destruct Hinv as (i & r0 & _ & _ & -> & _ & Hmax & _).
           eapply Qle_lt_trans; [by eapply Hmax|done].
        -- destruct Hinv as [-> Hall].
           rewrite Forall_forall in Hall.
           apply list_elem_of_lookup_2 in Hl. specialize (Hall _ Hl).
           destruct (Qlt_le_dec (fuzzy_score t y r') (fuzzy_score t y r))
             as [|Hc]; [done|].
           exfalso. apply Hall. split.
           ++ eapply Qle_trans; done.
           ++ eapply Qlt_le_trans; done.
    + (* below the threshold *)
      assert (~ (thr <= fuzzy_score t y r)%Q) as Hno.
      { intros ?%Qle_bool_iff. congruence. }
      destruct bm as [id|]; simpl in *.
      * destruct Hinv as (i & r0 & Hi & Hid & -> & Hp & Hmax & Hfirst).
        exfalso. apply Hno. destruct Hp as [Hp _].
        apply Qlt_le_weak. eapply Qle_lt_trans; done.
      * destruct Hinv as [-> Hall]. split; [done|].
        apply Forall_app. split; [done|]. apply Forall_singleton.
        intros [? _]. done.
Qed.

Lemma lcs_le_l s : forall t, (lcs s t <= String.length s)%nat.
Proof.
  induction s as [|a s IH]; intros t; [simpl; lia|].
  induction t as [|b t IHt]; [simpl; lia|].
  change (lcs (String a s) (String b t))
    with (if Ascii.eqb a b then S (lcs s t)
          else Nat.max (lcs s (String b t)) (lcs (String a s) t)).
  destruct (Ascii.eqb a b).
  - specialize (IH t). simpl. lia.
  - specialize (IH (String b t)). simpl in *. lia.
Qed.

Lemma lcs_le_r s : forall t, (lcs s t <= String.length t)%nat.
Proof.
  induction s as [|a s IH]; intros t; [simpl; lia|].
  induction t as [|b t IHt]; [simpl; lia|].
  change (lcs (String a s) (String b t))
    with (if Ascii.eqb a b then S (lcs s t)
          else Nat.max (lcs s (String b t)) (lcs (String a s) t)).
  destruct (Ascii.eqb a b).
  - specialize (IH t). simpl. lia.
  - specialize (IH (String b t)). simpl in *. lia.
Qed.

Lemma lcs_self s : lcs s s = String.length s.
Proof.
  induction s as [|a s IH]; [done|].
  change (lcs (String a s) (String a s))
    with (if Ascii.eqb a a then S (lcs s s)
          else Nat.max (lcs s (String a s)) (lcs (String a s) s)).
  rewrite Ascii.eqb_refl, IH. done.
Qed.

(** The similarity is a percentage, and 100 for equal strings. *)
Lemma fuzz_ratio_range s t : (0 <= fuzz_ratio s t <= 100)%Q.
Proof.
  unfold fuzz_ratio.
  destruct (String.length s + String.length t)%nat as [|n] eqn:Hlen.
  { split; unfold Qle; simpl; lia. }
  pose proof (lcs_le_l s t). pose proof (lcs_le_r s t).
  split; unfold Qle; simpl; lia.
Qed.

Lemma fuzz_ratio_self s : (fuzz_ratio s s == 100)%Q.
Proof.
  unfold fuzz_ratio.
  destruct (String.length s + String.length s)%nat as [|n] eqn:Hlen; [done|].
  rewrite lcs_self. unfold Qeq. simpl. lia.
Qed.

Lemma fuzzy_match_inv t results y thr :
  exists acc,
    _fuzzy_match_title t results y thr = acc.1
    /\ fuzzy_inv t y thr (take 10 results) acc.
Proof.
  destruct results as [|r0 results].
  { exists (None, 0%Q). split; [done|]. by split. }
  exists (foldl (fuzzy_step (_normalize_title t) y thr) (None, 0%Q)
            (take 10 (r0 :: results))).
  split; [done|].
  apply (fuzzy_loop t y thr (take 10 (r0 :: results)) []). by split.
Qed.

Lemma fuzzy_match_take t results y thr :
  _fuzzy_match_title t (take 10 results) y thr
  = _fuzzy_match_title t results y thr.
Proof.
  destruct results as [|r results]; [done|].
  unfold _fuzzy_match_title, slice_to.
  change (0 <=? 10) with true. change (Z.to_nat 10) with 10%nat.
  cbv iota. by rewrite take_take.
Qed.

(** X1 (_fuzzy_match_title): only the ten leading results are looked at,
    and a match is the id of one of them.  A match found at a threshold
    is also the match at every lower threshold: lowering the threshold
    can turn no match into a match, but it never changes a match. *)
Theorem lower_threshold_keeps_the_match (search_title : string)
    (results : list SearchItem) (year : option Z) (threshold threshold' : Q)
    (id : Z) :
  (threshold' <= threshold)%Q ->
  _fuzzy_match_title search_title results year threshold = Some id ->
  _fuzzy_match_title search_title results year threshold' = Some id
  /\ _fuzzy_match_title search_title (take 10 results) year threshold
     = Some id
  /\ exists r, r ∈ take 10 results /\ r_id r = id.
Proof.
  intros Hle Hmatch.
  split; [|split; [by rewrite fuzzy_match_take|]].
  2: { destruct (fuzzy_match_inv search_title results year threshold)
         as ([bm bs] & Heq & Hinv).
       rewrite Hmatch in Heq. simpl in Heq. subst bm.
       unfold fuzzy_inv in Hinv. simpl in Hinv.
       destruct Hinv as (i & r & Hi & Hid & _). exists r. split; [|done].
       by apply list_elem_of_lookup_2 in Hi. }
  destruct (fuzzy_match_inv search_title results year threshold)
    as ([bm bs] & Heq & Hinv).
  rewrite Hmatch in Heq. simpl in Heq. subst bm.
  unfold fuzzy_inv in Hinv. simpl in Hinv.
  destruct Hinv as (i & r & Hi & Hid & _ & [Hthr Hpos] & Hmax & Hfirst).
  destruct (fuzzy_match_inv search_title results year threshold')
    as ([bm' bs'] & -> & Hinv').
  unfold fuzzy_inv in Hinv'. simpl in *. destruct bm' as [id'|].
  - destruct Hinv' as (i' & r' & Hi' & Hid' & _ & _ & Hmax' & Hfirst').
    destruct (Nat.lt_trichotomy i i') as [Hlt|[Heq|Hlt]].
    + specialize (Hfirst' i r Hlt Hi). specialize (Hmax i' r' Hi').
      exfalso. eapply Qlt_not_le; done.
    + subst i'. rewrite Hi in Hi'. injection Hi' as <-. congruence.
    + specialize (Hfirst i' r' Hlt Hi'). specialize (Hmax' i r Hi).
      exfalso. eapply Qlt_not_le; done.
  - destruct Hinv' as [_ Hall]. rewrite Forall_forall in Hall.
    apply list_elem_of_lookup_2 in Hi. destruct (Hall r Hi).
    split; [|done]. eapply Qle_trans; done.
Qed.

Lemma lower_threshold_keeps_the_match_witness :
  let results := [item 9 "Godfather Part II" "1974-12-20";
                  item 238 "Godfather" "1972-03-14"] in
  _fuzzy_match_title "The Godfather" results (Some 1972) 85 = Some 238
  /\ _fuzzy_match_title "The Godfather" results (Some 1972) 75 = Some 238
  /\ _fuzzy_match_title "The Godfather" (take 10 results) (Some 1972) 85
     = Some 238
  /\ exists r, r ∈ take 10 results /\ r_id r = 238.
Proof.
  intros results. split; [reflexivity|].
  apply (lower_threshold_keeps_the_match "The Godfather" results (Some 1972)
           85 75 238).
  - unfold Qle. simpl. lia.
  - reflexivity.
Defined.

(** X2 (_fuzzy_match_title): a result among the ten leading ones whose
    title normalises to the same text as the searched title scores at
    least 100, so for every threshold up to 100 there is a match, and the
    matched result scores at least 100 too. *)
Theorem equal_normalized_title_is_matched (search_title : string)
    (results : list SearchItem) (year : option Z) (threshold : Q)
    (r : SearchItem) :
  r ∈ take 10 results ->
  _normalize_title (r_title r) = _normalize_title search_title ->
  (threshold <= 100)%Q ->
  (100 <= fuzzy_score search_title year r)%Q
  /\ exists i r',
       take 10 results !! i = Some r'
       /\ _fuzzy_match_title search_title results year threshold
          = Some (r_id r')
       /\ (100 <= fuzzy_score search_title year r')%Q.
Proof.
  intros Hr Heq Hthr.
  assert (100 <= fuzzy_score search_title year r)%Q as Hscore.
  { unfold fuzzy_score. rewrite Heq.
    pose proof (fuzz_ratio_self (_normalize_title search_title)) as Hself.
    cbv zeta. destruct (truthy_int year && _); rewrite Hself; [|done].
    unfold Qle. simpl. lia. }
  split; [done|].
  destruct (fuzzy_match_inv search_title results year threshold)
    as ([bm bs] & -> & Hinv).
  unfold fuzzy_inv in Hinv. simpl in *. destruct bm as [id|].
  - destruct Hinv as (i & r' & Hi & <- & _ & _ & Hmax & _).
    exists i, r'. split_and!; [done..|].
    apply list_elem_of_lookup_1 in Hr as [j Hj].
    eapply Qle_trans; [exact Hscore|]. by eapply Hmax.
  - destruct Hinv as [_ Hall]. rewrite Forall_forall in Hall.
    destruct (Hall r Hr). split.
    + eapply Qle_trans; done.
    + eapply Qlt_le_trans; [|exact Hscore]. done.
Qed.

Lemma equal_normalized_title_is_matched_witness :
  let results := [item 9 "Godfather Part II" "1974-12-20";
                  item 238 "Godfather" "1972-03-14"] in
  let year := Some 1972 in
  let r := item 238 "Godfather" "1972-03-14" in
  (100 <= fuzzy_score "The Godfather" year r)%Q
  /\ exists i r',
       take 10 results !! i = Some r'
       /\ _fuzzy_match_title "The Godfather" results year 85
          = Some (r_id r')
       /\ (100 <= fuzzy_score "The Godfather" year r')%Q.
Proof.
  apply (equal_normalized_title_is_matched "The Godfather"
           [item 9 "Godfather Part II" "1974-12-20";
            item 238 "Godfather" "1972-03-14"]
           (Some 1972) 85 (item 238 "Godfather" "1972-03-14")).
  - simpl. apply list_elem_of_further, list_elem_of_here.
  - reflexivity.
  - unfold Qle. simpl. lia.
Defined.

(** ** Normalised titles *)

(** X3 (_normalize_title): a normalised title holds only the letters
    [a-z], digits and spaces, its words are separated by single spaces
    with no space at either end (joining its words gives it back), and
    lower-casing it or removing special characters from it changes
    nothing: a second normalisation can only strip one more article. *)
Theorem normalized_title_is_canonical (x : string) :
  let n := _normalize_title x in
  Str.forallb clean_char n = true
  /\ Forall word (Str.split n)
  /\ Str.join (Str.split n) = n
  /\ Str.lower n = n
  /\ sub_special n = n.
Proof.
  intros n. subst n.
  destruct (normalize_words x) as (ws & Hws & ->).
  rewrite split_join by done.
  split_and!; auto using join_clean, lower_join, sub_special_join.
Qed.

(** ** Cache keys *)

Lemma app_inv_tail_str (u : string) : forall s1 s2 : string,
  s1 +:+ u = s2 +:+ u -> s1 = s2.
Proof.
  assert (forall s : string,
            String.length (s +:+ u) = (String.length s + String.length u)%nat)
    as Hlen.
  { induction s as [|c s IH]; [done|]. rewrite app_cons. simpl. by rewrite IH. }
  induction s1 as [|a s1 IH]; intros [|b s2] Heq; [done| | |].
  - apply (f_equal String.length) in Heq. rewrite !Hlen in Heq.
    simpl in Heq. lia.
  - apply (f_equal String.length) in Heq. rewrite !Hlen in Heq.
    simpl in Heq. lia.
  - rewrite !app_cons in Heq. injection Heq as -> Heq. f_equal. by apply IH.
Qed.

(** The text after the last underscore determines the text before it. *)
Lemma split_last_underscore (d1 d2 : string) : forall t1 t2 : string,
  Str.forallb not_underscore d1 = true ->
  Str.forallb not_underscore d2 = true ->
  t1 +:+ String "_" d1 = t2 +:+ String "_" d2 ->
  t1 = t2 /\ d1 = d2.
Proof.
  intros t1 t2 H1 H2.
  assert (forall (t d : string),
            Str.forallb not_underscore (t +:+ String "_" d) = false)
    as Hno.
  { intros t d. rewrite forallb_app. simpl. apply andb_false_r. }
  revert t2. induction t1 as [|a t1 IH]; intros [|b t2] Heq.
  - change ("" +:+ String "_" d1) with (String "_" d1) in Heq.
    change ("" +:+ String "_" d2) with (String "_" d2) in Heq.
    by injection Heq as ->.
  - change ("" +:+ String "_" d1) with (String "_" d1) in Heq.
    rewrite app_cons in Heq. injection Heq as <- ->.
    rewrite Hno in H1. done.
  - change ("" +:+ String "_" d2) with (String "_" d2) in Heq.
    rewrite app_cons in Heq. injection Heq as -> <-.
    rewrite Hno in H2. done.
  - rewrite !app_cons in Heq. injection Heq as -> Heq.
    destruct (IH _ Heq) as [-> ->]. done.
Qed.

Lemma pretty_N_char_digit x : Str.is_digit (pretty_N_char x) = true.
Proof. unfold pretty_N_char. by repeat case_match. Qed.

Lemma pretty_N_go_digits x : forall s,
  Str.forallb Str.is_digit s = true ->
  Str.forallb Str.is_digit (pretty_N_go x s) = true.
Proof.
  induction (N.lt_wf_0 x) as [x _ IH]; intros s Hs.
  assert (x = 0 \/ 0 < x)%N as [->|?] by lia.
  - by rewrite pretty_N_go_0.
  - rewrite pretty_N_go_step by done. apply IH.
    { by apply N.div_lt. }
    simpl. by rewrite pretty_N_char_digit.
Qed.

Lemma pretty_N_digits (x : N) : Str.forallb Str.is_digit (pretty x) = true.
Proof.
  unfold pretty, pretty_N. case_decide; [done|].
  by apply pretty_N_go_digits.
Qed.

(** [str(year)] holds digits and at most a sign. *)
Lemma str_int_chars z : Str.forallb year_char (str_int z) = true.
Proof.
  assert (forall p : positive,
            Str.forallb year_char (pretty (N.pos p)) = true) as Hpos.
  { intros p. eapply forallb_impl; [|apply pretty_N_digits].
    intros c Hc. unfold year_char. by rewrite Hc. }
  unfold str_int, pretty, pretty_Z. destruct z as [|p|p]; [done|apply Hpos|].
  change ("-" +:+ pretty p) with (String "-" (pretty p)).
  simpl. apply Hpos.
Qed.

Lemma str_int_no_underscore z :
  Str.forallb not_underscore (str_int z) = true.
Proof.
  eapply forallb_impl; [|apply str_int_chars].
  intros c. unfold year_char, not_underscore, Str.is_digit, Str.in_range.
  destruct c as [[] [] [] [] [] [] [] []]; done.
Qed.

Lemma search_key_eq t y :
  search_key t y = "search:" +:+ (t +:+ String "_" (str (year_or_sentinel y))).
Proof. done. Qed.

Lemma search_key_inj t1 y1 t2 y2 :
  search_key t1 y1 = search_key t2 y2 ->
  t1 = t2 /\ year_or_sentinel y1 = year_or_sentinel y2.
Proof.
  rewrite !search_key_eq.
  change ("search:" +:+ ?s) with (String "s" (String "e" (String "a"
    (String "r" (String "c" (String "h" (String ":" s))))))).
  intros [= Heq]. revert Heq. unfold year_or_sentinel.
  destruct (truthy_int y1) eqn:Hy1, (truthy_int y2) eqn:Hy2; simpl; intros Heq.
  - apply split_last_underscore in Heq
      as [-> Heq]; auto using str_int_no_underscore.
    apply (inj pretty) in Heq. by rewrite Heq.
  - change (String "_" "no_year") with ("_no" +:+ String "_" "year") in Heq.
    rewrite <-app_assoc_str in Heq.
    apply split_last_underscore in Heq
      as [_ Heq]; auto using str_int_no_underscore.
    pose proof (str_int_chars (default 0 y1)) as Hc. rewrite Heq in Hc. done.
  - change (String "_" "no_year") with ("_no" +:+ String "_" "year") in Heq.
    rewrite <-app_assoc_str in Heq.
    apply split_last_underscore in Heq
      as [_ Heq]; auto using str_int_no_underscore.
    pose proof (str_int_chars (default 0 y2)) as Hc. rewrite <-Heq in Hc. done.
  - apply app_inv_tail_str in Heq as ->. done.
Qed.

(** X4 (_get_cache_key): the cache keys do not collide.  Two resolutions
    use the same [search:] entry exactly when their titles are equal as
    given and [year or 'no_year'] is the same for both (a missing year
    and the year 0 are not told apart); two ids use the same [details:]
    entry only when they are equal; and no [search:] key is a
    [details:] key, whatever the title. *)
Theorem cache_keys_do_not_collide :
  (forall t1 y1 t2 y2,
     _get_cache_key "search" [KStr t1; year_or_sentinel y1]
       = _get_cache_key "search" [KStr t2; year_or_sentinel y2]
     <-> t1 = t2 /\ year_or_sentinel y1 = year_or_sentinel y2)
  /\ (forall i j,
        _get_cache_key "details" [KInt i] = _get_cache_key "details" [KInt j]
        <-> i = j)
  /\ (forall t y i,
        _get_cache_key "search" [KStr t; year_or_sentinel y]
          <> _get_cache_key "details" [KInt i])
  /\ year_or_sentinel None = year_or_sentinel (Some 0).
Proof.
  split_and!.
  - intros t1 y1 t2 y2. split; [apply search_key_inj|].
    by intros [-> ->].
  - intros i j. split; [apply details_key_inj|]. by intros ->.
  - intros t y i. discriminate.
  - done.
Qed.

(** ** Detail extraction *)

Lemma find_split {A} (f : A -> bool) (l : list A) :
  match List.find f l with
  | Some x =>
      exists pre post,
        l = pre ++ x :: post /\ f x = true
        /\ Forall (fun y => f y = false) pre
  | None => Forall (fun y => f y = false) l
  end.
Proof.
  induction l as [|a l IH]; simpl; [done|].
  destruct (f a) eqn:Hfa.
  - by exists [], l.
  - destruct (List.find f l) as [x|].
    + destruct IH as (pre & post & -> & ? & ?).
      exists (a :: pre), post. by repeat constructor.
    + by constructor.
Qed.

Lemma no_us_entry_find (l : list CountryReleases) :
  Forall (fun country_data =>
            bool_decide (iso_3166_1 country_data = Some "US") = false) l ->
  no_us_entry l.
Proof.
  intros H. eapply Forall_impl; [exact H|].
  intros c Hc. simpl in Hc. by apply bool_decide_eq_false in Hc.
Qed.

(** X5 (_extract_movie_info): the certification of a record is the last
    non-empty certification of the first [US] entry of the release dates,
    and never the empty string; the record has none when there is no [US]
    entry or when the first one has no non-empty certification, whatever
    later [US] entries hold. *)
Theorem certification_is_last_of_first_us_entry (p : Payload) :
  match certification (_extract_movie_info p) with
  | Some cert =>
      cert <> ""
      /\ exists pre country_data post before after,
           p_release_dates p = pre ++ country_data :: post
           /\ no_us_entry pre
           /\ iso_3166_1 country_data = Some "US"
           /\ release_dates country_data = before ++ Some cert :: after
           /\ Forall (fun rd => truthy_str rd = false) after
  | None =>
      no_us_entry (p_release_dates p)
      \/ exists pre country_data post,
           p_release_dates p = pre ++ country_data :: post
           /\ no_us_entry pre
           /\ iso_3166_1 country_data = Some "US"
           /\ Forall (fun rd => truthy_str rd = false)
                     (release_dates country_data)
  end.
Proof.
  change (certification (_extract_movie_info p))
    with (us_certification (p_release_dates p)).
  unfold us_certification.
  pose proof (find_split
    (fun country_data => bool_decide (iso_3166_1 country_data = Some "US"))
    (p_release_dates p)) as Hfind.
  destruct (List.find _ (p_release_dates p)) as [country_data|].
  - destruct Hfind as (pre & post & Hl & Hus%bool_decide_eq_true
                       & Hpre%no_us_entry_find).
    pose proof (find_split truthy_str (reverse (release_dates country_data)))
      as Hcert.
    destruct (List.find truthy_str _) as [[cert|]|]; simpl.
    + destruct Hcert as (pre' & post' & Hrev & Htruthy & Hafter).
      split; [by destruct cert|].
      exists pre, country_data, post, (reverse post'), (reverse pre').
      split_and!; [done..| |].
      * rewrite <-(reverse_involutive (release_dates country_data)), Hrev.
        by rewrite reverse_app, reverse_cons, <-app_assoc.
      * by apply Forall_reverse.
    + by destruct Hcert as (? & ? & _ & ? & _).
    + right. exists pre, country_data, post. split_and!; [done..|].
      by rewrite Forall_reverse in Hcert.
  - left. by apply no_us_entry_find.
Qed.

Lemma match_ymd_year s y m d rest :
  match_ymd s = Some (y, m, d, rest) ->
  exists rest', parse_Y s = [(y, rest')].
Proof.
  unfold match_ymd. destruct (parse_Y s) as [|[y' s1] l] eqn:HY; [done|].
  assert (l = []) as ->.
  { unfold parse_Y in HY. repeat case_match; by simplify_eq. }
  simpl. destruct (literal "-" s1) as [s2|]; simpl; [|done].
  intros Hm. exists s1.
  destruct (first_of (parse_m s2) _) as [[[[y'' m''] d''] rest'']|] eqn:Hf;
    [|done].
  simplify_eq. f_equal. f_equal.
  revert Hf. generalize (parse_m s2). intros lm.
  induction lm as [|[m1 s3] lm IH]; simpl; [done|].
  destruct (literal "-" s3) as [s4|]; simpl; [|done].
  destruct (first_of (parse_d s4) _) as [[[[y3 m3] d3] rest3]|] eqn:Hd;
    [|done].
  intros [= <- <- <- <-].
  revert Hd. generalize (parse_d s4). intros ld.
  induction ld as [|[d1 s5] ld IHd]; simpl; [done|]. by intros [= <- _ _ _].
Qed.

(** X6 (_extract_movie_info): a record has a year only if the payload's
    release date is a string that [strptime] accepts; the year is then the
    number its first four characters spell, between 1 and 9999, and the
    record keeps the release date as given.  Without a year the release
    date is missing, null, empty or not accepted. *)
Theorem extracted_year_comes_from_release_date (p : Payload) :
  let details := _extract_movie_info p in
  match year details with
  | Some y =>
      exists s m d rest,
        p_release_date p = Val s
        /\ release_date details = Some s
        /\ strptime_ymd s = Some (y, m, d)
        /\ parse_Y s = [(y, rest)]
        /\ 1 <= y <= 9999
  | None => no_parsable_date (p_release_date p)
  end.
Proof.
  unfold _extract_movie_info, no_parsable_date. simpl.
  destruct (p_release_date p) as [| |s]; simpl; [by left|done|].
  destruct s as [|c s]; simpl; [by left|].
  destruct (strptime_ymd (String c s)) as [[[y m] d]|] eqn:Hs; [|by right].
  pose proof (strptime_valid _ _ _ _ Hs) as Hv.
  unfold strptime_ymd in Hs.
  destruct (match_ymd (String c s)) as [[[[y' m'] d'] rest]|] eqn:Hm; [|done].
  destruct rest; [|done].
  destruct (valid_date y' m' d'); [|done]. simplify_eq.
  destruct (match_ymd_year _ _ _ _ _ Hm) as [rest' HY].
  exists (String c s), m, d, rest'. split_and!; [done|done| |done| |].
  - unfold strptime_ymd. by rewrite Hm, Hv.
  - unfold valid_date in Hv. repeat (apply andb_true_iff in Hv as [Hv ?]). lia.
  - unfold valid_date in Hv. repeat (apply andb_true_iff in Hv as [Hv ?]). lia.
Qed.

Lemma List_filter_sublist {A} (f : A -> bool) (l : list A) :
  List.filter f l `sublist_of` l.
Proof.
  induction l as [|a l IH]; simpl; [done|].
  destruct (f a); by constructor.
Qed.

Lemma elem_of_List_filter {A} (f : A -> bool) (l : list A) x :
  x ∈ List.filter f l <-> x ∈ l /\ f x = true.
Proof. rewrite !list_elem_of_In. apply filter_In. Qed.

(** X7 (_extract_movie_info): the record lists at most five cast
    members, the first five of the payload in their order; its directors
    are the crew members whose job is exactly [Director], in their order;
    and an image URL is built, from the image base, exactly for a path that
    is present and not empty. *)
Theorem extracted_cast_and_directors (p : Payload) :
  let details := _extract_movie_info p in
  (length (cast details) <= 5)%nat
  /\ actor_name <$> cast details = take 5 (cast_name <$> p_cast p)
  /\ Forall (fun actor =>
               actor_profile_url actor
               = if truthy_str (actor_profile_path actor)
                 then (fun path => image_base_url +:+ path)
                        <$> actor_profile_path actor
                 else None) (cast details)
  /\ directors details `sublist_of` (crew_name <$> p_crew p)
  /\ (forall name,
        name ∈ directors details <->
        exists person, person ∈ p_crew p
          /\ crew_job person = Some "Director" /\ crew_name person = name)
  /\ poster_url details
     = if truthy_str (p_poster_path p)
       then (fun path => image_base_url +:+ path) <$> p_poster_path p
       else None.
Proof.
  unfold _extract_movie_info. simpl. unfold slice_to. simpl.
  split_and!.
  - rewrite length_fmap, length_take. lia.
  - rewrite <-list_fmap_compose, fmap_take. done.
  - apply Forall_fmap, Forall_forall. intros person _. simpl.
    by destruct (cast_profile_path person) as [[|]|].
  - apply fmap_sublist, List_filter_sublist.
  - intros name. rewrite list_elem_of_fmap. split.
    + intros (person & -> & [Hin Hjob]%elem_of_List_filter).
      exists person. split_and!; [done| |done].
      by apply bool_decide_eq_true in Hjob.
    + intros (person & Hin & Hjob & <-). exists person. split; [done|].
      apply elem_of_List_filter. split; [done|].
      by apply bool_decide_eq_true_2.
  - by destruct (p_poster_path p) as [[|]|].
Qed.

(** ** What the operations do to the client *)

Lemma grows_refl st : grows 0 0 st st.
Proof.
  split; try done.
  - exists []. by rewrite app_nil_r.
  - lia.
Qed.

Lemma grows_trans n1 k1 n2 k2 a b c :
  grows n1 k1 a b -> grows n2 k2 b c -> grows (n1 + n2) (k1 + k2) a c.
Proof.
  intros [(m1 & Hc1 & Hl1) Hs1 He1 Hi1 Hr1 Hd1 Hz1]
         [(m2 & Hc2 & Hl2) Hs2 He2 Hi2 Hr2 Hd2 Hz2].
  split.
  - exists (m1 ++ m2). rewrite Hc2, Hc1, <-app_assoc, length_app.
    split; [done|lia].
  - congruence.
  - by rewrite He2.
  - eauto.
  - eauto.
  - by etrans.
  - lia.
Qed.

Lemma grows_weaken n k n' k' a b :
  grows n k a b -> (n <= n')%nat -> (k <= k')%nat -> grows n' k' a b.
Proof.
  intros [(m & Hc & Hl) ? ? ? ? ? ?] ? ?. split; try done.
  - exists m. split; [done|lia].
  - lia.
Qed.

Lemma grows_reaches n k st st' : grows n k st st' -> reaches n k st st'.
Proof. intros [? ? ? ? ? ? ?]. by split. Qed.

(** The same cache, some more calls. *)
Lemma grows_calls_only n st st' more :
  calls st' = calls st ++ more -> (length more <= n)%nat ->
  sleeps st' = sleeps st -> cache st' = cache st ->
  grows n 0 st st'.
Proof.
  intros Hc Hl Hs Hcache. split; try done.
  - by exists more.
  - by rewrite Hcache.
  - unfold cached_id. by rewrite Hcache.
  - unfold cached_rec. by rewrite Hcache.
  - unfold cache_dom. by rewrite Hcache.
  - unfold cache_size, cache_dom. rewrite Hcache. lia.
Qed.

Lemma size_insert_le (k : string) (X : gset string) :
  (size ({[k]} ∪ X) <= size X + 1)%nat.
Proof.
  rewrite size_union_alt, size_singleton.
  assert (size (X ∖ {[k]}) <= size X)%nat; [|lia].
  apply subseteq_size, subseteq_difference_l. done.
Qed.

(** A search entry written over a key that no lookup finds. *)
Lemma grows_set_id n st st' more key v :
  calls st' = calls st ++ more -> (length more <= n)%nat ->
  sleeps st' = sleeps st ->
  cache st' = cache_set_id key v (cache st) ->
  cached_id key st = None ->
  grows n 1 st st'.
Proof.
  intros Hc Hl Hs Hcache Hmiss. split; try done.
  - by exists more.
  - rewrite Hcache. by destruct (cache st).
  - unfold cached_id in *. rewrite Hcache. intros key' id.
    destruct (cache st) as [c|]; simpl; [|done].
    destruct (decide (key' = key)) as [->|Hne].
    + by rewrite Hmiss.
    + by rewrite lookup_insert_ne.
  - unfold cached_rec. rewrite Hcache. by destruct (cache st).
  - unfold cache_dom. rewrite Hcache.
    destruct (cache st) as [c|]; simpl; [|done].
    rewrite dom_insert_L, <-(assoc_L (∪)). apply union_subseteq_r.
  - unfold cache_size, cache_dom. rewrite Hcache.
    destruct (cache st) as [c|]; simpl; [|lia].
    rewrite dom_insert_L, <-(assoc_L (∪)). apply size_insert_le.
Qed.

(** A record written under a key that holds none. *)
Lemma grows_set_rec n st st' more key d :
  calls st' = calls st ++ more -> (length more <= n)%nat ->
  sleeps st' = sleeps st ->
  cache st' = cache_set_rec key d (cache st) ->
  cached_rec key st = None ->
  grows n 1 st st'.
Proof.
  intros Hc Hl Hs Hcache Hmiss. split; try done.
  - by exists more.
  - rewrite Hcache. by destruct (cache st).
  - unfold cached_id. rewrite Hcache. by destruct (cache st).
  - unfold cached_rec in *. rewrite Hcache. intros key' d'.
    destruct (cache st) as [c|]; simpl; [|done].
    destruct (decide (key' = key)) as [->|Hne].
    + by rewrite Hmiss.
    + by rewrite lookup_insert_ne.
  - unfold cache_dom. rewrite Hcache.
    destruct (cache st) as [c|]; simpl; [|done].
    rewrite dom_insert_L. apply union_mono_l, union_subseteq_r.
  - unfold cache_size, cache_dom. rewrite Hcache.
    destruct (cache st) as [c|]; simpl; [|lia].
    rewrite dom_insert_L, (assoc_L (∪)),
      (comm_L (∪) (dom (ids c)) {[key]}), <-(assoc_L (∪)).
    apply size_insert_le.
Qed.

(** *** Resolution *)

Lemma wp_search_request_net E t y
    (Q : result (list SearchItem) -> Client -> Prop) st :
  (forall body,
     net E (length (calls st)) (search_rq t y) = Response 200 body ->
     Q (Ok (b_results body)) (log_call (search_rq t y) st)) ->
  Q (Raise TMDBAPIError) (log_call (search_rq t y) st) ->
  Q (Raise MovieNotFoundError) (log_call (search_rq t y) st) ->
  wp (search_request E t y) Q st.
Proof.
  intros H1 H2 H3. unfold wp. rewrite search_request_eq.
  destruct (classify (net E (length (calls st)) (search_rq t y)))
    as [data|e] eqn:Hc; simpl.
  - apply H1. by apply classify_ok.
  - destruct (classify_cases (net E (length (calls st)) (search_rq t y)))
      as [[data Hd]|[Hd|Hd]]; rewrite Hc in Hd; simplify_eq; done.
Qed.

Ltac wp_step_net :=
  lazymatch goal with
  | |- wp (bind _ _) _ _ => apply wp_bind
  | |- wp (ret _) _ _ => apply wp_ret
  | |- wp (raise _) _ _ => apply wp_raise
  | |- wp (try_except _ _) _ _ => apply wp_try
  | |- wp (search_request _ _ _) _ _ =>
      apply wp_search_request_net; [intros ? ?| |]
  | |- wp (_set_in_cache_id _ _) _ _ => apply wp_set_id
  | |- wp (if ?b then _ else _) _ _ => destruct b eqn:?
  | |- wp (match ?x with _ => _ end) _ _ => destruct x eqn:?
  end.

Lemma fuzzy_match_listed t l y thr id :
  _fuzzy_match_title t l y thr = Some id ->
  exists result, result ∈ l /\ r_id result = id.
Proof.
  destruct (fuzzy_match_inv t l y thr) as ([bm bs] & -> & Hinv).
  simpl. intros ->. unfold fuzzy_inv in Hinv. simpl in Hinv.
  destruct Hinv as (i & r & Hi & Hid & _). exists r. split; [|done].
  apply list_elem_of_lookup_2 in Hi.
  eapply sublist_subseteq; [apply sublist_take|done].
Qed.

Lemma truthy_int_Some o : truthy_int o = true -> exists z, o = Some z /\ z <> 0.
Proof.
  destruct o as [z|]; [|done]. simpl. intros H%negb_true_iff%Z.eqb_neq.
  by exists z.
Qed.

Opaque _fuzzy_match_title.

Lemma search_movie_miss_full E t y st :
  cached_id (search_key t y) st = None ->
  wp (search_movie E t y) (search_post E t y st) st.
Proof.
  intros Hmiss. unfold search_movie. fold (search_key t y).
  apply wp_bind. unfold wp at 1, _get_from_cache_id.
  unfold cached_id in Hmiss.
  assert ((match cache st with
           | Some c => (Ok (mjoin (ids c !! search_key t y)), st)
           | None => (Ok None, st)
           end) = (Ok None, st)) as ->.
  { destruct (cache st); [by rewrite Hmiss|done]. }
  simpl.
  repeat wp_step_net.
  all: unfold search_post; simpl.
  all: split; [done|split; [rewrite <-?app_assoc; simpl; by auto|]].
  all: try (by auto).
  all: try match goal with
       | H : truthy_int (_fuzzy_match_title _ _ _ _) = true |- _ =>
           simpl in H;
           apply truthy_int_Some in H as (id & Hf & _); rewrite Hf;
           split; [done|];
           apply fuzzy_match_listed in Hf as (r & Hr & <-)
       | H : b_results ?body = ?first :: _
         |- _ /\ listed _ _ _ (r_id ?first) =>
           split; [done|];
           assert (first ∈ b_results body) by (rewrite H; left)
       end.
  all: try match goal with
       | H : b_results ?body = ?l, Hin : ?r ∈ ?l |- _ => rewrite <-H in Hin
       end.
  all: try match goal with
       | H : net _ _ _ = Response 200 ?body, Hin : ?r ∈ b_results ?body
         |- listed _ _ _ (r_id ?r) =>
           eexists _, _, body, r; split_and!; [|exact H|exact Hin|done];
           by auto
       end.
Qed.

Transparent _fuzzy_match_title.

Lemma search_post_grows E t y st r st' :
  cached_id (search_key t y) st = None ->
  search_post E t y st r st' -> grows 2 1 st st'.
Proof.
  intros Hmiss (Hs & Hcalls & Hr).
  assert (exists more, calls st' = calls st ++ more /\ (length more <= 2)%nat)
    as (more & Hc & Hl).
  { destruct Hcalls as [->|[_ ->]]; eexists; split; try done; simpl; lia. }
  destruct r as [[id|]|e].
  - destruct Hr as [Hcache _]. by eapply grows_set_id.
  - destruct Hr as [Hcache|Hcache].
    + eapply grows_weaken; [by eapply grows_calls_only|lia..].
    + by eapply grows_set_id.
  - destruct Hr as [_ Hcache].
    eapply grows_weaken; [by eapply grows_calls_only|lia..].
Qed.

Lemma search_movie_cases E t y st :
  (exists id, cached_id (search_key t y) st = Some id
     /\ search_movie E t y st = (Ok (Some id), st))
  \/ (cached_id (search_key t y) st = None
      /\ search_post E t y st (search_movie E t y st).1
           (search_movie E t y st).2).
Proof.
  destruct (cached_id (search_key t y) st) as [id|] eqn:Hlook.
  - left. exists id. split; [done|]. by apply search_movie_hit.
  - right. split; [done|]. by apply search_movie_miss_full.
Qed.

Lemma search_movie_grows E t y st :
  grows 2 1 st (search_movie E t y st).2.
Proof.
  destruct (search_movie_cases E t y st) as [(id & _ & ->)|[Hmiss Hpost]].
  - eapply grows_weaken; [apply grows_refl|lia..].
  - by eapply search_post_grows.
Qed.

(** X8 (search_movie): on answers of the provider's documented shape
    (the title and the release date of a result are strings, or missing)
    a resolution raises nothing but [MovieNotFoundError]; it sends no
    request when the cache holds an identity for the query, and otherwise
    one search with the title and the year followed, only if a year is
    given, by at most one search with the title alone; it adds at most
    one cache key, and leaves every identity and record of the cache as
    it was. *)
Theorem search_movie_effects (E : Env) (title : string) (year : option Z)
    (st : Client) :
  let run := search_movie E title year st in
  ((exists v, run.1 = Ok v) \/ run.1 = Raise MovieNotFoundError)
  /\ (calls run.2 = calls st
      \/ calls run.2 = calls st ++ [search_rq title year]
      \/ (truthy_int year = true
          /\ calls run.2 = calls st ++ [search_rq title year;
                                       search_rq title None]))
  /\ (calls run.2 = calls st <->
      exists id, cached_id (search_key title year) st = Some id)
  /\ reaches 2 1 st run.2.
Proof.
  intros run. subst run.
  split_and!; [..|apply grows_reaches, search_movie_grows].
  - destruct (search_movie_cases E title year st)
      as [(id & _ & ->)|[_ (_ & _ & Hr)]]; [by eauto|].
    destruct (search_movie E title year st).1 as [v|e]; [by eauto|].
    right. by destruct Hr as [-> _].
  - destruct (search_movie_cases E title year st)
      as [(id & _ & ->)|[_ (_ & Hc & _)]]; [by auto|].
    destruct Hc as [?|?]; auto.
  - destruct (search_movie_cases E title year st)
      as [(id & Hid & ->)|[Hmiss (_ & Hc & _)]].
    + split; [by eauto|done].
    + split.
      * intros Heq. rewrite Heq in Hc.
        destruct Hc as [Hc|[_ Hc]];
          apply (f_equal length) in Hc; rewrite length_app in Hc;
          simpl in Hc; lia.
      * intros [id Hid]. congruence.
Qed.

(** X9 (search_movie): a resolution never invents an identity: what it
    returns was found in the cache under the key of the query, or is the
    id of a result that the provider listed in a 200 answer to the search
    with the title and the year or to the search with the title alone. *)
Theorem resolved_identity_is_listed (E : Env) (title : string)
    (year : option Z) (st : Client) (id : Z) (st' : Client) :
  search_movie E title year st = (Ok (Some id), st') ->
  cached_id (search_key title year) st = Some id
  \/ listed E title year id.
Proof.
  intros Hrun.
  destruct (search_movie_cases E title year st)
    as [(id' & Hid & Hhit)|[_ (_ & _ & Hr)]].
  - left. congruence.
  - right. rewrite Hrun in Hr. by destruct Hr.
Qed.

Lemma resolved_identity_is_listed_witness :
  cached_id (search_key "The Godfather" (Some 1972)) new_client = Some 238
  \/ listed demo "The Godfather" (Some 1972) 238.
Proof.
  apply (resolved_identity_is_listed demo "The Godfather" (Some 1972)
           new_client 238
           (search_movie demo "The Godfather" (Some 1972) new_client).2).
  vm_compute. reflexivity.
Defined.

Lemma get_from_cache_id_miss key st :
  cached_id key st = None -> _get_from_cache_id key st = (Ok None, st).
Proof.
  unfold cached_id, _get_from_cache_id. destruct (cache st); [|done].
  by intros ->.
Qed.

Lemma classify_200 body : classify (Response 200 body) = Ok body.
Proof. done. Qed.

(** X10 (search_movie, strategy 1): when the query has a year, misses the
    cache, and the first result of the search with the title and the year
    was released in that year, that result is the identity: it is
    returned after this one request and written to the cache under the key
    of the query, whatever the other results are. *)
Theorem first_result_of_the_year_is_accepted (E : Env) (title : string)
    (year : option Z) (st : Client) (body : Body) (first : SearchItem)
    (others : list SearchItem) :
  cached_id (search_key title year) st = None ->
  truthy_int year = true ->
  net E (length (calls st)) (search_rq title year) = Response 200 body ->
  b_results body = first :: others ->
  Str.take 4 (r_release_date first) = str_int (default 0 year) ->
  search_movie E title year st
  = (Ok (Some (r_id first)),
     {| cache := cache_set_id (search_key title year) (Some (r_id first))
                   (cache st);
        calls := calls st ++ [search_rq title year];
        sleeps := sleeps st |}).
Proof.
  intros Hmiss Hyear Hnet Hres Hdate.
  unfold search_movie. fold (search_key title year).
  unfold bind at 1. rewrite get_from_cache_id_miss by done.
  unfold try_except, bind at 1. rewrite search_request_eq, Hnet, classify_200.
  rewrite Hres, Hyear, Hdate, String.eqb_refl. simpl.
  unfold bind. by rewrite set_in_cache_id_eq.
Qed.

Lemma first_result_of_the_year_is_accepted_witness :
  search_movie demo "The Godfather" (Some 1972) new_client
  = (Ok (Some 238),
     {| cache := cache_set_id (search_key "The Godfather" (Some 1972))
                   (Some 238) (cache new_client);
        calls := [search_rq "The Godfather" (Some 1972)];
        sleeps := [] |}).
Proof.
  apply (first_result_of_the_year_is_accepted demo "The Godfather"
           (Some 1972) new_client
           (results_body [item 238 "The Godfather" "1972-03-14"])
           (item 238 "The Godfather" "1972-03-14") []);
    reflexivity.
Defined.

(** X11 (search_movie, strategies 3 and 4 without a year): a query
    without a year (or with the year 0) that misses the cache is settled
    by one request.  On a 200 answer with results it always yields an
    identity, the fuzzy match at threshold 85 if that is a non-zero id and
    else the first result; it is absent when the answer lists nothing;
    the outcome is written under the key of the query either way.  When
    the request fails with an API error (another status, a timeout, a
    connection error) the resolution is absent and nothing is written; a
    404 answer is raised as [MovieNotFoundError], and nothing is written
    either. *)
Theorem search_without_year_resolves (E : Env) (title : string)
    (year : option Z) (st : Client) :
  cached_id (search_key title year) st = None ->
  truthy_int year = false ->
  let after (c : option Cache) : Client :=
    {| cache := c; calls := calls st ++ [search_rq title year];
       sleeps := sleeps st |} in
  search_movie E title year st =
  match classify (net E (length (calls st)) (search_rq title year)) with
  | Ok body =>
      let v :=
        match b_results body with
        | [] => None
        | first :: _ =>
            let fuzzy := _fuzzy_match_title title (b_results body) year 85 in
            if truthy_int fuzzy then fuzzy else Some (r_id first)
        end in
      (Ok v, after (cache_set_id (search_key title year) v (cache st)))
  | Raise TMDBAPIError => (Ok None, after (cache st))
  | Raise e => (Raise e, after (cache st))
  end.
Proof.
  intros Hmiss Hyear after. subst after.
  unfold search_movie. fold (search_key title year).
  unfold bind at 1. rewrite get_from_cache_id_miss by done.
  unfold try_except, bind at 1. rewrite search_request_eq.
  destruct (classify_cases (net E (length (calls st)) (search_rq title year)))
    as [[body ->]|[-> | ->]]; [|done|done].
  rewrite Hyear. cbn [andb].
  destruct (b_results body) as [|first others] eqn:Hres.
  - unfold bind at 1, ret at 1. cbv beta iota. cbn [truthy_int].
    cbv iota. unfold bind. by rewrite set_in_cache_id_eq.
  - unfold bind at 1, ret at 1. cbv beta iota. cbn [truthy_int]. cbv iota.
    destruct (truthy_int (_fuzzy_match_title title (first :: others) year 85));
      unfold bind; by rewrite set_in_cache_id_eq.
Qed.

Lemma search_without_year_resolves_witness :
  search_movie demo "Godfather" None new_client
  = (Ok (Some 238),
     {| cache := cache_set_id (search_key "Godfather" None) (Some 238)
                   (cache new_client);
        calls := [search_rq "Godfather" None];
        sleeps := [] |})
  /\ search_movie timeouts "Godfather" None new_client
     = (Ok None,
        {| cache := cache new_client;
           calls := [search_rq "Godfather" None];
           sleeps := [] |}).
Proof.
  split.
  - apply (search_without_year_resolves demo "Godfather" None new_client);
      reflexivity.
  - apply (search_without_year_resolves timeouts "Godfather" None new_client);
      reflexivity.
Defined.

(** *** Detail retrieval *)

Lemma get_movie_details_grows E i st :
  grows 1 1 st (get_movie_details E i st).2.
Proof.
  rewrite get_movie_details_eq.
  destruct (cached_rec (details_key i) st) as [d|] eqn:Hlook.
  { eapply grows_weaken; [apply grows_refl|lia..]. }
  cbv zeta. destruct (classify _) as [data|e]; simpl.
  - eapply (grows_set_rec 1 _ _ [details_rq i]); done.
  - eapply grows_weaken;
      [by eapply (grows_calls_only 1 _ _ [details_rq i])|lia..].
Qed.

(** X12 (get_movie_details): fetching details never raises.  A record in
    the cache is returned as it is, without a request.  Otherwise exactly
    one request is sent: a 200 answer gives the record extracted from its
    body, which is written to the cache under the id; any other outcome
    (another status, a timeout, a connection error) gives [None] and
    leaves the cache as it was, so a failure is tried again next time. *)
Theorem get_movie_details_effects (E : Env) (movie_id : Z) (st : Client) :
  let run := get_movie_details E movie_id st in
  let answer := net E (length (calls st)) (details_rq movie_id) in
  grows 1 1 st run.2
  /\ match cached_rec (details_key movie_id) st with
     | Some details => run = (Ok (Some details), st)
     | None =>
         calls run.2 = calls st ++ [details_rq movie_id]
         /\ match run.1 with
            | Ok (Some details) =>
                exists body,
                  answer = Response 200 body
                  /\ details = _extract_movie_info (b_movie body)
                  /\ cache run.2
                     = cache_set_rec (details_key movie_id) details (cache st)
            | Ok None =>
                cache run.2 = cache st
                /\ forall body, answer <> Response 200 body
            | Raise _ => False
            end
     end.
Proof.
  intros run answer. subst run answer.
  split; [apply get_movie_details_grows|].
  rewrite get_movie_details_eq.
  destruct (cached_rec (details_key movie_id) st) as [d|]; [done|].
  cbv zeta.
  destruct (classify _) as [data|e] eqn:Hc; simpl; (split; [done|]).
  - exists data. by apply classify_ok in Hc.
  - split; [done|]. intros body Hb. rewrite Hb in Hc. done.
Qed.

Lemma get_movie_details_hit E i st d :
  cached_rec (details_key i) st = Some d ->
  get_movie_details E i st = (Ok (Some d), st).
Proof. intros H. by rewrite get_movie_details_eq, H. Qed.

Lemma get_movie_details_caches E i st d st1 :
  is_Some (cache st) ->
  get_movie_details E i st = (Ok (Some d), st1) ->
  cached_rec (details_key i) st1 = Some d.
Proof.
  intros [c Hc]. rewrite get_movie_details_eq.
  destruct (cached_rec (details_key i) st) as [d'|] eqn:Hlook.
  { intros [= <- <-]. done. }
  cbv zeta. destruct (classify _) as [data|e]; [|done].
  intros [= <- <-]. unfold cached_rec. simpl. rewrite Hc. simpl.
  by rewrite lookup_insert_eq.
Qed.

(** X13 (get_movie_details): with the cache enabled, a record that was
    fetched once is served from the cache ever after: in every later
    state of the client (reached by any number of calls that only add to
    the cache) the same id gives the same record without a request,
    whatever the provider would answer by then. *)
Theorem fetched_details_are_served_from_cache (E E' : Env) (movie_id : Z)
    (st st1 st2 : Client) (details : DetailRecord) (n k : nat) :
  is_Some (cache st) ->
  get_movie_details E movie_id st = (Ok (Some details), st1) ->
  grows n k st1 st2 ->
  get_movie_details E' movie_id st2 = (Ok (Some details), st2).
Proof.
  intros Hc Hrun Hgrows. apply get_movie_details_hit.
  eapply grows_recs; [done|]. by eapply get_movie_details_caches.
Qed.

Lemma fetched_details_are_served_from_cache_witness :
  let st1 := (get_movie_details demo 238 new_client).2 in
  let st2 := (search_movie timeouts "Ghost" None st1).2 in
  get_movie_details timeouts 238 st2
  = (Ok (Some (_extract_movie_info (demo_payload 238 (Some (87 # 10)%Q)))),
     st2).
Proof.
  intros st1 st2.
  apply (fetched_details_are_served_from_cache demo timeouts 238 new_client
           st1 st2 _ 2 1).
  - by eexists.
  - reflexivity.
  - apply search_movie_grows.
Defined.

(** *** Enrichment of one item *)

Lemma truthy_str_Some o :
  truthy_str o = true -> exists s, o = Some s /\ s <> "".
Proof. destruct o as [[|c s]|]; [done| |done]. by exists (String c s). Qed.

Lemma bind_state {A B} (m : M A) (k : A -> M B) st :
  (bind m k st).2
  = match (m st).1 with
    | Ok a => (k a (m st).2).2
    | Raise _ => (m st).2
    end.
Proof. unfold bind. by destruct (m st) as [[a|e] st1]. Qed.

Lemma enrich_movie_grows E movie st :
  grows 3 2 st (enrich_movie E movie st).2.
Proof.
  unfold enrich_movie.
  destruct (truthy_str (m_title movie)); simpl;
    [|eapply grows_weaken; [apply grows_refl|lia..]].
  rewrite bind_state.
  pose proof (search_movie_grows E (default "" (m_title movie))
                (m_year movie) st) as Hs.
  destruct (search_movie E (default "" (m_title movie)) (m_year movie) st)
    as [[movie_id|e] st1]; simpl in *;
    [|eapply grows_weaken; [exact Hs|lia..]].
  destruct (truthy_int movie_id); simpl;
    [|eapply grows_weaken; [exact Hs|lia..]].
  rewrite bind_state.
  pose proof (get_movie_details_grows E (default 0 movie_id) st1) as Hd.
  apply (grows_trans 2 1 1 1 _ st1); [done|].
  destruct (get_movie_details E (default 0 movie_id) st1)
    as [[[d|]|e] st2]; done.
Qed.

Lemma enrich_movie_eq E movie st :
  enrich_movie E movie st =
  if negb (truthy_str (m_title movie)) then (Ok None, st)
  else
    match search_movie E (default "" (m_title movie)) (m_year movie) st with
    | (Ok movie_id, st1) =>
        if negb (truthy_int movie_id) then (Ok None, st1)
        else
          match get_movie_details E (default 0 movie_id) st1 with
          | (Ok (Some details), st2) => (Ok (Some (merge movie details)), st2)
          | (Ok None, st2) => (Ok None, st2)
          | (Raise e, st2) => (Raise e, st2)
          end
    | (Raise e, st1) => (Raise e, st1)
    end.
Proof.
  unfold enrich_movie. destruct (negb (truthy_str (m_title movie))); [done|].
  unfold bind at 1.
  destruct (search_movie E (default "" (m_title movie)) (m_year movie) st)
    as [[movie_id|e] st1]; [|done].
  destruct (negb (truthy_int movie_id)); [done|].
  unfold bind.
  by destruct (get_movie_details E (default 0 movie_id) st1)
    as [[[d|]|e] st2].
Qed.

Lemma enrich_movie_outcome E movie st :
  (exists v, (enrich_movie E movie st).1 = Ok v)
  \/ (enrich_movie E movie st).1 = Raise MovieNotFoundError.
Proof.
  rewrite enrich_movie_eq.
  destruct (negb (truthy_str (m_title movie))); simpl; [by eauto|].
  destruct (search_movie_cases E (default "" (m_title movie))
              (m_year movie) st) as [(id & _ & ->)|[_ (_ & _ & Hr)]].
  - destruct (negb (truthy_int (Some id))); simpl; [by eauto|].
    rewrite get_movie_details_eq.
    destruct (cached_rec _ st); [by eauto|].
    cbv zeta. destruct (classify _); simpl; by eauto.
  - destruct (search_movie E (default "" (m_title movie)) (m_year movie) st)
      as [[v|e] st1]; simpl in *; [|right; by destruct Hr as [-> _]].
    destruct (negb (truthy_int v)); simpl; [by eauto|].
    rewrite get_movie_details_eq.
    destruct (cached_rec _ st1); [by eauto|].
    cbv zeta. destruct (classify _); simpl; by eauto.
Qed.

Lemma enrich_movie_hit E movie st t id d :
  m_title movie = Some t -> t <> "" ->
  cached_id (search_key t (m_year movie)) st = Some id -> id <> 0 ->
  cached_rec (details_key id) st = Some d ->
  enrich_movie E movie st = (Ok (Some (merge movie d)), st).
Proof.
  intros Ht Hne Hid Hnz Hd. unfold enrich_movie. rewrite Ht.
  destruct t as [|c t]; [done|]. simpl.
  unfold bind at 1. rewrite (search_movie_hit _ _ _ _ _ Hid). simpl.
  destruct (id =? 0) eqn:Hz; [apply Z.eqb_eq in Hz; done|]. simpl.
  unfold bind. by rewrite (get_movie_details_hit _ _ _ _ Hd).
Qed.

(** What an enrichment that gave a record leaves in the cache. *)
Lemma enrich_movie_cached E movie st enriched st1 :
  is_Some (cache st) ->
  enrich_movie E movie st = (Ok (Some enriched), st1) ->
  exists t id d,
    m_title movie = Some t /\ t <> ""
    /\ cached_id (search_key t (m_year movie)) st1 = Some id /\ id <> 0
    /\ cached_rec (details_key id) st1 = Some d
    /\ enriched = merge movie d.
Proof.
  intros Hc Hrun.
  apply enrich_movie_some in Hrun
    as (t & id & st' & d & Ht & Hne & Hs & Hid & Hd & ->).
  exists t, id, d. split_and!; try done.
  - pose proof (get_movie_details_grows E id st') as Hg. rewrite Hd in Hg.
    eapply grows_ids; [exact Hg|]. by eapply search_movie_caches.
  - eapply get_movie_details_caches; [|done].
    pose proof (search_movie_grows E t (m_year movie) st) as Hg.
    rewrite Hs in Hg. by apply Hg.
Qed.

(** X14 (enrich_movie): with the cache enabled, an item that was enriched
    once is enriched from the cache as long as the cache is not cleared:
    in every later state of the client that is reached by calls that only
    add to the cache (any number of them, with any number of requests),
    the same item gives the same enriched record with no search and no
    details request, whatever the provider would answer by then. *)
Theorem enriched_item_is_served_from_cache (E E' : Env) (movie : Movie)
    (st st1 st2 : Client) (enriched : Enriched) (n k : nat) :
  is_Some (cache st) ->
  enrich_movie E movie st = (Ok (Some enriched), st1) ->
  reaches n k st1 st2 ->
  enrich_movie E' movie st2 = (Ok (Some enriched), st2).
Proof.
  intros Hc Hrun Hreaches.
  destruct (enrich_movie_cached _ _ _ _ _ Hc Hrun)
    as (t & id & d & Ht & Hne & Hid & Hnz & Hd & ->).
  eapply enrich_movie_hit; try done.
  - by eapply reaches_ids.
  - by eapply reaches_recs.
Qed.

Lemma enriched_item_is_served_from_cache_witness :
  let movie := film "The Godfather" (Some 1972) in
  let run := enrich_movie demo movie new_client in
  let st2 := (search_movie demo "Ghost" None run.2).2 in
  exists enriched,
    run.1 = Ok (Some enriched)
    /\ length (calls run.2) = 2%nat
    /\ enrich_movie timeouts movie st2 = (Ok (Some enriched), st2).
Proof.
  intros movie run st2.
  exists (merge movie (_extract_movie_info (demo_payload 238 (Some (87 # 10)%Q)))).
  split; [reflexivity|]. split; [reflexivity|].
  apply (enriched_item_is_served_from_cache demo timeouts movie new_client
           run.2 st2 _ 2 1).
  - by eexists.
  - reflexivity.
  - apply grows_reaches, search_movie_grows.
Defined.

(** X15 (enrich_movie): on answers of the provider's documented shape,
    enriching one item raises nothing but
    [MovieNotFoundError] (a 404 answer to a search), sends at most three
    requests, adds at most two cache keys and leaves every cached
    identity and record as it was; an item without a title, or with an
    empty one, gives [None] without any request, and an item whose
    resolution is absent or is the id 0 gives [None] without a details
    request. *)
Theorem enrich_movie_effects (E : Env) (movie : Movie) (st : Client) :
  let run := enrich_movie E movie st in
  ((exists v, run.1 = Ok v) \/ run.1 = Raise MovieNotFoundError)
  /\ reaches 3 2 st run.2
  /\ (truthy_str (m_title movie) = false -> run = (Ok None, st))
  /\ (forall title v st1,
        m_title movie = Some title -> title <> "" ->
        search_movie E title (m_year movie) st = (Ok v, st1) ->
        truthy_int v = false ->
        run = (Ok None, st1)).
Proof.
  intros run. subst run. split_and!.
  - apply enrich_movie_outcome.
  - apply grows_reaches, enrich_movie_grows.
  - unfold enrich_movie. by intros ->.
  - intros title v st1 Ht Hne Hs Hv. unfold enrich_movie. rewrite Ht.
    destruct title as [|c title]; [done|]. simpl.
    unfold bind. by rewrite Hs, Hv.
Qed.

(** *** Batches *)

Lemma futures_of_grows {A B} (task : A -> M B) n k :
  (forall a st, grows n k st (task a st).2) ->
  forall items st,
    grows (n * length items) (k * length items) st
      (futures_of task items st).2.
Proof.
  intros Htask items. induction items as [|a items IH]; intros st; simpl.
  { rewrite !Nat.mul_0_r. apply grows_refl. }
  pose proof (Htask a st) as Ha. destruct (task a st) as [r st1].
  pose proof (IH st1) as Hrest.
  destruct (futures_of task items st1) as [fs st2]. simpl in *.
  eapply grows_weaken; [by eapply grows_trans|lia..].
Qed.

Lemma enrich_sequential_grows E movies : forall acc st,
  grows (3 * length movies) (2 * length movies) st
    (enrich_sequential E movies acc st).2.
Proof.
  induction movies as [|movie movies IH]; intros acc st; simpl.
  { apply grows_refl. }
  rewrite bind_state. pose proof (enrich_movie_grows E movie st) as Hm.
  destruct (enrich_movie E movie st) as [[enriched|e] st1]; simpl in *.
  - eapply grows_weaken; [eapply grows_trans; [exact Hm|apply IH]|lia..].
  - eapply grows_weaken; [exact Hm|lia..].
Qed.

(** A sequential run that returns ran every item without an exception,
    and kept the records in the order of the items. *)
Lemma enrich_sequential_inv E movies : forall acc st out st1,
  enrich_sequential E movies acc st = (Ok out, st1) ->
  Forall (fun f => is_ok f.2) (outcomes E movies st)
  /\ out = acc ++ omap keep_enriched (outcomes E movies st)
  /\ st1 = (futures_of (enrich_movie E) movies st).2.
Proof.
  unfold outcomes.
  induction movies as [|movie movies IH]; intros acc st out st1; simpl.
  { intros [= <- <-]. by rewrite app_nil_r. }
  unfold bind at 1.
  destruct (enrich_movie E movie st) as [[enriched|e] sta]; [|done].
  intros Hrun. apply IH in Hrun as (Hok & -> & ->).
  destruct (futures_of (enrich_movie E) movies sta) as [fs stb]. simpl in *.
  split_and!; [by constructor| |done].
  unfold keep_enriched at 2. simpl.
  destruct enriched as [enriched|]; [|done]. by rewrite <-app_assoc.
Qed.

Lemma enrich_sequential_raises E movies : forall acc st e,
  (enrich_sequential E movies acc st).1 = Raise e -> e = MovieNotFoundError.
Proof.
  induction movies as [|movie movies IH]; intros acc st e; simpl; [done|].
  unfold bind at 1.
  destruct (enrich_movie_outcome E movie st) as [[v Hv]|Hv];
    destruct (enrich_movie E movie st) as [[enriched|e'] sta];
    simpl in *; simplify_eq; first [apply IH|by intros [= <-]].
Qed.

Lemma enrich_movies_parallel_cases E movies batch_size st :
  (batch_size = 0
   /\ _enrich_movies_parallel E movies batch_size st = (Raise ValueError, st))
  \/ (batch_size < 0
      /\ _enrich_movies_parallel E movies batch_size st = (Ok [], st))
  \/ (0 < batch_size
      /\ exists enriched_movies,
           _enrich_movies_parallel E movies batch_size st =
           (Ok enriched_movies, (futures_of (enrich_movie E) movies st).2)
           /\ enriched_movies
              ≡ₚ omap keep_enriched (outcomes E movies st)).
Proof.
  destruct (Z.lt_trichotomy batch_size 0) as [Hneg|[->|Hpos]].
  - right. left. split; [done|].
    unfold _enrich_movies_parallel, range_step.
    destruct (batch_size =? 0) eqn:Hz; [apply Z.eqb_eq in Hz; lia|].
    destruct (batch_size <? 0) eqn:Hlt; [done|apply Z.ltb_ge in Hlt; lia].
  - by left.
  - right. right. split; [done|]. by apply enrich_movies_parallel_eq.
Qed.

(** X16 (enrich_movies): a batch of N items sends at most 3 N requests,
    adds at most 2 N cache keys and leaves every cached identity and
    record as it was, on both paths and for every batch size.  It returns
    at most N records.  On answers of the provider's documented shape,
    the parallel path raises only for the batch size 0 ([ValueError] of
    [range]) and the sequential path (parallel off, or fewer than two
    items) raises only [MovieNotFoundError]. *)
Theorem enrich_movies_effects (E : Env) (movies : list Movie)
    (parallel : bool) (batch_size : Z) (st : Client) :
  let run := enrich_movies E movies parallel batch_size st in
  let total := length movies in
  reaches (3 * total) (2 * total) st run.2
  /\ match run.1 with
     | Ok enriched_movies => (length enriched_movies <= total)%nat
     | Raise e =>
         if parallel && (1 <? total)%nat
         then e = ValueError /\ batch_size = 0
         else e = MovieNotFoundError
     end.
Proof.
  intros run total. subst run total. unfold enrich_movies.
  destruct (parallel && (1 <? length movies)%nat).
  - destruct (enrich_movies_parallel_cases E movies batch_size st)
      as [[-> ->]|[[_ ->]|[_ (out & -> & Hperm)]]]; cbn [fst snd].
    + split; [|done].
      apply grows_reaches. eapply grows_weaken; [apply grows_refl|lia..].
    + split; [|simpl; lia].
      apply grows_reaches. eapply grows_weaken; [apply grows_refl|lia..].
    + split.
      * apply grows_reaches, (futures_of_grows _ 3 2). apply enrich_movie_grows.
      * rewrite Hperm. etrans; [apply omap_length_le|].
        unfold outcomes.
        rewrite <-(futures_of_items (enrich_movie E) movies st) at 2.
        by rewrite length_fmap.
  - split; [apply grows_reaches, enrich_sequential_grows|].
    destruct (enrich_sequential E movies [] st) as [[out|e] st1] eqn:Hrun;
      cbn [fst snd].
    + apply enrich_sequential_inv in Hrun as (_ & -> & _). simpl.
      etrans; [apply omap_length_le|]. unfold outcomes.
      rewrite <-(futures_of_items (enrich_movie E) movies st) at 2.
      by rewrite length_fmap.
    + eapply (enrich_sequential_raises E movies [] st). by rewrite Hrun.
Qed.

(** X17 (enrich_movies, _enrich_movies_parallel): on the parallel path
    (parallel on, at least two items) a batch size of 0 raises
    [ValueError] and a negative batch size returns the empty list; in both
    cases no item is looked at and no request is sent.  ([batch_size] is
    the step of [range(0, total, batch_size)].) *)
Theorem nonpositive_batch_size_enriches_nothing (E : Env)
    (movies : list Movie) (batch_size : Z) (st : Client) :
  (1 < length movies)%nat ->
  batch_size <= 0 ->
  enrich_movies E movies true batch_size st
  = (if batch_size =? 0 then Raise ValueError else Ok [], st).
Proof.
  intros Htotal Hsize. unfold enrich_movies.
  destruct (1 <? length movies)%nat eqn:Hlt;
    [|apply Nat.ltb_ge in Hlt; lia].
  simpl.
  destruct (enrich_movies_parallel_cases E movies batch_size st)
    as [[-> ->]|[[Hneg ->]|[Hpos _]]]; [done| |lia].
  destruct (batch_size =? 0) eqn:Hz; [apply Z.eqb_eq in Hz; lia|done].
Qed.

Lemma nonpositive_batch_size_enriches_nothing_witness :
  enrich_movies demo demo_movies true (-1) new_client = (Ok [], new_client)
  /\ enrich_movies demo demo_movies true 0 new_client
     = (Raise ValueError, new_client).
Proof.
  split.
  - apply (nonpositive_batch_size_enriches_nothing demo demo_movies (-1)
             new_client); [simpl; lia|lia].
  - apply (nonpositive_batch_size_enriches_nothing demo demo_movies 0
             new_client); [simpl; lia|lia].
Defined.

Lemma omap_length_all {A B} (f : A -> option B) (l : list A) :
  length (omap f l) = length l -> Forall (fun a => is_Some (f a)) l.
Proof.
  induction l as [|a l IH]; [done|].
  change (omap f (a :: l))
    with (match f a with Some b => b :: omap f l | None => omap f l end).
  pose proof (omap_length_le f l).
  destruct (f a) as [b|] eqn:Hfa; simpl; [|lia].
  intros [= Hlen]. constructor; [by rewrite Hfa|]. by apply IH.
Qed.

(** Futures that all hold a record are the same futures, at no cost, in
    every later state. *)
Lemma futures_all_enriched E E' movies : forall st st2 n k,
  is_Some (cache st) ->
  Forall (fun f => is_Some (keep_enriched f)) (outcomes E movies st) ->
  grows n k (futures_of (enrich_movie E) movies st).2 st2 ->
  futures_of (enrich_movie E') movies st2 = (outcomes E movies st, st2).
Proof.
  unfold outcomes.
  induction movies as [|movie movies IH]; intros st st2 n k Hc Hall Hg;
    simpl in *; [done|].
  pose proof (enrich_movie_grows E movie st) as Hm.
  destruct (enrich_movie E movie st) as [r sta] eqn:Hrun.
  pose proof (futures_of_grows (enrich_movie E) 3 2
                (enrich_movie_grows E) movies sta) as Hrest.
  destruct (futures_of (enrich_movie E) movies sta) as [fs stb] eqn:Hfs.
  simpl in *. apply Forall_cons in Hall as [[enriched Hkeep] Hall].
  unfold keep_enriched in Hkeep. simpl in Hkeep.
  destruct r as [[enriched'|]|e]; simplify_eq.
  assert (is_Some (cache sta)) as Hca by by apply Hm.
  destruct (enrich_movie_cached _ _ _ _ _ Hc Hrun)
    as (t & id & d & Ht & Hne & Hid & Hnz & Hd & ->).
  pose proof (grows_trans _ _ _ _ _ _ _ Hrest Hg) as Hsta.
  rewrite (enrich_movie_hit E' movie st2 t id d); try done.
  - specialize (IH sta st2 n k Hca). rewrite Hfs in IH. simpl in IH.
    by rewrite IH.
  - by eapply grows_ids.
  - by eapply grows_recs.
Qed.

Lemma enrich_movies_Ok E movies parallel batch_size st out st1 :
  enrich_movies E movies parallel batch_size st = (Ok out, st1) ->
  length out = length movies ->
  out ≡ₚ omap keep_enriched (outcomes E movies st)
  /\ st1 = (futures_of (enrich_movie E) movies st).2.
Proof.
  unfold enrich_movies.
  destruct (parallel && (1 <? length movies)%nat) eqn:Hpar.
  - destruct (enrich_movies_parallel_cases E movies batch_size st)
      as [[_ ->]|[[_ ->]|[_ (out' & -> & Hperm)]]]; [done| |].
    + intros [= <- <-] Hlen. simpl in Hlen.
      apply andb_true_iff in Hpar as [_ Hlt%Nat.ltb_lt]. lia.
    + by intros [= <- <-] _.
  - intros Hrun _. by apply enrich_sequential_inv in Hrun as (_ & -> & ->).
Qed.

(** X18 (enrich_movies): with the cache enabled, when an enrichment with
    [parallel] off (the items are enriched one after the other) gave a
    record for every one of its items, a second enrichment of the same
    items, on either path and with any positive batch size, sends no
    request at all, leaves the client as it is and returns the same
    records (in some order), whatever the provider would answer by
    then. *)
Theorem second_enrichment_is_free (E E' : Env) (movies : list Movie)
    (parallel' : bool) (batch_size batch_size' : Z)
    (st st1 : Client) (enriched_movies : list Enriched) :
  is_Some (cache st) ->
  enrich_movies E movies false batch_size st = (Ok enriched_movies, st1) ->
  length enriched_movies = length movies ->
  0 < batch_size' ->
  exists again,
    enrich_movies E' movies parallel' batch_size' st1 = (Ok again, st1)
    /\ again ≡ₚ enriched_movies.
Proof.
  intros Hc Hrun Hlen Hsize.
  destruct (enrich_movies_Ok _ _ _ _ _ _ _ Hrun Hlen) as [Hperm ->].
  assert (Forall (fun f => is_Some (keep_enriched f)) (outcomes E movies st))
    as Hall.
  { apply omap_length_all. rewrite <-Hperm, Hlen. unfold outcomes.
    rewrite <-(futures_of_items (enrich_movie E) movies st) at 1.
    by rewrite length_fmap. }
  pose proof (futures_all_enriched E E' movies st
                (futures_of (enrich_movie E) movies st).2 0 0 Hc Hall
                (grows_refl _)) as Hagain.
  assert (Forall (fun f => is_ok f.2) (outcomes E movies st)) as Hok.
  { eapply Forall_impl; [exact Hall|]. intros [m [[e|]|e]] [? Hk]; done. }
  destruct (enrich_movies_subset E' movies parallel' batch_size'
              (futures_of (enrich_movie E) movies st).2 Hsize)
    as (again & st' & Hrun' & Hperm').
  { intros _. unfold outcomes. by rewrite Hagain. }
  exists again. split.
  - rewrite Hrun'. f_equal.
    unfold enrich_movies in Hrun'.
    destruct (parallel' && _).
    + destruct (enrich_movies_parallel_eq E' movies batch_size'
                  (futures_of (enrich_movie E) movies st).2 Hsize)
        as (out' & Heq & _).
      rewrite Heq in Hrun'. rewrite Hagain in Hrun'. by simplify_eq.
    + apply enrich_sequential_inv in Hrun' as (_ & _ & ->).
      by rewrite Hagain.
  - rewrite Hperm', Hperm. unfold outcomes. by rewrite Hagain.
Qed.

Lemma second_enrichment_is_free_witness :
  let movies := [film "The Godfather" (Some 1972); film "Godfather" None] in
  let run := enrich_movies demo movies false 10 new_client in
  exists enriched_movies again,
    run.1 = Ok enriched_movies
    /\ length (calls run.2) = 3%nat
    /\ enrich_movies timeouts movies true 1 run.2 = (Ok again, run.2)
    /\ again ≡ₚ enriched_movies.
Proof.
  intros movies run.
  destruct run as [r st1] eqn:Hrun.
  assert (exists out, r = Ok out /\ length out = 2%nat
                      /\ length (calls st1) = 3%nat)
    as (out & -> & Hlen & Hcalls).
  { vm_compute in Hrun. injection Hrun as <- <-. eexists.
    split; [reflexivity|]. split; reflexivity. }
  destruct (second_enrichment_is_free demo timeouts movies true 10 1
              new_client st1 out) as (again & Hagain & Hperm);
    [by eexists|exact Hrun|exact Hlen|lia|].
  exists out, again.
  split; [reflexivity|]. split; [exact Hcalls|].
  split; [exact Hagain|exact Hperm].
Defined.

(** ** Neighbours *)

Lemma mapM_neighbour_result E items : forall st,
  match (mapM (neighbour E) items st).1 with
  | Ok l => c_tmdb_id <$> l = r_id <$> items
            /\ c_title <$> l = r_title <$> items
  | Raise e =>
      e = ValueError
      /\ exists result,
           result ∈ items /\ r_release_date result <> ""
           /\ int_of_str E (Str.take 4 (r_release_date result)) = None
  end.
Proof.
  induction items as [|item items IH]; intros st; simpl; [done|].
  unfold bind at 1. unfold neighbour at 1. unfold bind at 1.
  destruct (truthy_str (Some (r_release_date item))) eqn:Hdate.
  - destruct (int_of_str E _) as [y|] eqn:Hint; simpl.
    + unfold bind. specialize (IH st).
      destruct (mapM (neighbour E) items st) as [[l|e] st1]; simpl in *.
      * destruct IH as [IH1 IH2]. split; f_equal; [exact IH1|exact IH2].
      * destruct IH as (-> & r & ? & ? & ?). split; [done|].
        exists r. split; [by right|done].
    + split; [done|]. exists item. split; [by left|]. split; [|done].
      by destruct (r_release_date item).
  - simpl. unfold bind. specialize (IH st).
    destruct (mapM (neighbour E) items st) as [[l|e] st1]; simpl in *.
    + destruct IH as [IH1 IH2]. split; f_equal; [exact IH1|exact IH2].
    + destruct IH as (-> & r & ? & ? & ?). split; [done|].
      exists r. split; [by right|done].
Qed.

Lemma neighbours_eq E ep n st :
  neighbours E ep n st =
  (match classify (net E (length (calls st)) (request_of ep [])) with
   | Ok data =>
       (mapM (neighbour E) (slice_to n (b_results data))
          (log_call (request_of ep []) st)).1
   | Raise _ => Ok []
   end, log_call (request_of ep []) st).
Proof.
  rewrite (surjective_pairing (neighbours E ep n st)), neighbours_state.
  f_equal. unfold neighbours, try_except, bind. rewrite make_request_eq.
  destruct (classify_cases (net E (length (calls st)) (request_of ep [])))
    as [[data ->]|[-> | ->]]; simpl; [|done|done].
  pose proof (mapM_neighbour_result E (slice_to n (b_results data))
                (log_call (request_of ep []) st)) as Hr.
  destruct (mapM _ _ _) as [[cs|e] st1]; simpl in *; [done|].
  by destruct Hr as [-> _].
Qed.

Lemma neighbours_meets_spec E ep n st :
  neighbours_spec E ep n st (neighbours E ep n st).
Proof.
  unfold neighbours_spec. rewrite neighbours_eq. cbn [fst snd].
  split; [done|].
  destruct (classify (net E (length (calls st)) (request_of ep [])))
    as [data|e] eqn:Hc.
  - apply classify_ok in Hc.
    pose proof (mapM_neighbour_result E (slice_to n (b_results data))
                  (log_call (request_of ep []) st)) as Hr.
    destruct (mapM _ _ _).1 as [l|e].
    + destruct Hr as [Hids _]. split_and!.
      * intros body Hb. rewrite Hc in Hb. injection Hb as <-.
        split; [done|]. rewrite Hids.
        destruct (slice_to_take n (b_results data)) as [k ->].
        rewrite fmap_take. apply prefix_take.
      * intros Hno. by destruct (Hno data).
      * intros Hn. apply (f_equal length) in Hids.
        rewrite !length_fmap in Hids. rewrite Hids.
        by apply slice_to_length.
    + destruct Hr as (-> & r & ? & ? & ?). split; [done|]. by exists data, r.
  - split_and!; [|done|simpl; lia].
    intros body Hb. rewrite Hb in Hc. done.
Qed.

(** X20 (get_similar_movies, get_movie_recommendations): either call
    sends exactly one request, to the endpoint of the id, without
    parameters, and changes nothing else.  On a 200 answer it returns the
    entries for the leading results of the answer, in their order
    ([results[:max_results]], so at most [max_results] of them when that
    is not negative); on any other outcome it returns the empty list.  It
    raises only [ValueError], and only when one of those results has a
    release date whose first four characters are not an integer. *)
Theorem neighbour_calls_meet_their_spec (E : Env) (movie_id max_results : Z)
    (st : Client) :
  neighbours_spec E ("/movie/" +:+ str_int movie_id +:+ "/similar")
    max_results st (get_similar_movies E movie_id max_results st)
  /\ neighbours_spec E ("/movie/" +:+ str_int movie_id +:+ "/recommendations")
       max_results st (get_movie_recommendations E movie_id max_results st).
Proof. split; apply neighbours_meets_spec. Qed.


(** ** The candidate pool, further *)

Lemma neighbours_raises E ep n st e :
  (neighbours E ep n st).1 = Raise e -> e = ValueError.
Proof.
  pose proof (neighbours_meets_spec E ep n st) as [_ H].
  intros Hr. rewrite Hr in H. by destruct H.
Qed.

Lemma grows_log_call rq st : grows 1 0 st (log_call rq st).
Proof. by apply (grows_calls_only 1 _ _ [rq]). Qed.

Lemma seed_loop_grows E watched cpm maxc seeds : forall acc st,
  grows (2 * length seeds) 0 st
    (seed_loop E watched cpm maxc seeds acc st).2.
Proof.
  induction seeds as [|seed seeds IH]; intros acc st.
  { apply grows_refl. }
  cbn [seed_loop].
  destruct (negb (truthy_int (tmdb_id (e_details seed)))).
  { eapply grows_weaken; [apply IH|simpl; lia|lia]. }
  unfold bind at 1. unfold get_similar_movies.
  match goal with |- context [neighbours E ?ep ?n ?s] =>
    pose proof (neighbours_state E ep n s) as H1;
    pose proof (grows_log_call (request_of ep []) s) as G1;
    destruct (neighbours E ep n s) as [[similar|e] st1] end;
    cbn [fst snd] in H1; subst st1.
  2: { eapply grows_weaken; [exact G1|simpl; lia|lia]. }
  unfold bind at 1. unfold get_movie_recommendations.
  match goal with |- context [neighbours E ?ep ?n ?s] =>
    pose proof (neighbours_state E ep n s) as H2;
    pose proof (grows_log_call (request_of ep []) s) as G2;
    destruct (neighbours E ep n s) as [[recs|e] st2] end;
    cbn [fst snd] in H2; subst st2.
  all: pose proof (grows_trans _ _ _ _ _ _ _ G1 G2) as G12.
  2: { eapply grows_weaken; [exact G12|simpl; lia|lia]. }
  destruct (_ >=? _).
  { eapply grows_weaken; [exact G12|simpl; lia|lia]. }
  eapply grows_weaken;
    [eapply grows_trans; [exact G12|apply IH]|simpl; lia|lia].
Qed.

Lemma seed_loop_raises E watched cpm maxc seeds : forall acc st e,
  (seed_loop E watched cpm maxc seeds acc st).1 = Raise e -> e = ValueError.
Proof.
  induction seeds as [|seed seeds IH]; intros acc st e; [done|].
  cbn [seed_loop].
  destruct (negb (truthy_int (tmdb_id (e_details seed)))); [apply IH|].
  unfold bind at 1. unfold get_similar_movies at 1.
  destruct (neighbours E _ _ st) as [[similar|e1] st1] eqn:H1.
  2: { intros [= <-]. eapply neighbours_raises. by rewrite H1. }
  unfold bind at 1. unfold get_movie_recommendations at 1.
  destruct (neighbours E _ _ st1) as [[recs|e2] st2] eqn:H2.
  2: { intros [= <-]. eapply neighbours_raises. by rewrite H2. }
  destruct (_ >=? _); [done|]. apply IH.
Qed.

(** The two stages of [build_candidate_pool], whether or not the first
    one raises. *)
Lemma build_candidate_pool_eq E watched cpm maxc minr st :
  build_candidate_pool E watched cpm maxc minr st =
  match seed_loop E (watched_ids watched) cpm maxc watched (∅, []) st with
  | (Ok acc, st1) =>
      (batch_loop E (fun candidate => get_movie_details E (c_tmdb_id candidate))
         (collect_candidates minr) (slice_to maxc acc.2) 10
         ((fun k => (k * 10)%nat)
            <$> seq 0 (batch_count (length (slice_to maxc acc.2)) 10)) []) st1
  | (Raise e, st1) => (Raise e, st1)
  end.
Proof.
  unfold build_candidate_pool, gather_candidates. unfold bind at 1 2.
  destruct (seed_loop _ _ _ _ _ _ _) as [[acc|e] st1]; [|done].
  unfold ret at 1. cbv beta iota. by rewrite range_step_pos.
Qed.

Lemma build_candidate_pool_run E watched cpm maxc minr st :
  match seed_loop E (watched_ids watched) cpm maxc watched (∅, []) st with
  | (Ok acc, st1) =>
      exists pool,
        build_candidate_pool E watched cpm maxc minr st
        = (Ok pool, (details_futures E (slice_to maxc acc.2) st1).2)
        /\ pool ≡ₚ omap (keep_candidate minr)
                     (details_futures E (slice_to maxc acc.2) st1).1
  | (Raise e, st1) =>
      build_candidate_pool E watched cpm maxc minr st = (Raise e, st1)
      /\ e = ValueError
  end.
Proof.
  rewrite build_candidate_pool_eq.
  destruct (seed_loop _ _ _ _ _ _ _) as [[acc|e] st1] eqn:Hloop.
  - destruct (batches_eq E
                (fun candidate => get_movie_details E (c_tmdb_id candidate))
                (keep_candidate minr) (slice_to maxc acc.2) 10 st1)
      as (starts & out & Hstarts & Hrun & Hperm); [lia|].
    rewrite range_step_pos in Hstarts by lia. injection Hstarts as <-.
    exists out. split; [|done]. exact Hrun.
  - split; [done|]. eapply seed_loop_raises. by rewrite Hloop.
Qed.

(** X21 (build_candidate_pool): building a pool raises nothing but
    [ValueError] (from a neighbour's release date), for every bound:
    every HTTP failure, of a neighbour list or of a details request, only
    makes the pool smaller.  It leaves every cached identity and record
    as it was.  For a bound [max_candidates >= 0] it sends at most two
    requests per watched movie plus [max_candidates] details requests and
    adds at most [max_candidates] cache keys. *)
Theorem build_candidate_pool_effects (E : Env) (watched : list Enriched)
    (candidates_per_movie max_candidates : Z) (min_rating : option Q)
    (st : Client) :
  let run := build_candidate_pool E watched candidates_per_movie
               max_candidates min_rating st in
  ((exists pool, run.1 = Ok pool) \/ run.1 = Raise ValueError)
  /\ (exists n k, reaches n k st run.2)
  /\ (0 <= max_candidates ->
      reaches (2 * length watched + Z.to_nat max_candidates)
        (Z.to_nat max_candidates) st run.2).
Proof.
  intros run. subst run.
  pose proof (build_candidate_pool_run E watched candidates_per_movie
                max_candidates min_rating st) as Hrun.
  pose proof (seed_loop_grows E (watched_ids watched) candidates_per_movie
                max_candidates watched (∅, []) st) as Hseeds.
  destruct (seed_loop _ _ _ _ _ _ _) as [[acc|e] st1].
  - destruct Hrun as (pool & -> & _). cbn [fst snd] in *.
    split; [by eauto|].
    pose proof (futures_of_grows
                  (fun candidate => get_movie_details E (c_tmdb_id candidate))
                  1 1 (fun c s => get_movie_details_grows E _ s)
                  (slice_to max_candidates acc.2) st1) as Hdetails.
    pose proof (grows_trans _ _ _ _ _ _ _ Hseeds Hdetails) as Hall.
    split; [eexists _, _; apply grows_reaches; exact Hall|].
    intros Hmax.
    pose proof (slice_to_length max_candidates acc.2 Hmax).
    apply grows_reaches. eapply grows_weaken; [exact Hall|lia..].
  - destruct Hrun as [-> ->]. cbn [fst snd] in *. split; [by right|].
    split; [eexists _, _; apply grows_reaches; exact Hseeds|].
    intros _. apply grows_reaches. eapply grows_weaken; [exact Hseeds|lia..].
Qed.

Lemma build_candidate_pool_effects_witness :
  let run := build_candidate_pool demo demo_watched 10 3 None new_client in
  ((exists pool, run.1 = Ok pool) \/ run.1 = Raise ValueError)
  /\ reaches (2 * length demo_watched + Z.to_nat 3) (Z.to_nat 3)
       new_client run.2.
Proof.
  intros run.
  destruct (build_candidate_pool_effects demo demo_watched 10 3 None
              new_client) as (Hraise & _ & Hbound).
  split; [exact Hraise|]. apply Hbound. lia.
Defined.

Lemma neighbours_none E ep st : (neighbours E ep 0 st).1 = Ok [].
Proof.
  rewrite neighbours_eq. cbn [fst]. by destruct (classify _).
Qed.

Lemma seed_loop_no_neighbours E watched maxc cpm seeds : forall st,
  cpm `div` 2 = 0 ->
  (seed_loop E watched cpm maxc seeds (∅, []) st).1 = Ok (∅, []).
Proof.
  intros st Hcpm. revert st.
  induction seeds as [|seed seeds IH]; intros st; [done|].
  cbn [seed_loop]. rewrite Hcpm.
  destruct (negb (truthy_int (tmdb_id (e_details seed)))); [apply IH|].
  unfold bind at 1. unfold get_similar_movies at 1.
  pose proof (neighbours_none E
    ("/movie/" +:+ str_int (default 0 (tmdb_id (e_details seed)))
     +:+ "/similar") st) as H1.
  destruct (neighbours E _ 0 st) as [r1 st1]. simpl in H1. subst r1.
  unfold bind at 1. unfold get_movie_recommendations at 1.
  pose proof (neighbours_none E
    ("/movie/" +:+ str_int (default 0 (tmdb_id (e_details seed)))
     +:+ "/recommendations") st1) as H2.
  destruct (neighbours E _ 0 st1) as [r2 st2]. simpl in H2. subst r2.
  simpl. destruct (_ >=? _); [done|]. apply IH.
Qed.

(** X22 (build_candidate_pool): with [candidates_per_movie] 0 or 1 the
    pool is always empty, whatever the watched movies, the bound and the
    provider: each seed is asked for [candidates_per_movie // 2 = 0]
    similar movies and as many recommendations (the requests are still
    sent). *)
Theorem one_candidate_per_movie_gives_no_pool (E : Env)
    (watched : list Enriched) (candidates_per_movie max_candidates : Z)
    (min_rating : option Q) (st : Client) :
  0 <= candidates_per_movie <= 1 ->
  (build_candidate_pool E watched candidates_per_movie max_candidates
     min_rating st).1 = Ok [].
Proof.
  intros Hcpm.
  assert (candidates_per_movie `div` 2 = 0) as Hdiv.
  { apply Z.div_small. lia. }
  pose proof (build_candidate_pool_run E watched candidates_per_movie
                max_candidates min_rating st) as Hrun.
  pose proof (seed_loop_no_neighbours E (watched_ids watched) max_candidates
                candidates_per_movie watched st Hdiv) as Hseeds.
  destruct (seed_loop _ _ _ _ _ _ _) as [r st1]. simpl in Hseeds. subst r.
  destruct Hrun as (pool & -> & Hperm). simpl.
  assert (slice_to max_candidates ([] : list Candidate) = []) as Hcut.
  { unfold slice_to. destruct (0 <=? max_candidates); apply take_nil. }
  simpl in Hperm. rewrite Hcut in Hperm. simpl in Hperm.
  apply Permutation_nil_r in Hperm. by subst.
Qed.

Lemma one_candidate_per_movie_gives_no_pool_witness :
  let run := build_candidate_pool demo demo_watched 1 100 None new_client in
  run.1 = Ok [].
Proof.
  apply (one_candidate_per_movie_gives_no_pool demo demo_watched 1 100 None
           new_client).
  lia.
Defined.

Lemma seed_loop_no_seeds E watched cpm maxc seeds : forall acc st,
  Forall (fun movie => truthy_int (tmdb_id (e_details movie)) = false) seeds ->
  seed_loop E watched cpm maxc seeds acc st = (Ok acc, st).
Proof.
  induction seeds as [|seed seeds IH]; intros acc st Hall; [done|].
  apply Forall_cons in Hall as [Hseed Hall].
  cbn [seed_loop]. rewrite Hseed. simpl. by apply IH.
Qed.

(** X23 (build_candidate_pool): watched movies without a TMDB id (the
    key missing, [None] or 0) are never used as seeds; when no watched
    movie has an id, and in particular for an empty watched list, the
    pool is empty and no request is sent. *)
Theorem no_seed_no_request (E : Env) (watched : list Enriched)
    (candidates_per_movie max_candidates : Z) (min_rating : option Q)
    (st : Client) :
  Forall (fun movie => truthy_int (tmdb_id (e_details movie)) = false)
         watched ->
  build_candidate_pool E watched candidates_per_movie max_candidates
    min_rating st = (Ok [], st).
Proof.
  intros Hall.
  pose proof (build_candidate_pool_run E watched candidates_per_movie
                max_candidates min_rating st) as Hrun.
  rewrite seed_loop_no_seeds in Hrun by done.
  destruct Hrun as (pool & -> & Hperm).
  assert (slice_to max_candidates ([] : list Candidate) = []) as Hcut.
  { unfold slice_to. destruct (0 <=? max_candidates); apply take_nil. }
  simpl in *. rewrite Hcut in *. simpl in *.
  apply Permutation_nil_r in Hperm. by subst.
Qed.

Lemma no_seed_no_request_witness :
  let unmatched :=
    {| e_other := ∅; e_details := _extract_movie_info no_payload |} in
  build_candidate_pool demo [unmatched; unmatched] 10 100 None new_client
  = (Ok [], new_client).
Proof.
  intros unmatched.
  apply (no_seed_no_request demo [unmatched; unmatched] 10 100 None
           new_client).
  repeat constructor.
Defined.

(** ** Discovery *)

Lemma classify_not_found h :
  classify h = Raise MovieNotFoundError -> exists body, h = Response 404 body.
Proof.
  destruct h as [f|code body]; simpl; [done|].
  destruct (code =? 401); [done|].
  destruct (code =? 404) eqn:H404.
  - apply Z.eqb_eq in H404 as ->. by exists body.
  - destruct (code =? 429); [done|]. by destruct (negb (code =? 200)).
Qed.

Lemma discover_movies_eq str_float E genres keywords min_year max_year
    min_rating max_results st :
  let rq := request_of "/discover/movie"
              (discover_params str_float genres keywords min_year max_year
                 min_rating) in
  discover_movies str_float E genres keywords min_year max_year min_rating
    max_results st =
  (match classify (net E (length (calls st)) rq) with
   | Ok data =>
       (mapM (neighbour E) (slice_to max_results (b_results data))
          (log_call rq st)).1
   | Raise TMDBAPIError => Ok []
   | Raise e => Raise e
   end, log_call rq st).
Proof.
  intros rq. unfold discover_movies, try_except, bind.
  rewrite make_request_eq. fold rq.
  destruct (classify_cases (net E (length (calls st)) rq))
    as [[data ->]|[-> | ->]]; simpl; [|done|done].
  pose proof (mapM_neighbour_state E (slice_to max_results (b_results data))
                (log_call rq st)) as Hst.
  pose proof (mapM_neighbour_result E (slice_to max_results (b_results data))
                (log_call rq st)) as Hr.
  destruct (mapM _ _ _) as [[cs|e] st1]; simpl in *; subst; [done|].
  by destruct Hr as [-> _].
Qed.

(** X24 (discover_movies): a discovery sends exactly one request, to
    [/discover/movie], and changes nothing else.  Its parameters start
    with [sort_by=vote_count.desc], and a filter is sent only if its
    argument is truthy: a filter given as [None], as an empty list or as 0
    is left out.  A 404 answer is raised to the caller as
    [MovieNotFoundError] (only [TMDBAPIError] is caught here, unlike in
    [get_similar_movies]); every other failure (another status, a
    timeout, a connection error) gives the empty list.  On a 200 answer
    the entries for [results[:max_results]] come back in their order,
    unless one of those results has a release date whose first four
    characters are not an integer, which raises [ValueError]. *)
Theorem discover_movies_effects (str_float : Q -> string) (E : Env)
    (genres keywords : option (list Z)) (min_year max_year : option Z)
    (min_rating : option Q) (max_results : Z) (st : Client) :
  let params :=
    discover_params str_float genres keywords min_year max_year min_rating in
  let rq := request_of "/discover/movie" params in
  let answer := net E (length (calls st)) rq in
  let run := discover_movies str_float E genres keywords min_year max_year
               min_rating max_results st in
  run.2 = log_call rq st
  /\ head params = Some ("sort_by", "vote_count.desc")
  /\ (forall key value, (key, value) ∈ params ->
        key = "sort_by"
        \/ (key = "with_genres" /\ truthy_list genres = true)
        \/ (key = "with_keywords" /\ truthy_list keywords = true)
        \/ (key = "primary_release_date.gte" /\ truthy_int min_year = true)
        \/ (key = "primary_release_date.lte" /\ truthy_int max_year = true)
        \/ (key = "vote_average.gte" /\ truthy_num min_rating = true))
  /\ (forall body, answer = Response 200 body ->
        match run.1 with
        | Ok l =>
            c_tmdb_id <$> l = r_id <$> slice_to max_results (b_results body)
            /\ c_title <$> l
               = r_title <$> slice_to max_results (b_results body)
            /\ (0 <= max_results -> Z.of_nat (length l) <= max_results)
        | Raise e =>
            e = ValueError
            /\ exists result,
                 result ∈ slice_to max_results (b_results body)
                 /\ r_release_date result <> ""
                 /\ int_of_str E (Str.take 4 (r_release_date result)) = None
        end)
  /\ (forall body, answer = Response 404 body ->
        run.1 = Raise MovieNotFoundError)
  /\ ((forall body, answer <> Response 200 body) ->
      (forall body, answer <> Response 404 body) ->
      run.1 = Ok []).
Proof.
  intros params rq answer run. subst run.
  rewrite discover_movies_eq. fold params rq answer. cbn [fst snd].
  split_and!; [done|done| | | |].
  - intros key value. unfold params, discover_params.
    intros H. repeat (apply elem_of_app in H as [H|H]).
    1: { apply list_elem_of_singleton in H. simplify_eq. by left. }
    all: match type of H with
         | _ ∈ (if ?b then _ else _) => destruct b eqn:Htruthy
         end;
      [apply list_elem_of_singleton in H; simplify_eq; tauto
      |by apply elem_of_nil in H].
  - intros body ->. rewrite classify_200.
    pose proof (mapM_neighbour_result E
                  (slice_to max_results (b_results body)) (log_call rq st))
      as Hr.
    destruct (mapM _ _ _).1 as [l|e]; [|done].
    destruct Hr as [Hids Htitles]. split_and!; [done..|].
    intros Hn. apply (f_equal length) in Hids.
    rewrite !length_fmap in Hids. rewrite Hids.
    by apply slice_to_length.
  - by intros body ->.
  - intros H200 H404.
    destruct (classify_cases answer) as [[data Hd]|[Hd|Hd]]; rewrite Hd.
    + apply classify_ok in Hd. by destruct (H200 data).
    + done.
    + apply classify_not_found in Hd as [body Hd]. by destruct (H404 body).
Qed.

(** ** The cache, seen from outside *)

(** X25 (clear_cache, get_cache_stats): the statistics are the number of
    keys of the cache and whether caching is on, and reading them changes
    nothing.  Clearing the cache sends no request and keeps caching on or
    off as it was; after it the size is 0, no lookup finds anything, and
    so the next resolution of any title and the next details request for
    any id go to the network again. *)
Theorem clear_cache_forgets_everything (st : Client) :
  let st' := (clear_cache st).2 in
  get_cache_stats st
  = (Ok (cache_size st, bool_decide (is_Some (cache st))), st)
  /\ (clear_cache st).1 = Ok tt
  /\ calls st' = calls st /\ sleeps st' = sleeps st
  /\ get_cache_stats st' = (Ok (0%nat, bool_decide (is_Some (cache st))), st')
  /\ (forall key, cached_id key st' = None /\ cached_rec key st' = None)
  /\ (forall E title year,
        exists more,
          calls (search_movie E title year st').2
          = calls st ++ search_rq title year :: more)
  /\ (forall E movie_id,
        calls (get_movie_details E movie_id st').2
        = calls st ++ [details_rq movie_id]).
Proof.
  intros st'.
  assert (calls st' = calls st /\ sleeps st' = sleeps st
          /\ cache st' = (fun _ => {| ids := ∅; recs := ∅ |}) <$> cache st)
    as (Hcalls & Hsleeps & Hcache).
  { unfold st', clear_cache. destruct (cache st) eqn:Hc; simpl; [done|].
    by rewrite Hc. }
  assert (forall key, cached_id key st' = None /\ cached_rec key st' = None)
    as Hmiss.
  { intros key. unfold cached_id, cached_rec. rewrite Hcache.
    destruct (cache st); simpl; [|done]. by rewrite !lookup_empty. }
  split_and!; try done.
  - unfold get_cache_stats, cache_size, cache_dom, cache_len.
    by destruct (cache st) as [c|].
  - unfold clear_cache. by destruct (cache st).
  - unfold get_cache_stats. rewrite Hcache.
    destruct (cache st) as [c|]; [|done]. simpl. unfold cache_len. simpl.
    by rewrite !dom_empty_L, (left_id_L ∅ (∪)), size_empty.
  - intros E title year.
    destruct (Hmiss (search_key title year)) as [Hid _].
    pose proof (search_movie_miss_full E title year st' Hid)
      as (_ & Hc & _).
    rewrite <-Hcalls. destruct Hc as [->|[_ ->]]; eauto.
  - intros E movie_id.
    destruct (Hmiss (details_key movie_id)) as [_ Hrec].
    rewrite get_movie_details_eq, Hrec. cbv zeta. rewrite <-Hcalls.
    by destruct (classify _).
Qed.

(** ** Enrichment followed by the candidate pool *)

Lemma search_movie_recs E t y st key :
  cached_rec key (search_movie E t y st).2 = cached_rec key st.
Proof.
  destruct (search_movie_cases E t y st)
    as [(id & _ & ->)|[_ (_ & _ & Hr)]]; [done|].
  unfold cached_rec.
  destruct (search_movie E t y st).1 as [[id|]|e].
  - destruct Hr as [-> _]. by destruct (cache st).
  - destruct Hr as [->| ->]; [done|]. by destruct (cache st).
  - by destruct Hr as [_ ->].
Qed.

(** Under a provider that answers with the record asked for, an
    enrichment keeps the cache keyed by id, and a record it returns
    carries a non-zero id. *)
Lemma enrich_movie_keyed E movie st :
  echoes_id E -> cache_keyed_by_id st ->
  cache_keyed_by_id (enrich_movie E movie st).2
  /\ forall enriched,
       (enrich_movie E movie st).1 = Ok (Some enriched) ->
       exists i, i <> 0 /\ tmdb_id (e_details enriched) = Some i.
Proof.
  intros Hnet Hst. rewrite enrich_movie_eq.
  destruct (negb (truthy_str (m_title movie))); [done|].
  pose proof (search_movie_recs E (default "" (m_title movie))
                (m_year movie) st) as Hrecs.
  destruct (search_movie E (default "" (m_title movie)) (m_year movie) st)
    as [[movie_id|e] st1]; simpl in Hrecs.
  2: { split; [|done]. intros i d. simpl. rewrite Hrecs. apply Hst. }
  assert (cache_keyed_by_id st1) as Hst1.
  { intros i d. rewrite Hrecs. apply Hst. }
  destruct (negb (truthy_int movie_id)) eqn:Hid; [done|].
  apply negb_false_iff, truthy_int_Some in Hid as (id & -> & Hnz). simpl.
  destruct (get_movie_details_good E (fun i d => tmdb_id d = Some i)
              ltac:(intros k i data ?%classify_ok; by eapply Hnet)
              id st1 Hst1) as (v & Hv & Hd & Hst2).
  destruct (get_movie_details E id st1) as [r st2]. simpl in *. subst r.
  destruct v as [d|]; simpl; split; try done.
  intros enriched [= <-]. exists id. split; [done|]. by apply Hd.
Qed.

Lemma enrich_futures_keyed E movies : forall st,
  echoes_id E -> cache_keyed_by_id st ->
  cache_keyed_by_id (futures_of (enrich_movie E) movies st).2
  /\ Forall (fun f : Movie * result (option Enriched) =>
               forall enriched, f.2 = Ok (Some enriched) ->
                 exists i, i <> 0 /\ tmdb_id (e_details enriched) = Some i)
            (futures_of (enrich_movie E) movies st).1.
Proof.
  induction movies as [|movie movies IH]; intros st Hnet Hst; simpl; [done|].
  destruct (enrich_movie_keyed E movie st Hnet Hst) as [Hst1 Hid].
  destruct (enrich_movie E movie st) as [r st1]. simpl in *.
  destruct (IH st1 Hnet Hst1) as [Hst2 Hall].
  destruct (futures_of (enrich_movie E) movies st1) as [fs st2]. simpl in *.
  split; [done|]. by constructor.
Qed.

Lemma enrich_movies_keyed E movies parallel batch_size st out st1 :
  echoes_id E -> cache_keyed_by_id st ->
  enrich_movies E movies parallel batch_size st = (Ok out, st1) ->
  cache_keyed_by_id st1
  /\ forall w, w ∈ out ->
       exists i, i <> 0 /\ tmdb_id (e_details w) = Some i.
Proof.
  intros Hnet Hst Hrun.
  destruct (enrich_futures_keyed E movies st Hnet Hst) as [Hst' Hall].
  assert (forall w, w ∈ omap keep_enriched (outcomes E movies st) ->
            exists i, i <> 0 /\ tmdb_id (e_details w) = Some i) as Hkept.
  { intros w (f & Hf & Hkeep)%list_elem_of_omap.
    rewrite Forall_forall in Hall. apply (Hall f Hf).
    unfold keep_enriched in Hkeep. by destruct f.2 as [[e|]|e]; simplify_eq. }
  unfold enrich_movies in Hrun.
  destruct (parallel && (1 <? length movies)%nat).
  - destruct (enrich_movies_parallel_cases E movies batch_size st)
      as [[_ Heq]|[[_ Heq]|[_ (out' & Heq & Hperm)]]];
      rewrite Heq in Hrun; simplify_eq.
    + split; [done|]. by intros w ?%elem_of_nil.
    + split; [done|]. intros w Hw. rewrite Hperm in Hw. by apply Hkept.
  - apply enrich_sequential_inv in Hrun as (_ & -> & ->). by split.
Qed.

(** The ids of a pool are not watched ids. *)
Lemma pool_ids_not_watched E watched cpm maxc minr st pool st' :
  echoes_id E -> cache_keyed_by_id st ->
  build_candidate_pool E watched cpm maxc minr st = (Ok pool, st') ->
  forall d, d ∈ pool ->
    exists i, tmdb_id d = Some i /\ i ∉ watched_ids watched.
Proof.
  intros Hnet Hst (acc & st1 & Hloop & -> & Hperm)%build_candidate_pool_stages.
  assert (cache_keyed_by_id st1) as Hst1.
  { pose proof (seed_loop_cache E (watched_ids watched) cpm maxc watched
                  (∅, []) st) as Hc.
    rewrite Hloop in Hc. simpl in Hc. intros i d. unfold cached_rec.
    rewrite Hc. apply Hst. }
  apply cut_candidates_inv in Hloop as (Hnd & Hw).
  destruct (futures_good E (fun i d => tmdb_id d = Some i)
              ltac:(intros k i data ?%classify_ok; by eapply Hnet)
              (slice_to maxc acc.2) st1 Hst1) as [Hall _].
  destruct (kept_ids (keep_candidate minr) _ (keep_candidate_fetched minr)
              Hall) as (sub & Hsub & Hids).
  unfold details_futures in Hsub. rewrite futures_of_items in Hsub.
  intros d Hd. rewrite Hperm in Hd.
  assert (tmdb_id d ∈ tmdb_id <$> omap (keep_candidate minr)
            (details_futures E (slice_to maxc acc.2) st1).1) as Hin.
  { apply list_elem_of_fmap. eauto. }
  rewrite Hids in Hin. apply list_elem_of_fmap in Hin as (c & -> & Hc).
  exists (c_tmdb_id c). split; [done|]. apply Hw.
  by apply (sublist_subseteq _ _ Hsub).
Qed.

(** X26 (enrich_movies, then build_candidate_pool, as the application
    chains them): when the provider answers a details request with the
    record of the id asked for, every record that [enrich_movies] returns
    carries a non-zero TMDB id, so each of them counts as watched, and the
    pool built from them holds no record with the id of any of them: a
    film that was matched is never a candidate. *)
Theorem pool_excludes_every_enriched_movie (E : Env) (movies : list Movie)
    (parallel : bool) (batch_size candidates_per_movie max_candidates : Z)
    (min_rating : option Q) (st st1 st2 : Client) (watched : list Enriched)
    (pool : list DetailRecord) :
  echoes_id E ->
  cache_keyed_by_id st ->
  enrich_movies E movies parallel batch_size st = (Ok watched, st1) ->
  build_candidate_pool E watched candidates_per_movie max_candidates
    min_rating st1 = (Ok pool, st2) ->
  (forall w, w ∈ watched ->
     exists i, i <> 0 /\ tmdb_id (e_details w) = Some i
               /\ i ∈ watched_ids watched)
  /\ (forall d w, d ∈ pool -> w ∈ watched ->
        tmdb_id d <> tmdb_id (e_details w)).
Proof.
  intros Hnet Hst Henrich Hpool.
  destruct (enrich_movies_keyed _ _ _ _ _ _ _ Hnet Hst Henrich)
    as [Hst1 Hids].
  assert (forall w, w ∈ watched ->
            exists i, i <> 0 /\ tmdb_id (e_details w) = Some i
                      /\ i ∈ watched_ids watched) as Hw.
  { intros w Hin. destruct (Hids w Hin) as (i & Hnz & Hi).
    exists i. split_and!; [done..|]. apply elem_of_watched_ids. eauto. }
  split; [done|].
  intros d w Hd Hin Heq.
  destruct (pool_ids_not_watched _ _ _ _ _ _ _ _ Hnet Hst1 Hpool d Hd)
    as (j & Hj & Hnotin).
  destruct (Hw w Hin) as (i & _ & Hi & Hwatched).
  congruence.
Qed.

Lemma pool_excludes_every_enriched_movie_witness :
  let movies := [film "The Godfather" (Some 1972); film "Zzyzx Road" None] in
  let run := enrich_movies demo movies true 10 new_client in
  exists watched pool st2,
    run.1 = Ok watched /\ length watched = 1%nat
    /\ build_candidate_pool demo watched 10 100 None run.2 = (Ok pool, st2)
    /\ length pool = 3%nat
    /\ (forall d w, d ∈ pool -> w ∈ watched ->
          tmdb_id d <> tmdb_id (e_details w)).
Proof.
  intros movies run.
  destruct run as [r st1] eqn:Hrun.
  assert (exists watched, r = Ok watched /\ length watched = 1%nat)
    as (watched & -> & Hlen).
  { vm_compute in Hrun. injection Hrun as <- <-. eexists.
    split; reflexivity. }
  destruct (build_candidate_pool demo watched 10 100 None st1)
    as [r2 st2] eqn:Hpool.
  assert (exists pool, r2 = Ok pool /\ length pool = 3%nat)
    as (pool & -> & Hlen2).
  { vm_compute in Hrun. injection Hrun as <- <-.
    vm_compute in Hpool. injection Hpool as <- <-. eexists.
    split; reflexivity. }
  exists watched, pool, st2.
  split; [reflexivity|]. split; [exact Hlen|].
  split; [exact Hpool|]. split; [exact Hlen2|].
  apply (pool_excludes_every_enriched_movie demo movies true 10 10 100 None
           new_client st1 st2 watched pool
           demo_echoes_id new_client_keyed_by_id Hrun Hpool).
Defined.

(** ** Fresh recommendations for two profiles *)

(** *** The tally of the listings *)

Lemma first_listed_snoc ids id :
  first_listed (ids ++ [id]) =
  if bool_decide (id ∈ first_listed ids) then first_listed ids
  else first_listed ids ++ [id].
Proof. unfold first_listed. by rewrite foldl_app. Qed.

Lemma first_listed_elem ids : forall id, id ∈ first_listed ids <-> id ∈ ids.
Proof.
  induction ids as [|x ids IH] using rev_ind; intros id; [done|].
  rewrite first_listed_snoc, elem_of_app, list_elem_of_singleton.
  case_bool_decide as Hx.
  - rewrite IH. split; [tauto|]. intros [?| ->]; [done|]. by apply IH.
  - rewrite elem_of_app, list_elem_of_singleton, IH. done.
Qed.

Lemma first_listed_NoDup ids : NoDup (first_listed ids).
Proof.
  induction ids as [|x ids IH] using rev_ind; [constructor|].
  rewrite first_listed_snoc. case_bool_decide as Hx; [done|].
  apply NoDup_app. split_and!; [done| |apply NoDup_singleton].
  intros y Hy ->%list_elem_of_singleton. done.
Qed.

Lemma listings_of_snoc id listings movie :
  listings_of id (listings ++ [movie]) =
  listings_of id listings ++ (if bool_decide (c_tmdb_id movie = id)
                              then [movie] else []).
Proof.
  unfold listings_of. rewrite filter_app. f_equal.
  case_bool_decide.
  - by rewrite filter_cons_True.
  - by rewrite filter_cons_False.
Qed.

Lemma listings_of_nil id listings :
  id ∉ c_tmdb_id <$> listings -> listings_of id listings = [].
Proof.
  intros Hid. unfold listings_of.
  induction listings as [|c l IH]; [done|].
  rewrite fmap_cons, not_elem_of_cons in Hid. destruct Hid as [Hne Hid].
  rewrite filter_cons_False by done. by apply IH.
Qed.

Lemma count_similar_ids movie map i :
  i ∈ s_tmdb_id <$> count_similar movie map <->
  i ∈ s_tmdb_id <$> map \/ i = c_tmdb_id movie.
Proof.
  induction map as [|entry map IH]; simpl.
  - rewrite list_elem_of_singleton, elem_of_nil. tauto.
  - destruct (s_tmdb_id entry =? c_tmdb_id movie) eqn:Heq.
    + apply Z.eqb_eq in Heq. rewrite !fmap_cons, !elem_of_cons. simpl.
      split; [tauto|]. intros [?| ->]; [tauto|]. by left.
    + rewrite !fmap_cons, !elem_of_cons, IH. tauto.
Qed.

(** A film that the map does not hold yet is added at its end. *)
Lemma count_similar_new movie map :
  c_tmdb_id movie ∉ s_tmdb_id <$> map ->
  count_similar movie map =
  map ++ [ {| s_tmdb_id := c_tmdb_id movie; s_title := c_title movie;
              s_year := c_year movie; s_count := 1 |} ].
Proof.
  induction map as [|entry map IH]; [done|].
  rewrite fmap_cons, not_elem_of_cons. intros [Hne Hnotin]. simpl.
  destruct (s_tmdb_id entry =? c_tmdb_id movie) eqn:Heq.
  - apply Z.eqb_eq in Heq. congruence.
  - by rewrite IH.
Qed.

(** A film that the map holds has its count raised, and nothing else
    changes. *)
Lemma count_similar_known movie map :
  NoDup (s_tmdb_id <$> map) ->
  c_tmdb_id movie ∈ s_tmdb_id <$> map ->
  Forall2 (fun old new =>
             s_tmdb_id new = s_tmdb_id old /\ s_title new = s_title old
             /\ s_year new = s_year old
             /\ s_count new
                = s_count old
                  + (if bool_decide (c_tmdb_id movie = s_tmdb_id old)
                     then 1 else 0))
          map (count_similar movie map).
Proof.
  induction map as [|entry map IH]; intros Hnd Hin.
  { by apply elem_of_nil in Hin. }
  rewrite fmap_cons in Hnd, Hin. apply NoDup_cons in Hnd as [Hnotin Hnd].
  simpl. destruct (s_tmdb_id entry =? c_tmdb_id movie) eqn:Heq.
  - apply Z.eqb_eq in Heq. constructor.
    + simpl. rewrite bool_decide_eq_true_2 by done. done.
    + apply Forall2_same_length_lookup_2; [done|].
      intros i old new Hold Hnew. assert (old = new) as <- by congruence.
      split_and!; try done.
      rewrite bool_decide_eq_false_2; [lia|]. intros Hid. apply Hnotin.
      rewrite Heq, Hid. apply list_elem_of_fmap. exists old. split; [done|].
      by eapply list_elem_of_lookup_2.
  - apply Z.eqb_neq in Heq. constructor.
    + rewrite bool_decide_eq_false_2 by done. split_and!; try done. lia.
    + apply IH; [done|]. apply elem_of_cons in Hin as [?|?]; [|done].
      congruence.
Qed.

Lemma count_similar_tally listings movie map :
  tally_of listings map ->
  tally_of (listings ++ [movie]) (count_similar movie map).
Proof.
  intros [Hids Hall].
  assert (NoDup (s_tmdb_id <$> map)) as Hnd.
  { rewrite Hids. apply first_listed_NoDup. }
  unfold tally_of. rewrite fmap_app.
  change (c_tmdb_id <$> [movie]) with [c_tmdb_id movie].
  rewrite first_listed_snoc, <-Hids.
  destruct (decide (c_tmdb_id movie ∈ s_tmdb_id <$> map)) as [Hin|Hnotin].
  - pose proof (count_similar_known movie map Hnd Hin) as Hstep.
    rewrite bool_decide_eq_true_2 by done. split.
    + clear -Hstep.
      induction Hstep as [|old new l l' (Hid & _) _ IH]; [done|].
      rewrite !fmap_cons. by f_equal.
    + clear Hids Hnd Hin.
      induction Hstep as [|old new l l' (Hid & Ht & Hy & Hc) _ IH]; [done|].
      apply Forall_cons in Hall as [(Hcount & first & Hfirst & ? & ?) Hall].
      constructor; [|by apply IH].
      rewrite Hid, listings_of_snoc, length_app, Hc, Hcount. split.
      * case_bool_decide; simpl; lia.
      * exists first. split; [|by rewrite Ht, Hy].
        destruct (listings_of (s_tmdb_id old) listings); [done|].
        simpl in *. done.
  - rewrite bool_decide_eq_false_2 by done.
    rewrite count_similar_new by done. split.
    + by rewrite fmap_app.
    + apply Forall_app. split.
      * apply Forall_forall. intros rec Hrec.
        rewrite Forall_forall in Hall.
        destruct (Hall rec Hrec) as (Hcount & first & Hfirst & ? & ?).
        assert (c_tmdb_id movie <> s_tmdb_id rec) as Hne.
        { intros Heq. apply Hnotin. rewrite Heq.
          apply list_elem_of_fmap. by exists rec. }
        rewrite listings_of_snoc, bool_decide_eq_false_2, app_nil_r by done.
        split; [done|]. by exists first.
      * apply Forall_singleton. simpl.
        rewrite listings_of_snoc, bool_decide_eq_true_2 by done.
        rewrite listings_of_nil.
        2: { rewrite <-first_listed_elem, <-Hids. done. }
        split; [done|]. by exists movie.
Qed.

Lemma tally_of_foldl more : forall listings map,
  tally_of listings map ->
  tally_of (listings ++ more)
    (foldl (fun map movie => count_similar movie map) map more).
Proof.
  induction more as [|movie more IH]; intros listings map Hmap; simpl.
  { by rewrite app_nil_r. }
  replace (listings ++ movie :: more) with ((listings ++ [movie]) ++ more)
    by by rewrite <-app_assoc.
  apply IH. by apply count_similar_tally.
Qed.

Lemma add_similar_eq (W : gset string) similar : forall map,
  add_similar W similar map =
  foldl (fun map movie => count_similar movie map) map
        (filter (fun movie => c_title movie ∉ W) similar).
Proof.
  unfold add_similar.
  induction similar as [|movie similar IH]; intros map; [done|].
  simpl. rewrite IH. case_bool_decide as Hw.
  - by rewrite filter_cons_False by (intros ?; done).
  - by rewrite filter_cons_True.
Qed.

Lemma add_similar_app W l1 l2 map :
  add_similar W (l1 ++ l2) map = add_similar W l2 (add_similar W l1 map).
Proof. unfold add_similar. by rewrite foldl_app. Qed.

(** *** The loop over the seeds *)

Lemma collect_similar_step E W seed seeds map st :
  collect_similar E W (seed :: seeds) map st =
  collect_similar E W seeds
    (match (get_similar_movies E (seed_tmdb_id seed) 10 st).1 with
     | Ok similar => add_similar W similar map
     | Raise _ => map
     end)
    (get_similar_movies E (seed_tmdb_id seed) 10 st).2.
Proof.
  cbn [collect_similar]. unfold bind at 1, try_except, bind at 1.
  by destruct (get_similar_movies E (seed_tmdb_id seed) 10 st)
    as [[similar|e] st1].
Qed.

Lemma get_similar_movies_state E seed st :
  (get_similar_movies E (seed_tmdb_id seed) 10 st).2
  = log_call (similar_rq seed) st.
Proof. apply neighbours_state. Qed.

Lemma collect_similar_eq E W seeds : forall map st,
  collect_similar E W seeds map st =
  (Ok (add_similar W (similar_of_seeds E seeds st) map),
   {| cache := cache st; calls := calls st ++ (similar_rq <$> seeds);
      sleeps := sleeps st |}).
Proof.
  induction seeds as [|seed seeds IH]; intros map st.
  { simpl. rewrite app_nil_r. by destruct st. }
  rewrite collect_similar_step, IH. cbn [similar_of_seeds]. cbv zeta.
  rewrite get_similar_movies_state. f_equal.
  - f_equal. rewrite add_similar_app.
    by destruct (get_similar_movies E (seed_tmdb_id seed) 10 st).1.
  - simpl. by rewrite <-app_assoc.
Qed.

(** *** The ranking *)

Lemma insert_by_count_perm x l : insert_by_count x l ≡ₚ x :: l.
Proof.
  induction l as [|y l IH]; simpl; [done|].
  destruct (s_count y <? s_count x); [done|].
  rewrite IH. apply Permutation_swap.
Qed.

Lemma insert_by_count_sorted x l :
  StronglySorted by_count_desc l ->
  StronglySorted by_count_desc (insert_by_count x l).
Proof.
  induction 1 as [|y l Hsorted IH Hall]; simpl.
  { by repeat constructor. }
  destruct (s_count y <? s_count x) eqn:Hlt.
  - apply Z.ltb_lt in Hlt. constructor; [by constructor|].
    constructor; [unfold by_count_desc; lia|].
    eapply Forall_impl; [exact Hall|]. unfold by_count_desc. intros; lia.
  - apply Z.ltb_ge in Hlt. constructor; [done|].
    rewrite insert_by_count_perm. by constructor.
Qed.

Lemma filter_none {A} (P : A -> Prop) `{!forall x, Decision (P x)} l :
  Forall (fun x => ~ P x) l -> filter P l = [].
Proof.
  induction 1 as [|x l Hx _ IH]; [done|]. by rewrite filter_cons_False.
Qed.

(** An entry is put behind the entries of its count. *)
Lemma insert_by_count_stable x l n :
  StronglySorted by_count_desc l ->
  filter (fun rec => s_count rec = n) (insert_by_count x l)
  = filter (fun rec => s_count rec = n) l
    ++ (if bool_decide (s_count x = n) then [x] else []).
Proof.
  induction 1 as [|y l Hsorted IH Hall]; simpl.
  { case_bool_decide.
    - by rewrite filter_cons_True.
    - by rewrite filter_cons_False. }
  destruct (s_count y <? s_count x) eqn:Hlt.
  - apply Z.ltb_lt in Hlt. case_bool_decide as Hx.
    + rewrite filter_cons_True by done.
      assert (filter (fun rec => s_count rec = n) (y :: l) = []) as ->; [|done].
      apply filter_none. constructor; [lia|].
      eapply Forall_impl; [exact Hall|]. unfold by_count_desc. intros; lia.
    + rewrite filter_cons_False by done. by rewrite app_nil_r.
  - destruct (decide (s_count y = n)) as [Hy|Hy].
    + by rewrite !(filter_cons_True _ y) by done; rewrite IH.
    + by rewrite !(filter_cons_False _ y) by done.
Qed.

Lemma sort_by_count_spec l : ranking_of l (sort_by_count l).
Proof.
  unfold sort_by_count, ranking_of.
  assert (forall acc,
            StronglySorted by_count_desc acc ->
            foldl (fun sorted x => insert_by_count x sorted) acc l ≡ₚ acc ++ l
            /\ StronglySorted by_count_desc
                 (foldl (fun sorted x => insert_by_count x sorted) acc l)
            /\ forall n,
                 filter (fun rec => s_count rec = n)
                   (foldl (fun sorted x => insert_by_count x sorted) acc l)
                 = filter (fun rec => s_count rec = n) (acc ++ l))
    as Hgen.
  { induction l as [|x l IH]; intros acc Hacc; simpl.
    - by rewrite app_nil_r.
    - destruct (IH (insert_by_count x acc)
                  (insert_by_count_sorted x acc Hacc))
        as (Hperm & Hsorted & Hstable).
      split_and!; [|done|].
      + rewrite Hperm, insert_by_count_perm.
        simpl. apply Permutation_middle.
      + intros n. rewrite Hstable, !filter_app, insert_by_count_stable by done.
        rewrite <-app_assoc. f_equal.
        case_bool_decide.
        * by rewrite filter_cons_True.
        * by rewrite filter_cons_False. }
  apply (Hgen []). constructor.
Qed.

(** *** The entries *)

Lemma enrich_recommendation_eq E rec st :
  enrich_recommendation E rec st =
  (Ok (match (get_movie_details E (s_tmdb_id rec) st).1 with
       | Ok (Some details) => detailed_info rec details
       | _ => basic_info rec
       end),
   (get_movie_details E (s_tmdb_id rec) st).2).
Proof.
  unfold enrich_recommendation, try_except, bind.
  by destruct (get_movie_details E (s_tmdb_id rec) st) as [[[d|]|e] st1].
Qed.

Lemma mapM_cons {A B} (f : A -> M B) a l st :
  mapM f (a :: l) st =
  match f a st with
  | (Ok b, st1) =>
      match mapM f l st1 with
      | (Ok bs, st2) => (Ok (b :: bs), st2)
      | (Raise e, st2) => (Raise e, st2)
      end
  | (Raise e, st1) => (Raise e, st1)
  end.
Proof.
  cbn [mapM]. unfold bind at 1. destruct (f a st) as [[b|e] st1]; [|done].
  unfold bind. by destruct (mapM f l st1) as [[bs|e] st2].
Qed.

Lemma enrich_recommendations_run E recs : forall st,
  exists out,
    (mapM (enrich_recommendation E) recs st).1 = Ok out
    /\ enriched_from E st recs out (mapM (enrich_recommendation E) recs st).2.
Proof.
  induction recs as [|rec recs IH]; intros st.
  { exists []. split; [done|]. constructor. }
  rewrite mapM_cons, enrich_recommendation_eq.
  destruct (IH (get_movie_details E (s_tmdb_id rec) st).2)
    as (out & Hout & Hfrom).
  destruct (mapM (enrich_recommendation E) recs _) as [r st2].
  simpl in Hout, Hfrom. subst r. eexists. split; [done|].
  by constructor.
Qed.

Lemma enriched_from_scores E st recs out st' :
  enriched_from E st recs out st' ->
  f_similarity_score <$> out = s_count <$> recs
  /\ grows (length out) (length out) st st'.
Proof.
  induction 1 as [st|st rec recs fresh out st' -> _ [IH1 IH2]].
  { split; [done|apply grows_refl]. }
  split.
  - rewrite !fmap_cons, IH1. f_equal.
    by destruct (get_movie_details E (s_tmdb_id rec) st).1 as [[d|]|e].
  - apply (grows_trans 1 1 _ _ _ _ _ (get_movie_details_grows E _ st) IH2).
Qed.

Lemma StronglySorted_take {A} (R : A -> A -> Prop) k l :
  StronglySorted R l -> StronglySorted R (take k l).
Proof.
  intros H. rewrite <-(take_drop k l) in H.
  by apply StronglySorted_app_1_l in H.
Qed.

Lemma slice_to_nil {A} n : slice_to n ([] : list A) = [].
Proof. unfold slice_to. destruct (0 <=? n); apply take_nil. Qed.

Lemma tally_similar_inv (W : gset string) similar map ranked :
  tally_of (filter (fun movie => c_title movie ∉ W) similar) map ->
  ranked ≡ₚ map ->
  similar_inv W ranked.
Proof.
  intros [Hids Hall] Hperm. split.
  - rewrite Hperm, Hids. apply first_listed_NoDup.
  - rewrite Hperm. eapply Forall_impl; [exact Hall|]. cbv beta.
    intros rec (Hcount & first & Hfirst & Htitle & _).
    unfold listings_of in *.
    destruct (filter _ (filter _ similar)) as [|c l] eqn:Hl; [done|].
    injection Hfirst as ->. split; [rewrite Hcount; simpl; lia|].
    assert (first ∈ filter (fun movie => c_tmdb_id movie = s_tmdb_id rec)
              (filter (fun movie => c_title movie ∉ W) similar)) as Hin.
    { rewrite Hl. left. }
    apply list_elem_of_filter in Hin as [_ Hin].
    apply list_elem_of_filter in Hin as [Hw _]. by rewrite Htitle.
Qed.

(** X27 (generate_fresh_recommendations, app.py): whatever seeds the
    comparator returns and whatever the provider answers, the function
    returns without raising, after one similar-movies request for each
    seed, in their order, and one details lookup for each entry it
    returns.  The listings are what the provider lists for the seeds,
    without those under a title that one of the profiles has.  The map
    holds one entry for each film listed, in the order of the first
    listings, with the title and the year of the first listing of the
    film and the number of its listings as count; the recommendations
    are the map sorted by count, the higher counts first and equal counts
    in the order of the map.  The result has one entry for each of
    [recommendations[:max_recommendations]], in that order, with the
    count as similarity score: the entry is built from the details that
    [get_movie_details] returns for the id, and is the basic entry when
    it returns none.  With no seed the result is empty and nothing is
    sent. *)
Theorem fresh_recommendations_are_ranked
    (get_seed_movies_for_recommendations :
       gmap string ProfileMovie -> gmap string ProfileMovie ->
       gset string -> list Seed)
    (E : Env) (profile1 profile2 : list ProfileMovie)
    (others : list (list ProfileMovie)) (max_recommendations : Z)
    (st : Client) :
  let run :=
    generate_fresh_recommendations get_seed_movies_for_recommendations E
      profile1 profile2 others max_recommendations st in
  let all_watched_titles : gset string :=
    list_to_set (pm_title <$> concat (profile1 :: profile2 :: others)) in
  let seed_movies :=
    get_seed_movies_for_recommendations (by_title profile1)
      (by_title profile2)
      (dom (by_title profile1) ∩ dom (by_title profile2)) in
  let listings :=
    filter (fun movie => c_title movie ∉ all_watched_titles)
           (similar_of_seeds E seed_movies st) in
  let st1 :=
    {| cache := cache st; calls := calls st ++ (similar_rq <$> seed_movies);
       sleeps := sleeps st |} in
  exists similar_movies_map recommendations enriched_recs,
    run.1 = Ok enriched_recs
    /\ tally_of listings similar_movies_map
    /\ ranking_of similar_movies_map recommendations
    /\ enriched_from E st1
         (slice_to max_recommendations recommendations) enriched_recs run.2
    /\ similar_inv all_watched_titles recommendations
    /\ f_similarity_score <$> enriched_recs
       = s_count <$> slice_to max_recommendations recommendations
    /\ StronglySorted (fun a b => b <= a)
         (f_similarity_score <$> enriched_recs)
    /\ (0 <= max_recommendations ->
        Z.of_nat (length enriched_recs) <= max_recommendations)
    /\ (seed_movies = [] -> run = (Ok [], st))
    /\ reaches (length seed_movies + length enriched_recs)
         (length enriched_recs) st run.2.
Proof.
  intros run W seeds listings st1.
  set (map := foldl (fun map movie => count_similar movie map) [] listings).
  assert (tally_of listings map) as Htally.
  { apply (tally_of_foldl listings [] []). by split. }
  pose proof (sort_by_count_spec map) as Hranking.
  assert (exists out,
            run = (Ok out, run.2)
            /\ enriched_from E st1
                 (slice_to max_recommendations (sort_by_count map)) out run.2
            /\ (seeds = [] -> run = (Ok [], st)))
    as (out & Hrun & Hfrom & Hnone).
  { subst run. unfold generate_fresh_recommendations.
    fold W. fold seeds. unfold map, listings, st1. clearbody seeds.
    destruct seeds as [|seed seeds'].
    - exists []. split; [done|]. split; [|done].
      simpl. change (sort_by_count []) with ([] : list Similar).
      rewrite slice_to_nil, app_nil_r. destruct st. constructor.
    - set (seeds := seed :: seeds').
      unfold bind. rewrite collect_similar_eq, add_similar_eq.
      cbv beta iota zeta.
      destruct (enrich_recommendations_run E
                  (slice_to max_recommendations
                     (sort_by_count
                        (foldl (fun map movie => count_similar movie map) []
                           (filter (fun movie => c_title movie ∉ W)
                              (similar_of_seeds E seeds st)))))
                  {| cache := cache st;
                     calls := calls st ++ (similar_rq <$> seeds);
                     sleeps := sleeps st |}) as (out & Hout & Hfrom).
      destruct (mapM _ _ _) as [r st2]. simpl in Hout, Hfrom. subst r.
      exists out. split; [done|]. split; [exact Hfrom|done]. }
  destruct (enriched_from_scores _ _ _ _ _ Hfrom) as [Hscores Hgrows].
  destruct Hranking as (Hperm & Hsorted & Hstable).
  exists map, (sort_by_count map), out.
  split_and!; try done.
  - by rewrite Hrun.
  - by eapply tally_similar_inv.
  - rewrite Hscores.
    destruct (slice_to_take max_recommendations (sort_by_count map))
      as [k ->].
    apply (StronglySorted_take _ k) in Hsorted.
    clear -Hsorted. induction Hsorted as [|rec recs _ IH Hall];
      [constructor|].
    rewrite fmap_cons. constructor; [done|].
    apply Forall_fmap. eapply Forall_impl; [exact Hall|]. done.
  - intros Hmax. apply (f_equal length) in Hscores.
    rewrite !length_fmap in Hscores. rewrite Hscores.
    by apply slice_to_length.
  - apply grows_reaches.
    eapply (grows_trans _ 0 _ _ st st1); [|exact Hgrows].
    eapply (grows_calls_only _ _ _ (similar_rq <$> seeds)); try done.
    by rewrite length_fmap.
Qed.

(** ** Resolution with a year, after strategy 1 *)

Opaque _fuzzy_match_title.

(** X28 (search_movie, strategies 2 to 4 with a year): when the query
    has a year, misses the cache, and the first result of the search with
    the year is not of that year (or there is no result), a second search,
    with the title alone, is always sent.  If it is answered with 200, the
    identity is the fuzzy match at 85 among its results if that is a
    non-zero id; else, when the first search had results, the fuzzy match
    at 85 among those or their first result; else the fuzzy match at 75
    among the results of the second search; else the resolution is absent;
    the outcome is written to the cache.  If the second search fails with
    an API error the resolution is absent and nothing is cached, even when
    the first search had results; a 404 is raised. *)
Theorem search_with_year_falls_back (E : Env) (title : string)
    (year : option Z) (st : Client) (body1 : Body) :
  cached_id (search_key title year) st = None ->
  truthy_int year = true ->
  net E (length (calls st)) (search_rq title year) = Response 200 body1 ->
  match b_results body1 with
  | first :: _ =>
      Str.take 4 (r_release_date first) <> str_int (default 0 year)
  | [] => True
  end ->
  let results := b_results body1 in
  let after (c : option Cache) : Client :=
    {| cache := c;
       calls := calls st ++ [search_rq title year; search_rq title None];
       sleeps := sleeps st |} in
  search_movie E title year st =
  match classify (net E (S (length (calls st))) (search_rq title None)) with
  | Ok body2 =>
      let results_no_year := b_results body2 in
      let fuzzy2 := _fuzzy_match_title title results_no_year year 85 in
      let v :=
        if truthy_int fuzzy2 then fuzzy2
        else
          match results with
          | first :: _ =>
              let fuzzy3 := _fuzzy_match_title title results year 85 in
              if truthy_int fuzzy3 then fuzzy3 else Some (r_id first)
          | [] =>
              let fuzzy4 := _fuzzy_match_title title results_no_year year 75 in
              if truthy_int fuzzy4 then fuzzy4 else None
          end in
      (Ok v, after (cache_set_id (search_key title year) v (cache st)))
  | Raise TMDBAPIError => (Ok None, after (cache st))
  | Raise e => (Raise e, after (cache st))
  end.
Proof.
  intros Hmiss Hyear Hnet Hfirst results after. subst results after.
  unfold search_movie. fold (search_key title year).
  unfold bind at 1. rewrite get_from_cache_id_miss by done.
  unfold try_except, bind at 1. rewrite search_request_eq, Hnet, classify_200.
  rewrite Hyear. cbn [andb].
  set (st1 := log_call (search_rq title year) st).
  assert (length (calls st1) = S (length (calls st))) as Hlen.
  { unfold st1. simpl. rewrite length_app. simpl. lia. }
  assert (forall c,
            {| cache := c; calls := calls (log_call (search_rq title None) st1);
               sleeps := sleeps (log_call (search_rq title None) st1) |}
            = {| cache := c;
                 calls := calls st ++ [search_rq title year;
                                       search_rq title None];
                 sleeps := sleeps st |}) as Hafter.
  { intros c. unfold st1. simpl. by rewrite <-app_assoc. }
  assert (log_call (search_rq title None) st1
          = {| cache := cache st;
               calls := calls st ++ [search_rq title year;
                                     search_rq title None];
               sleeps := sleeps st |}) as Hlog.
  { unfold st1, log_call. simpl. by rewrite <-app_assoc. }
  destruct (b_results body1) as [|first others] eqn:Hres.
  - unfold bind. rewrite search_request_eq, Hlen.
    destruct (classify (net E (S (length (calls st))) (search_rq title None)))
      as [body2|e]; [|rewrite Hlog; by destruct e].
    unfold ret at 1. cbv beta iota. cbn [default from_option]. unfold id.
    destruct (truthy_int (_fuzzy_match_title title (b_results body2) year 85));
      cbv beta; [by rewrite set_in_cache_id_eq, Hafter|].
    destruct (truthy_int (_fuzzy_match_title title (b_results body2) year 75));
      cbv beta; by rewrite set_in_cache_id_eq, Hafter.
  - destruct (String.eqb_spec (Str.take 4 (r_release_date first))
                (str_int (default 0 year))); [done|].
    unfold bind. rewrite search_request_eq, Hlen.
    destruct (classify (net E (S (length (calls st))) (search_rq title None)))
      as [body2|e]; [|rewrite Hlog; by destruct e].
    unfold ret at 1. cbv beta iota.
    destruct (truthy_int (_fuzzy_match_title title (b_results body2) year 85));
      cbv beta; [by rewrite set_in_cache_id_eq, Hafter|].
    destruct (truthy_int (_fuzzy_match_title title (first :: others) year 85));
      cbv beta; by rewrite set_in_cache_id_eq, Hafter.
Qed.

Transparent _fuzzy_match_title.

Lemma search_with_year_falls_back_witness :
  search_movie demo "Ghost" (Some 1991) new_client
  = (Ok (Some 251),
     {| cache := cache_set_id (search_key "Ghost" (Some 1991)) (Some 251)
                   (cache new_client);
        calls := [search_rq "Ghost" (Some 1991); search_rq "Ghost" None];
        sleeps := [] |}).
Proof.
  apply (search_with_year_falls_back demo "Ghost" (Some 1991) new_client
           (results_body [item 251 "Ghost" "1990-07-13"])).
  - reflexivity.
  - reflexivity.
  - reflexivity.
  - simpl. discriminate.
Defined.

(** ** Where candidates come from *)

Lemma neighbours_listed E ep n st l c :
  (neighbours E ep n st).1 = Ok l -> c ∈ l ->
  exists body result,
    net E (length (calls st)) (request_of ep []) = Response 200 body
    /\ result ∈ b_results body /\ r_id result = c_tmdb_id c.
Proof.
  intros Hrun Hc.
  pose proof (neighbours_meets_spec E ep n st) as [_ Hspec].
  rewrite Hrun in Hspec. destruct Hspec as (H200 & Hother & _).
  destruct (net E (length (calls st)) (request_of ep [])) as [f|code body]
    eqn:Hnet.
  { rewrite Hother in Hc by done. by apply elem_of_nil in Hc. }
  destruct (decide (code = 200)) as [->|Hcode].
  2: { rewrite Hother in Hc; [by apply elem_of_nil in Hc|].
       intros body' [= ? _]. done. }
  destruct (H200 body eq_refl) as [Hids _].
  assert (c_tmdb_id c ∈ c_tmdb_id <$> l) as Hin.
  { apply list_elem_of_fmap. eauto. }
  rewrite Hids in Hin. apply list_elem_of_fmap in Hin as (result & Hid & Hr).
  exists body, result. split_and!; [done| |done].
  destruct (slice_to_take n (b_results body)) as [k Hk]. rewrite Hk in Hr.
  by apply (sublist_subseteq _ _ (sublist_take (b_results body) k)).
Qed.

Lemma add_candidates_Forall (P : Candidate -> Prop) watched found : forall acc,
  Forall P found -> Forall P acc.2 ->
  Forall P (add_candidates watched found acc).2.
Proof.
  unfold add_candidates.
  induction found as [|c found IH]; intros [ids cs] Hfound Hacc; [done|].
  apply Forall_cons in Hfound as [Hc Hfound]. simpl.
  apply IH; [done|].
  destruct (_ && _); simpl; [|done].
  apply Forall_app. split; [done|]. by constructor.
Qed.

Lemma seed_loop_origin E all_watched watched cpm maxc seeds :
  forall acc st acc' st',
  seeds ⊆ all_watched ->
  Forall (fun c => neighbour_of E all_watched (c_tmdb_id c)) acc.2 ->
  seed_loop E watched cpm maxc seeds acc st = (Ok acc', st') ->
  Forall (fun c => neighbour_of E all_watched (c_tmdb_id c)) acc'.2.
Proof.
  induction seeds as [|seed seeds IH]; intros acc st acc' st' Hsub Hacc.
  { by intros [= <- <-]. }
  assert (seed ∈ all_watched) as Hseed by (apply Hsub; left).
  assert (seeds ⊆ all_watched) as Hsub'.
  { intros x Hx. apply Hsub. by right. }
  cbn [seed_loop].
  destruct (negb (truthy_int (tmdb_id (e_details seed)))) eqn:Hid.
  { by apply IH. }
  apply negb_false_iff, truthy_int_Some in Hid as (seed_id & Hid & Hnz).
  rewrite Hid. cbn [default from_option]. unfold id.
  unfold bind at 1. unfold get_similar_movies.
  destruct (neighbours E _ _ st) as [[similar|e] st1] eqn:H1; [|done].
  unfold bind at 1. unfold get_movie_recommendations.
  destruct (neighbours E _ _ st1) as [[recs|e] st2] eqn:H2; [|done].
  assert (Forall (fun c => neighbour_of E all_watched (c_tmdb_id c))
            (add_candidates watched recs
               (add_candidates watched similar acc)).2) as Hnew.
  { apply add_candidates_Forall; [|apply add_candidates_Forall; [|done]].
    - apply Forall_forall. intros c Hc.
      destruct (neighbours_listed E
                  ("/movie/" +:+ str_int seed_id +:+ "/recommendations")
                  (cpm `div` 2) st1 recs c) as (body & r & ? & ? & ?);
        [by rewrite H2|done|].
      exists seed, seed_id,
        ("/movie/" +:+ str_int seed_id +:+ "/recommendations"),
        (length (calls st1)), body, r.
      split_and!; auto.
    - apply Forall_forall. intros c Hc.
      destruct (neighbours_listed E
                  ("/movie/" +:+ str_int seed_id +:+ "/similar")
                  (cpm `div` 2) st similar c) as (body & r & ? & ? & ?);
        [by rewrite H1|done|].
      exists seed, seed_id,
        ("/movie/" +:+ str_int seed_id +:+ "/similar"),
        (length (calls st)), body, r.
      split_and!; auto. }
  destruct (_ >=? _).
  - by intros [= <- <-].
  - by apply IH.
Qed.

(** X29 (build_candidate_pool): when the provider answers a details
    request with the record of the id asked for, every record of the pool
    carries the id of a film that the provider listed, in a 200 answer,
    among the similar movies or the recommendations of a watched movie
    with a non-zero id: the pool holds nothing but neighbours of watched
    movies. *)
Theorem pool_members_are_neighbours (E : Env) (watched : list Enriched)
    (candidates_per_movie max_candidates : Z) (min_rating : option Q)
    (st st' : Client) (pool : list DetailRecord) :
  echoes_id E ->
  cache_keyed_by_id st ->
  build_candidate_pool E watched candidates_per_movie max_candidates
    min_rating st = (Ok pool, st') ->
  forall details, details ∈ pool ->
    exists i, tmdb_id details = Some i /\ neighbour_of E watched i.
Proof.
  intros Hnet Hst (acc & st1 & Hloop & -> & Hperm)%build_candidate_pool_stages.
  assert (cache_keyed_by_id st1) as Hst1.
  { pose proof (seed_loop_cache E (watched_ids watched) candidates_per_movie
                  max_candidates watched (∅, []) st) as Hc.
    rewrite Hloop in Hc. simpl in Hc. intros i d. unfold cached_rec.
    rewrite Hc. apply Hst. }
  pose proof (seed_loop_origin E watched (watched_ids watched)
                candidates_per_movie max_candidates watched (∅, []) st acc st1
                (reflexivity _) (Forall_nil_2 _) Hloop) as Horigin.
  destruct (futures_good E (fun i d => tmdb_id d = Some i)
              ltac:(intros k i data ?%classify_ok; by eapply Hnet)
              (slice_to max_candidates acc.2) st1 Hst1) as [Hall _].
  destruct (kept_ids (keep_candidate min_rating) _
              (keep_candidate_fetched min_rating) Hall)
    as (sub & Hsub & Hids).
  unfold details_futures in Hsub. rewrite futures_of_items in Hsub.
  intros d Hd. rewrite Hperm in Hd.
  assert (tmdb_id d ∈ tmdb_id <$> omap (keep_candidate min_rating)
            (details_futures E (slice_to max_candidates acc.2) st1).1)
    as Hin.
  { apply list_elem_of_fmap. eauto. }
  rewrite Hids in Hin. apply list_elem_of_fmap in Hin as (c & -> & Hc).
  exists (c_tmdb_id c). split; [done|].
  apply (sublist_subseteq _ _ Hsub) in Hc.
  destruct (slice_to_take max_candidates acc.2) as [k Hk]. rewrite Hk in Hc.
  apply (sublist_subseteq _ _ (sublist_take acc.2 k)) in Hc.
  rewrite Forall_forall in Horigin. by apply Horigin.
Qed.

Lemma pool_members_are_neighbours_witness :
  let run := build_candidate_pool demo demo_watched 10 3 None new_client in
  exists pool,
    run.1 = Ok pool /\ length pool = 3%nat
    /\ forall details, details ∈ pool ->
         exists i, tmdb_id details = Some i /\ neighbour_of demo demo_watched i.
Proof.
  intros run. destruct run as [r st'] eqn:Hrun.
  assert (exists pool, r = Ok pool /\ length pool = 3%nat)
    as (pool & -> & Hlen).
  { vm_compute in Hrun. injection Hrun as <- <-. eexists.
    split; reflexivity. }
  exists pool. split; [reflexivity|]. split; [exact Hlen|].
  apply (pool_members_are_neighbours demo demo_watched 10 3 None new_client
           st' pool demo_echoes_id new_client_keyed_by_id Hrun).
Defined.
